(** * Odin: compression envelope, secondary index and indexed query planner

    A shallow embedding of the Go packages [internal/compression],
    [internal/indexing], [internal/reflection] and of the query path of
    package [bucket], with the properties the specification states about
    them; then of the store methods and the registry of package [database]
    and of the save and delete paths of package [bucket], with further
    properties of the code. *)

From Stdlib Require Import ZArith NArith List Lia Bool.
From Stdlib Require Import Strings.Byte Strings.Ascii.
From stdpp Require Import base option list gmap strings sorting pretty.

Import ListNotations.
Local Open Scope N_scope.

#[global] Instance byte_eq_dec : EqDecision byte := Byte.byte_eq_dec.

(** The conversion [uint8(n)]: the low eight bits of [n]. *)
Definition uint8 (n : N) : byte :=
  match Byte.of_N (N.land n 255) with
  | Some b => b
  | None => x00
  end.

(** ** The LZW codec of Go's [compress/lzw]

    The repository calls [lzw.NewWriter] and [lzw.NewReader]; both are given a
    bit order and a literal width.  The model below follows the package's
    writer and reader: variable-width codes starting at [litWidth+1] bits,
    a clear code [1<<litWidth], an end code [clear+1], at most 12 bits per
    code.  The writer's open-addressing hash table is rendered as a finite
    map from the 20-bit key to the 12-bit code. *)
Module lzw.

Inductive Order := LSB | MSB.

Definition maxCode : N := 4095.
Definition maxWidth : N := 12.
Definition mask32 : N := 4294967295.

Record Writer := mkWriter {
  w_out : list byte;          (* bytes written so far, most recent first *)
  w_order : Order;
  w_bits : N;
  w_nBits : N;
  w_width : N;
  w_litWidth : N;
  w_hi : N;
  w_overflow : N;
  w_savedCode : option N;     (* [None] is invalidCode *)
  w_table : gmap N N
}.

Definition newWriter (order : Order) (litWidth : N) : Writer :=
  {| w_out := []; w_order := order; w_bits := 0; w_nBits := 0;
     w_width := 1 + litWidth; w_litWidth := litWidth;
     w_hi := N.shiftl 1 litWidth + 1;
     w_overflow := N.shiftl 1 (litWidth + 1);
     w_savedCode := None; w_table := ∅ |}.

Definition set_bits (w : Writer) (out : list byte) (bits nBits : N) : Writer :=
  {| w_out := out; w_order := w_order w; w_bits := bits; w_nBits := nBits;
     w_width := w_width w; w_litWidth := w_litWidth w; w_hi := w_hi w;
     w_overflow := w_overflow w; w_savedCode := w_savedCode w;
     w_table := w_table w |}.

(** The [for w.nBits >= 8] loops of [writeLSB] and [writeMSB]; a code adds at
    most 12 bits to fewer than 8 pending ones, so the fuel is never
    exhausted. *)
Fixpoint drainLSB (fuel : nat) (out : list byte) (bits nBits : N)
  : list byte * N * N :=
  match fuel with
  | O => (out, bits, nBits)
  | S fuel' =>
      if 8 <=? nBits
      then drainLSB fuel' (uint8 bits :: out) (N.shiftr bits 8) (nBits - 8)
      else (out, bits, nBits)
  end.

Fixpoint drainMSB (fuel : nat) (out : list byte) (bits nBits : N)
  : list byte * N * N :=
  match fuel with
  | O => (out, bits, nBits)
  | S fuel' =>
      if 8 <=? nBits
      then drainMSB fuel' (uint8 (N.shiftr bits 24) :: out)
             (N.land (N.shiftl bits 8) mask32) (nBits - 8)
      else (out, bits, nBits)
  end.

Definition writeLSB (w : Writer) (c : N) : Writer :=
  let bits := N.lor (w_bits w) (N.shiftl c (w_nBits w)) in
  let nBits := w_nBits w + w_width w in
  let '(out, bits, nBits) := drainLSB 4 (w_out w) bits nBits in
  set_bits w out bits nBits.

Definition writeMSB (w : Writer) (c : N) : Writer :=
  let bits := N.lor (w_bits w) (N.shiftl c (32 - w_width w - w_nBits w)) in
  let nBits := w_nBits w + w_width w in
  let '(out, bits, nBits) := drainMSB 4 (w_out w) bits nBits in
  set_bits w out bits nBits.

Definition write (w : Writer) (c : N) : Writer :=
  match w_order w with
  | LSB => writeLSB w c
  | MSB => writeMSB w c
  end.

(** [incHi]: the boolean is [true] for [errOutOfCodes]. *)
Definition incHi (w : Writer) : Writer * bool :=
  let hi := w_hi w + 1 in
  let '(width, overflow) :=
    if hi =? w_overflow w
    then (w_width w + 1, N.shiftl (w_overflow w) 1)
    else (w_width w, w_overflow w) in
  let w1 := {| w_out := w_out w; w_order := w_order w; w_bits := w_bits w;
               w_nBits := w_nBits w; w_width := width;
               w_litWidth := w_litWidth w; w_hi := hi;
               w_overflow := overflow; w_savedCode := w_savedCode w;
               w_table := w_table w |} in
  if hi =? maxCode then
    let clear := N.shiftl 1 (w_litWidth w) in
    let w2 := write w1 clear in
    ({| w_out := w_out w2; w_order := w_order w2; w_bits := w_bits w2;
        w_nBits := w_nBits w2; w_width := w_litWidth w + 1;
        w_litWidth := w_litWidth w; w_hi := clear + 1;
        w_overflow := N.shiftl clear 1; w_savedCode := w_savedCode w2;
        w_table := ∅ |}, true)
  else (w1, false).

Definition set_table (w : Writer) (t : gmap N N) : Writer :=
  {| w_out := w_out w; w_order := w_order w; w_bits := w_bits w;
     w_nBits := w_nBits w; w_width := w_width w; w_litWidth := w_litWidth w;
     w_hi := w_hi w; w_overflow := w_overflow w;
     w_savedCode := w_savedCode w; w_table := t |}.

Definition set_savedCode (w : Writer) (c : option N) : Writer :=
  {| w_out := w_out w; w_order := w_order w; w_bits := w_bits w;
     w_nBits := w_nBits w; w_width := w_width w; w_litWidth := w_litWidth w;
     w_hi := w_hi w; w_overflow := w_overflow w;
     w_savedCode := c; w_table := w_table w |}.

(** The [loop:] of [Writer.Write]: [code] is the code accumulated so far. *)
Fixpoint writeLoop (w : Writer) (code : N) (p : list byte) : Writer * N :=
  match p with
  | [] => (w, code)
  | x :: p' =>
      let literal := Byte.to_N x in
      let key := N.lor (N.shiftl code 8) literal in
      match w_table w !! key with
      | Some t => writeLoop w t p'
      | None =>
          let w1 := write w code in
          let '(w2, outOfCodes) := incHi w1 in
          if outOfCodes then writeLoop w2 literal p'
          else writeLoop (set_table w2 (<[key := w_hi w2]> (w_table w2))) literal p'
      end
  end.

(** [Writer.Write]; [None] is the "input byte too large for the litWidth"
    error. *)
Definition Write (w : Writer) (p : list byte) : option Writer :=
  match p with
  | [] => Some w
  | p0 :: ptail =>
      let maxLit := N.shiftl 1 (w_litWidth w) - 1 in
      if forallb (fun x => Byte.to_N x <=? maxLit) p then
        let '(w1, code, rest) :=
          match w_savedCode w with
          | None => (write w (N.shiftl 1 (w_litWidth w)), Byte.to_N p0, ptail)
          | Some c => (w, c, p)
          end in
        let '(w2, code') := writeLoop w1 code rest in
        Some (set_savedCode w2 (Some code'))
      else None
  end.

(** [Writer.Close], returning the bytes of the underlying buffer. *)
Definition Close (w : Writer) : list byte :=
  let w1 :=
    match w_savedCode w with
    | Some c => fst (incHi (write w c))
    | None => write w (N.shiftl 1 (w_litWidth w))
    end in
  let eof := N.shiftl 1 (w_litWidth w) + 1 in
  let w2 := write w1 eof in
  let out :=
    if 0 <? w_nBits w2 then
      match w_order w2 with
      | MSB => uint8 (N.shiftr (w_bits w2) 24) :: w_out w2
      | LSB => uint8 (w_bits w2) :: w_out w2
      end
    else w_out w2 in
  rev out.

(** [NewWriter], one [Write] of the whole input, [Close]: the bytes left in
    the buffer, or [None] when [Write] reports an error (a literal width
    outside 2..8 makes every [Write] fail). *)
Definition encode (order : Order) (litWidth : N) (data : list byte)
  : option (list byte) :=
  if (2 <=? litWidth) && (litWidth <=? 8) then
    match Write (newWriter order litWidth) data with
    | Some w => Some (Close w)
    | None => None
    end
  else None.

(** *** Reader *)

Record Reader := mkReader {
  r_src : list byte;
  r_bits : N;
  r_nBits : N;
  r_width : N;
  r_litWidth : N;
  r_clear : N;
  r_eof : N;
  r_hi : N;
  r_overflow : N;
  r_last : option N;          (* [None] is decoderInvalidCode *)
  r_suffix : gmap N N;
  r_prefix : gmap N N
}.

Definition newReader (src : list byte) (litWidth : N) : Reader :=
  let clear := N.shiftl 1 litWidth in
  {| r_src := src; r_bits := 0; r_nBits := 0; r_width := 1 + litWidth;
     r_litWidth := litWidth; r_clear := clear; r_eof := clear + 1; r_hi := clear + 1;
     r_overflow := N.shiftl 1 (1 + litWidth); r_last := None;
     r_suffix := ∅; r_prefix := ∅ |}.

Definition set_input (r : Reader) (src : list byte) (bits nBits : N) : Reader :=
  {| r_src := src; r_bits := bits; r_nBits := nBits; r_width := r_width r;
     r_litWidth := r_litWidth r;
     r_clear := r_clear r; r_eof := r_eof r; r_hi := r_hi r;
     r_overflow := r_overflow r; r_last := r_last r;
     r_suffix := r_suffix r; r_prefix := r_prefix r |}.

(** The [for r.nBits < r.width] loops of [readLSB] and [readMSB]; [None] is
    the end of the source. *)
Fixpoint fillLSB (fuel : nat) (src : list byte) (bits nBits width : N)
  : option (list byte * N * N) :=
  if width <=? nBits then Some (src, bits, nBits)
  else match fuel, src with
       | S fuel', x :: src' =>
           fillLSB fuel' src' (N.lor bits (N.shiftl (Byte.to_N x) nBits))
             (nBits + 8) width
       | _, _ => None
       end.

Fixpoint fillMSB (fuel : nat) (src : list byte) (bits nBits width : N)
  : option (list byte * N * N) :=
  if width <=? nBits then Some (src, bits, nBits)
  else match fuel, src with
       | S fuel', x :: src' =>
           fillMSB fuel' src'
             (N.lor bits (N.shiftl (Byte.to_N x) (24 - nBits)))
             (nBits + 8) width
       | _, _ => None
       end.

Definition readLSB (r : Reader) : option (Reader * N) :=
  match fillLSB 4 (r_src r) (r_bits r) (r_nBits r) (r_width r) with
  | Some (src, bits, nBits) =>
      let code := N.land bits (N.shiftl 1 (r_width r) - 1) in
      Some (set_input r src (N.shiftr bits (r_width r)) (nBits - r_width r), code)
  | None => None
  end.

Definition readMSB (r : Reader) : option (Reader * N) :=
  match fillMSB 4 (r_src r) (r_bits r) (r_nBits r) (r_width r) with
  | Some (src, bits, nBits) =>
      let code := N.shiftr bits (32 - r_width r) in
      Some (set_input r src (N.land (N.shiftl bits (r_width r)) mask32)
              (nBits - r_width r), code)
  | None => None
  end.

Definition read (order : Order) (r : Reader) : option (Reader * N) :=
  match order with
  | LSB => readLSB r
  | MSB => readMSB r
  end.

Definition tbl (m : gmap N N) (c : N) : N := default 0 (m !! c).

(** [for c >= r.clear { c = r.prefix[c] }]: the literal at the head of the
    expansion of [c]. *)
Fixpoint headOf (fuel : nat) (r : Reader) (c : N) : N :=
  match fuel with
  | O => c
  | S fuel' => if r_clear r <=? c then headOf fuel' r (tbl (r_prefix r) c) else c
  end.

(** The suffix chain of [c] written right to left: the expansion of [c] in
    front of [acc]. *)
Fixpoint expand (fuel : nat) (r : Reader) (c : N) (acc : list byte) : list byte :=
  match fuel with
  | O => uint8 c :: acc
  | S fuel' =>
      if r_clear r <=? c
      then expand fuel' r (tbl (r_prefix r) c) (uint8 (tbl (r_suffix r) c) :: acc)
      else uint8 c :: acc
  end.

Definition chainFuel : nat := 4096.

Definition saveHi (r : Reader) (sfx : N) : Reader :=
  match r_last r with
  | Some last =>
      {| r_src := r_src r; r_bits := r_bits r; r_nBits := r_nBits r;
         r_width := r_width r; r_litWidth := r_litWidth r;
         r_clear := r_clear r; r_eof := r_eof r;
         r_hi := r_hi r; r_overflow := r_overflow r; r_last := r_last r;
         r_suffix := <[r_hi r := sfx]> (r_suffix r);
         r_prefix := <[r_hi r := last]> (r_prefix r) |}
  | None => r
  end.

(** The tail of one iteration of [decode]: [r.last, r.hi = code, r.hi+1] and
    the width bookkeeping. *)
Definition advance (r : Reader) (code : N) : Reader :=
  let hi := r_hi r + 1 in
  let '(last, hi, width, overflow) :=
    if r_overflow r <=? hi then
      if r_width r =? maxWidth
      then (None, hi - 1, r_width r, r_overflow r)
      else (Some code, hi, r_width r + 1, N.shiftl 1 (r_width r + 1))
    else (Some code, hi, r_width r, r_overflow r) in
  {| r_src := r_src r; r_bits := r_bits r; r_nBits := r_nBits r;
     r_width := width; r_litWidth := r_litWidth r;
     r_clear := r_clear r; r_eof := r_eof r;
     r_hi := hi; r_overflow := overflow; r_last := last;
     r_suffix := r_suffix r; r_prefix := r_prefix r |}.

Definition onClear (r : Reader) : Reader :=
  {| r_src := r_src r; r_bits := r_bits r; r_nBits := r_nBits r;
     r_width := 1 + r_litWidth r; r_litWidth := r_litWidth r;
     r_clear := r_clear r; r_eof := r_eof r; r_hi := r_eof r;
     r_overflow := N.shiftl 1 (1 + r_litWidth r); r_last := None;
     r_suffix := r_suffix r; r_prefix := r_prefix r |}.

(** The [loop:] of [Reader.decode], run until the end code or an error.  Every
    iteration consumes a code of at least 3 bits, so [fuel] above the number
    of input bits is enough.  [None] is an error ([io.ErrUnexpectedEOF] or
    "invalid code"). *)
Fixpoint decodeLoop (fuel : nat) (order : Order) (r : Reader) (out : list byte)
  : option (list byte) :=
  match fuel with
  | O => None
  | S fuel' =>
      match read order r with
      | None => None
      | Some (r, code) =>
          if code <? r_clear r then
            let r1 := saveHi r code in
            decodeLoop fuel' order (advance r1 code) (out ++ [uint8 code])
          else if code =? r_clear r then
            decodeLoop fuel' order (onClear r) out
          else if code =? r_eof r then Some out
          else if code <=? r_hi r then
            let bytes :=
              match r_last r with
              | Some last =>
                  if code =? r_hi r
                  then expand chainFuel r last [uint8 (headOf chainFuel r last)]
                  else expand chainFuel r code []
              | None => expand chainFuel r code []
              end in
            let r1 := saveHi r (Byte.to_N (hd x00 bytes)) in
            decodeLoop fuel' order (advance r1 code) (out ++ bytes)
          else None
      end
  end.

(** [io.ReadAll(lzw.NewReader(src, order, litWidth))]: [Some] when the stream
    ends with the end code, [None] when the reader reports an error. *)
Definition decode (order : Order) (litWidth : N) (src : list byte)
  : option (list byte) :=
  if (2 <=? litWidth) && (litWidth <=? 8)
  then decodeLoop (S (8 * length src)) order (newReader src litWidth) []
  else None.

End lzw.


(** ** The codec packages as seen by package [compression]

    [compress/gzip], [compress/zlib], [compress/flate] and [compress/lzw]
    belong to the Go distribution, not to the repository.  A writer is
    rendered as the function from the written data to the bytes left in the
    [bytes.Buffer] after [Write] and [Close], [None] standing for a non-nil
    error of [Write]; a reader as the function from the source bytes to the
    result of [io.ReadAll], [None] standing for an error of the constructor,
    of [Reset] or of [ReadAll]. *)
Record Codecs := {
  gzip_Writer : Z -> list byte -> option (list byte);
  gzip_Reader : list byte -> option (list byte);
  zlib_Writer : Z -> list byte -> option (list byte);
  zlib_Reader : list byte -> option (list byte);
  flate_Writer : Z -> list byte -> option (list byte);
  flate_Reader : list byte -> option (list byte);
  lzw_Writer : lzw.Order -> N -> list byte -> option (list byte);
  lzw_Reader : lzw.Order -> N -> list byte -> option (list byte)
}.

Definition DefaultCompression : Z := (-1)%Z.
Definition BestCompression : Z := 9%Z.

(** The codec tags: [const ( None = iota; Gzip; Zlib; Flate; LZW )]. *)
Definition None_ : N := 0.
Definition Gzip : N := 1.
Definition Zlib : N := 2.
Definition Flate : N := 3.
Definition LZW : N := 4.
Definition threshold : nat := 50.

Definition compressor := (N * (list byte -> option (list byte)))%type.

(** The body of the [for _, c := range compressors] loop of [CompressData]. *)
Definition tryCompressor (data : list byte) (acc : list byte * N) (c : compressor)
  : list byte * N :=
  let '(best, bestType) := acc in
  match c.2 data with
  | Some compressed =>
      if (length compressed <? length best)%nat then (compressed, c.1)
      else (best, bestType)
  | None => (best, bestType)
  end.

(** [CompressData] for a given table of compressors. *)
Definition compressWith (compressors : list compressor) (data : list byte)
  : list byte :=
  if (length data <? threshold)%nat then uint8 None_ :: data
  else
    let '(best, bestType) := fold_left (tryCompressor data) compressors (data, None_) in
    uint8 bestType :: best.

(** An outcome of a call that can panic. *)
Inductive outcome (A : Type) :=
  | Returns (a : A)
  | Panics.
Arguments Returns {A} a.
Arguments Panics {A}.

(** *** [internal/compression/compression.go] *)
Module compression.
Section WithCodecs.
Context (lib : Codecs).

Definition compressLZW (data : list byte) := lzw_Writer lib lzw.LSB 8 data.
Definition compressFlate (data : list byte) := flate_Writer lib DefaultCompression data.
Definition compressZlib (data : list byte) := zlib_Writer lib DefaultCompression data.
Definition compressGzip (data : list byte) := gzip_Writer lib DefaultCompression data.

Definition compressors : list compressor :=
  [(Gzip, compressGzip); (Zlib, compressZlib); (Flate, compressFlate); (LZW, compressLZW)].

Definition CompressData (data : list byte) : list byte :=
  compressWith compressors data.

(** [zlibReaderPool.Get().(io.ReadCloser)].  Nothing is ever put into the pool
    before a [Get] has succeeded, so [Get] always runs [New], which is
    [r, _ := zlib.NewReader(nil); return r]: a zlib reader is built by
    reading the stream header from its source, and there is no source.
    Whether [NewReader] fails on the nil source or reports an error that
    [New] drops, no [io.ReadCloser] comes out of the pool and the statement
    panics. *)
Definition zlibReaderPool_Get : outcome unit := Panics.

(** The last two statements of [DecompressData], reached when no tagged
    decoding returned. *)
Definition gzipMagic (data : list byte) : list byte :=
  match data with
  | b0 :: b1 :: _ =>
      if (Byte.to_N b0 =? 31) && (Byte.to_N b1 =? 139) then
        match gzip_Reader lib data with
        | Some result => result
        | None => data
        end
      else data
  | _ => data
  end.

Definition DecompressData (data : list byte) : outcome (list byte) :=
  match data with
  | [] => Returns data
  | tag :: rest =>
      let t := Byte.to_N tag in
      if (t =? 0) || (t =? 1) then
        if t =? 1 then
          match gzip_Reader lib rest with
          | Some result => Returns result
          | None => Returns rest
          end
        else Returns rest
      else if t <=? LZW then
        if t =? None_ then Returns rest
        else if t =? Gzip then
          match gzip_Reader lib rest with
          | Some result => Returns result
          | None => Returns (gzipMagic data)
          end
        else if t =? Zlib then
          match zlibReaderPool_Get with
          | Panics => Panics
          | Returns _ =>
              match zlib_Reader lib rest with
              | Some result => Returns result
              | None => Returns (gzipMagic data)
              end
          end
        else if t =? Flate then
          match flate_Reader lib rest with
          | Some result => Returns result
          | None => Returns (gzipMagic data)
          end
        else
          match lzw_Reader lib lzw.LSB 8 rest with
          | Some result => Returns result
          | None => Returns (gzipMagic data)
          end
      else Returns (gzipMagic data)
  end.
End WithCodecs.
End compression.

(** *** [package compression], the variant without reader pools
    ([src/unnamed/part_002]) *)
Module compression_nopool.
Section WithCodecs.
Context (lib : Codecs).

Definition compressLZW (data : list byte) := lzw_Writer lib lzw.LSB 8 data.
Definition compressFlate (data : list byte) := flate_Writer lib BestCompression data.
Definition compressZlib (data : list byte) := zlib_Writer lib BestCompression data.
Definition compressGzip (data : list byte) := gzip_Writer lib BestCompression data.

Definition compressors : list compressor :=
  [(LZW, compressLZW); (Flate, compressFlate); (Zlib, compressZlib); (Gzip, compressGzip)].

Definition CompressData (data : list byte) : list byte :=
  compressWith compressors data.

Definition gzipMagic (data : list byte) : list byte :=
  match data with
  | b0 :: b1 :: _ =>
      if (Byte.to_N b0 =? 31) && (Byte.to_N b1 =? 139) then
        match gzip_Reader lib data with
        | Some result => result
        | None => data
        end
      else data
  | _ => data
  end.

Definition DecompressData (data : list byte) : list byte :=
  match data with
  | [] => data
  | tag :: rest =>
      let t := Byte.to_N tag in
      if (t =? 0) || (t =? 1) then
        if t =? 1 then
          match gzip_Reader lib rest with
          | Some result => result
          | None => rest
          end
        else rest
      else if t <=? LZW then
        if t =? None_ then rest
        else if t =? Gzip then
          match gzip_Reader lib rest with
          | Some result => result
          | None => gzipMagic data
          end
        else if t =? Zlib then
          match zlib_Reader lib rest with
          | Some result => result
          | None => gzipMagic data
          end
        else if t =? Flate then
          match flate_Reader lib rest with
          | Some result => result
          | None => gzipMagic data
          end
        else
          match lzw_Reader lib lzw.LSB 8 rest with
          | Some result => result
          | None => gzipMagic data
          end
      else gzipMagic data
  end.
End WithCodecs.
End compression_nopool.

(** A codec library in which only LZW is available: its writer and reader are
    those of the model above, the DEFLATE-based writers report an error and
    their readers reject every source. *)
Definition lzw_only : Codecs :=
  {| gzip_Writer := fun _ _ => None; gzip_Reader := fun _ => None;
     zlib_Writer := fun _ _ => None; zlib_Reader := fun _ => None;
     flate_Writer := fun _ _ => None; flate_Reader := fun _ => None;
     lzw_Writer := lzw.encode; lzw_Reader := lzw.decode |}.

(** [w] followed by [r] gives [b] back whenever [w] accepts [b]. *)
Definition roundtrips (w r : list byte -> option (list byte)) (b : list byte) : Prop :=
  forall c, w b = Some c -> r c = Some b.

(** The reader [DecompressData] applies to the payload of a frame with the
    given tag. *)
Definition readerFor (lib : Codecs) (tag : N) : list byte -> option (list byte) :=
  if tag =? Gzip then gzip_Reader lib
  else if tag =? Zlib then zlib_Reader lib
  else if tag =? Flate then flate_Reader lib
  else lzw_Reader lib lzw.LSB 8.

(** A zlib stream is a raw DEFLATE stream between a two-byte header and a
    four-byte checksum: whenever the zlib writer succeeds on [b], the flate
    writer at the same level succeeds with a strictly shorter output. *)
Definition zlib_longer_than_flate (lib : Codecs) (level : Z) (b : list byte) : Prop :=
  forall z, zlib_Writer lib level b = Some z ->
    exists f, flate_Writer lib level b = Some f /\ (length f < length z)%nat.

(** Sample inputs: sixty times the letter a, three bytes that are no LZW
    stream (the first 9-bit code, 511, is above every code assigned), and
    the text TOBEORNOTTOBEORTOBEORNOT of the tests of [compress/lzw]. *)
Definition sixty_a : list byte := repeat x61 60.
Definition not_lzw : list byte := [xff; xff; xff].
Definition tobe : list byte :=
  [x54; x4f; x42; x45; x4f; x52; x4e; x4f; x54; x54; x4f; x42; x45; x4f; x52;
   x54; x4f; x42; x45; x4f; x52; x4e; x4f; x54].

(** The candidates [CompressData] chooses from, in the order it considers
    them: the raw data first, then the output of every compressor that
    reported no error. *)
Definition candidates (cs : list compressor) (data : list byte)
  : list (N * list byte) :=
  (None_, data) :: omap (fun c : compressor => (fun out => (c.1, out)) <$> c.2 data) cs.

Definition keepSmaller (acc : list byte * N) (c : N * list byte) : list byte * N :=
  if (length c.2 <? length acc.1)%nat then (c.2, c.1) else acc.

(** The frame made of a candidate: its tag byte, then its bytes. *)
Definition frame (c : N * list byte) : list byte := uint8 c.1 :: c.2.

(** ** Go values as the index sees them

    The index is a [map[string]map[string]map[interface{}][]string].  Of an
    interface value the code observes whether it is nil, its dynamic type
    ([reflect.TypeOf]) and its identity as a map key ([==]).  A value is
    therefore the nil interface or a dynamic type with a datum; two values
    are the same key when type and datum agree.  Types are compared by
    structure, and floating-point NaN, the one datum that differs from
    itself, is not represented here: the module [floats] below adds it.  A
    type is a finite tree: a struct type that
    mentions itself through a pointer, on which the recursion of
    [isTypeHashable] has no end, has no rendering here. *)

Local Set Warnings "-register-all".

(** The kinds that reach the [default:] case of [isTypeHashable]. *)
Inductive BasicKind :=
  | Bool | Int | Int8 | Int16 | Int32 | Int64
  | Uint | Uint8 | Uint16 | Uint32 | Uint64 | Uintptr
  | Float32 | Float64 | Complex64 | Complex128
  | String | UnsafePointer.

Inductive GoType :=
  | TBasic (k : BasicKind)
  | TSlice (elem : GoType)
  | TMap (key elem : GoType)
  | TFunc
  | TPtr (elem : GoType)
  | TArray (len : nat) (elem : GoType)
  | TStruct (fields : list GoType)
  | TInterface
  | TChan (elem : GoType).

Inductive Datum :=
  | DNum (z : Z)
  | DStr (s : string)
  | DSeq (ds : list Datum).

Inductive Value :=
  | Nil
  | Val (t : GoType) (d : Datum).

Definition BasicKind_code (k : BasicKind) : nat :=
  match k with
  | Bool => 0 | Int => 1 | Int8 => 2 | Int16 => 3 | Int32 => 4 | Int64 => 5
  | Uint => 6 | Uint8 => 7 | Uint16 => 8 | Uint32 => 9 | Uint64 => 10
  | Uintptr => 11 | Float32 => 12 | Float64 => 13 | Complex64 => 14
  | Complex128 => 15 | String => 16 | UnsafePointer => 17
  end%nat.

Definition BasicKind_of_code (n : nat) : BasicKind :=
  match n with
  | 0 => Bool | 1 => Int | 2 => Int8 | 3 => Int16 | 4 => Int32 | 5 => Int64
  | 6 => Uint | 7 => Uint8 | 8 => Uint16 | 9 => Uint32 | 10 => Uint64
  | 11 => Uintptr | 12 => Float32 | 13 => Float64 | 14 => Complex64
  | 15 => Complex128 | 16 => String | _ => UnsafePointer
  end%nat.

Fixpoint GoType_to_tree (t : GoType) : gen_tree nat :=
  match t with
  | TBasic k => GenLeaf (BasicKind_code k)
  | TSlice e => GenNode 0 [GoType_to_tree e]
  | TMap k e => GenNode 1 [GoType_to_tree k; GoType_to_tree e]
  | TFunc => GenNode 2 []
  | TPtr e => GenNode 3 [GoType_to_tree e]
  | TArray n e => GenNode 4 [GenLeaf n; GoType_to_tree e]
  | TStruct fs => GenNode 5 (map GoType_to_tree fs)
  | TInterface => GenNode 6 []
  | TChan e => GenNode 7 [GoType_to_tree e]
  end.

Fixpoint GoType_of_tree (g : gen_tree nat) : GoType :=
  match g with
  | GenLeaf n => TBasic (BasicKind_of_code n)
  | GenNode 0 [e] => TSlice (GoType_of_tree e)
  | GenNode 1 [k; e] => TMap (GoType_of_tree k) (GoType_of_tree e)
  | GenNode 3 [e] => TPtr (GoType_of_tree e)
  | GenNode 4 [GenLeaf n; e] => TArray n (GoType_of_tree e)
  | GenNode 5 fs => TStruct (map GoType_of_tree fs)
  | GenNode 6 [] => TInterface
  | GenNode 7 [e] => TChan (GoType_of_tree e)
  | _ => TFunc
  end.

Lemma GoType_nested_ind (P : GoType -> Prop) :
  (forall k, P (TBasic k)) ->
  (forall e, P e -> P (TSlice e)) ->
  (forall k e, P k -> P e -> P (TMap k e)) ->
  P TFunc ->
  (forall e, P e -> P (TPtr e)) ->
  (forall n e, P e -> P (TArray n e)) ->
  (forall fs, Forall P fs -> P (TStruct fs)) ->
  P TInterface ->
  (forall e, P e -> P (TChan e)) ->
  forall t, P t.
Proof.
  intros Hb Hs Hm Hf Hp Ha Hst Hi Hc. fix IH 1. intros [k|e|k e| |e|n e|fs| |e].
  - apply Hb.
  - apply Hs, IH.
  - apply Hm; apply IH.
  - apply Hf.
  - apply Hp, IH.
  - apply Ha, IH.
  - apply Hst. induction fs as [|f fs IHfs]; constructor; [apply IH|apply IHfs].
  - apply Hi.
  - apply Hc, IH.
Qed.

Lemma GoType_of_to_tree t : GoType_of_tree (GoType_to_tree t) = t.
Proof.
  induction t as [k|e IHe|k e IHk IHe| |e IHe|n e IHe|fs IHfs| |e IHe]
    using GoType_nested_ind; cbn; try congruence.
  - by destruct k.
  - f_equal. induction IHfs as [|f fs Hf _ IH]; cbn; [done|]. by rewrite Hf, IH.
Qed.

#[global] Instance GoType_eq_dec : EqDecision GoType.
Proof.
  intros x y.
  destruct (decide (GoType_to_tree x = GoType_to_tree y)) as [H|H].
  - left. rewrite <- (GoType_of_to_tree x), <- (GoType_of_to_tree y). by rewrite H.
  - right. intros ->. by apply H.
Defined.

#[global] Instance GoType_countable : Countable GoType :=
  inj_countable' GoType_to_tree GoType_of_tree GoType_of_to_tree.

Fixpoint Datum_to_tree (d : Datum) : gen_tree (Z + string) :=
  match d with
  | DNum z => GenLeaf (inl z)
  | DStr s => GenLeaf (inr s)
  | DSeq ds => GenNode 0 (map Datum_to_tree ds)
  end.

Fixpoint Datum_of_tree (g : gen_tree (Z + string)) : Datum :=
  match g with
  | GenLeaf (inl z) => DNum z
  | GenLeaf (inr s) => DStr s
  | GenNode _ ds => DSeq (map Datum_of_tree ds)
  end.

Lemma Datum_nested_ind (P : Datum -> Prop) :
  (forall z, P (DNum z)) -> (forall s, P (DStr s)) ->
  (forall ds, Forall P ds -> P (DSeq ds)) ->
  forall d, P d.
Proof.
  intros Hn Hs Hq. fix IH 1. intros [z|s|ds].
  - apply Hn.
  - apply Hs.
  - apply Hq. induction ds as [|d ds IHds]; constructor; [apply IH|apply IHds].
Qed.

Lemma Datum_of_to_tree d : Datum_of_tree (Datum_to_tree d) = d.
Proof.
  induction d as [z|s|ds IHds] using Datum_nested_ind; cbn; [done..|].
  f_equal. induction IHds as [|d ds Hd _ IH]; cbn; [done|]. by rewrite Hd, IH.
Qed.

#[global] Instance Datum_eq_dec : EqDecision Datum.
Proof.
  intros x y.
  destruct (decide (Datum_to_tree x = Datum_to_tree y)) as [H|H].
  - left. rewrite <- (Datum_of_to_tree x), <- (Datum_of_to_tree y). by rewrite H.
  - right. intros ->. by apply H.
Defined.

#[global] Instance Datum_countable : Countable Datum :=
  inj_countable' Datum_to_tree Datum_of_tree Datum_of_to_tree.

#[global] Instance Value_eq_dec : EqDecision Value.
Proof. solve_decision. Defined.

Definition Value_to_option (v : Value) : option (GoType * Datum) :=
  match v with Nil => None | Val t d => Some (t, d) end.
Definition Value_of_option (o : option (GoType * Datum)) : Value :=
  match o with None => Nil | Some (t, d) => Val t d end.

#[global] Instance Value_countable : Countable Value.
Proof.
  refine (inj_countable' Value_to_option Value_of_option _). by intros [|t d].
Defined.

(** ** [internal/reflection]: the field matcher *)

(** A struct field as [reflect] presents it: its name, the value of the
    [json] key of its tag ([field.Tag.Get("json")], empty when absent) and
    the value [entityValue.Field(i).Interface()] returns.  An entity is the
    list of the fields of the struct (or of the struct a pointer leads to).
    Fields are exported, [Interface()] panics otherwise. *)
Record Field := mkField {
  Name : string;
  jsonTag : string;
  fieldValue : Value
}.

Abbreviation Entity := (list Field).

(** [jsonTag[:comma]] for the first comma of [jsonTag], the whole tag when
    there is none. *)
Fixpoint beforeComma (s : string) : string :=
  match s with
  | EmptyString => EmptyString
  | String.String c s' =>
      if Ascii.eqb c ","%char then EmptyString
      else String.String c (beforeComma s')
  end.

(** The alias the three copies of the tag-parsing snippet compute: [Some] of
    the tag up to its first comma when that is neither empty nor ["-"]. *)
Definition jsonAlias (f : Field) : option string :=
  if decide (jsonTag f = EmptyString) then None
  else
    let t := beforeComma (jsonTag f) in
    if decide (t <> EmptyString /\ t <> "-"%string) then Some t else None.

Record FieldMatcher := mkFieldMatcher {
  FieldMap : gmap string nat;
  JsonMap : gmap string nat
}.

(** The loop of [GetFieldMatcher], from field [i] on. *)
Fixpoint buildMatcher (i : nat) (fs : list Field) (m : FieldMatcher) : FieldMatcher :=
  match fs with
  | [] => m
  | f :: fs' =>
      let fm := <[Name f := i]> (FieldMap m) in
      let jm := match jsonAlias f with
                | Some t => <[t := i]> (JsonMap m)
                | None => JsonMap m
                end in
      buildMatcher (S i) fs' {| FieldMap := fm; JsonMap := jm |}
  end.

(** [GetFieldMatcher(typ)]; the cache only avoids rebuilding the matcher of a
    type already seen. *)
Definition GetFieldMatcher (e : Entity) : FieldMatcher :=
  buildMatcher 0 e {| FieldMap := ∅; JsonMap := ∅ |}.

Definition GetFieldValue (fm : FieldMatcher) (entityValue : Entity) (key : string)
  : option Value :=
  match JsonMap fm !! key with
  | Some idx => fieldValue <$> entityValue !! idx
  | None =>
      match FieldMap fm !! key with
      | Some idx => fieldValue <$> entityValue !! idx
      | None => None
      end
  end.

(** ** [internal/indexing] *)

Fixpoint isTypeHashable (t : GoType) : bool :=
  match t with
  | TSlice _ | TMap _ _ | TFunc => false
  | TPtr e => isTypeHashable e
  | TArray _ e => isTypeHashable e
  | TStruct fs => forallb isTypeHashable fs
  | TInterface => false
  | TChan _ => false
  | TBasic _ => true
  end.

Definition isHashable (v : Value) : bool :=
  match v with
  | Nil => true
  | Val t _ => isTypeHashable t
  end.

(** Whether the runtime can hash a value used as a key of a
    [map[interface{}]...]: slices, maps and functions cannot be hashed, nor
    arrays and structs made of them, and looking such a key up panics.
    Interface-typed components are taken to hold comparable values. *)
Fixpoint comparable (t : GoType) : bool :=
  match t with
  | TSlice _ | TMap _ _ | TFunc => false
  | TArray _ e => comparable e
  | TStruct fs => forallb comparable fs
  | TBasic _ | TPtr _ | TInterface | TChan _ => true
  end.

Definition canBeKey (v : Value) : bool :=
  match v with
  | Nil => true
  | Val t _ => comparable t
  end.

(** [bucketIndexes]: bucket name, then field name, then field value, to the
    keys of the records holding that value. *)
Abbreviation Index := (gmap string (gmap string (gmap Value (list string)))).

(** The name a field is indexed under: its alias when it has one. *)
Definition indexName (f : Field) : string :=
  match jsonAlias f with
  | Some t => t
  | None => Name f
  end.

Definition bucketOf (idx : Index) (bucketName : string)
  : gmap string (gmap Value (list string)) :=
  default ∅ (idx !! bucketName).

(** [bucketIndexes[bucketName][fieldName] = m]. *)
Definition setFieldIndex (idx : Index) (bucketName fieldName : string)
    (m : gmap Value (list string)) : Index :=
  <[bucketName := <[fieldName := m]> (bucketOf idx bucketName)]> idx.

(** One iteration of the loop of [UpdateIndex]. *)
Definition updateField (bucketName key : string) (matcher : FieldMatcher)
    (entityValue : Entity) (idx : Index) (field : Field) : Index :=
  let fieldName := indexName field in
  let idx :=
    match bucketOf idx bucketName !! fieldName with
    | Some _ => idx
    | None => setFieldIndex idx bucketName fieldName ∅
    end in
  match GetFieldValue matcher entityValue fieldName with
  | Some fieldValue =>
      if negb (isHashable fieldValue) then idx
      else
        let fieldIndex := default ∅ (bucketOf idx bucketName !! fieldName) in
        let keys := default [] (fieldIndex !! fieldValue) in
        if decide (key ∈ keys) then idx
        else setFieldIndex idx bucketName fieldName
               (<[fieldValue := keys ++ [key]]> fieldIndex)
  | None => idx
  end.

Definition UpdateIndex (bucketName key : string) (entity : Entity) (idx : Index)
  : Index :=
  let idx :=
    match idx !! bucketName with
    | Some _ => idx
    | None => <[bucketName := ∅]> idx
    end in
  fold_left (updateField bucketName key (GetFieldMatcher entity) entity) entity idx.

(** [append(keys[:i], keys[i+1:]...)] for the first [i] with
    [keys[i] == key]. *)
Fixpoint removeKey (key : string) (keys : list string) : list string :=
  match keys with
  | [] => []
  | k :: ks => if decide (k = key) then ks else k :: removeKey key ks
  end.

(** One iteration of the loop of [RemoveFromIndex]. *)
Definition removeField (bucketName key : string) (matcher : FieldMatcher)
    (entityValue : Entity) (idx : Index) (field : Field) : Index :=
  let fieldName := indexName field in
  match bucketOf idx bucketName !! fieldName with
  | Some fieldIndex =>
      match GetFieldValue matcher entityValue fieldName with
      | Some fieldValue =>
          if negb (isHashable fieldValue) then idx
          else
            match fieldIndex !! fieldValue with
            | Some keys =>
                let keys' := removeKey key keys in
                if decide (length keys' = 0%nat)
                then setFieldIndex idx bucketName fieldName (delete fieldValue fieldIndex)
                else setFieldIndex idx bucketName fieldName (<[fieldValue := keys']> fieldIndex)
            | None => idx
            end
      | None => idx
      end
  | None => idx
  end.

Definition RemoveFromIndex (bucketName key : string) (entity : Entity) (idx : Index)
  : Index :=
  match idx !! bucketName with
  | None => idx
  | Some _ =>
      fold_left (removeField bucketName key (GetFieldMatcher entity) entity) entity idx
  end.

(** [GetIndexedKeys]: [Returns (Some keys)] for [(keys, true)],
    [Returns None] for [(nil, false)].  The lookup [fieldIndex[value]] panics
    ("hash of unhashable type") when [value] cannot be a map key. *)
Definition GetIndexedKeys (idx : Index) (bucketName field : string) (value : Value)
  : outcome (option (list string)) :=
  match idx !! bucketName with
  | None => Returns None
  | Some bucketIndex =>
      match bucketIndex !! field with
      | None => Returns None
      | Some fieldIndex =>
          if canBeKey value then Returns (fieldIndex !! value) else Panics
      end
  end.

Definition HasIndex (idx : Index) (bucketName : string) : bool :=
  bool_decide (is_Some (idx !! bucketName)).

(** The per-field map [bucketIndexes[bucketName][fieldName]], when both the
    bucket and the field have one. *)
Definition fieldIndexOf (idx : Index) (bucketName fieldName : string)
  : option (gmap Value (list string)) :=
  idx !! bucketName ≫= fun bucketIndex => bucketIndex !! fieldName.

(** The key list stored for a field value, when there is one. *)
Definition keysOf (idx : Index) (bucketName fieldName : string) (value : Value)
  : option (list string) :=
  fieldIndexOf idx bucketName fieldName ≫= fun fieldIndex => fieldIndex !! value.

(** [n] and [v] are a field name and the hashable value [UpdateIndex] files
    the record under: [n] is the index name of a field of [e], and the field
    matcher of [e] resolves [n] to [v]. *)
Definition indexed (e : Entity) (n : string) (v : Value) : Prop :=
  n ∈ (indexName <$> e) /\
  GetFieldValue (GetFieldMatcher e) e n = Some v /\
  isHashable v = true.

(** The state invariant of the index: no key list holds a key twice. *)
Definition wf (idx : Index) : Prop :=
  forall b n v keys, keysOf idx b n v = Some keys -> NoDup keys.

(** The shapes [isTypeHashable] rejects: slices, maps, functions, interfaces
    and channels, and pointers, arrays and structs that contain one. *)
Inductive unhashableShape : GoType -> Prop :=
  | unh_slice e : unhashableShape (TSlice e)
  | unh_map k e : unhashableShape (TMap k e)
  | unh_func : unhashableShape TFunc
  | unh_interface : unhashableShape TInterface
  | unh_chan e : unhashableShape (TChan e)
  | unh_ptr e : unhashableShape e -> unhashableShape (TPtr e)
  | unh_array n e : unhashableShape e -> unhashableShape (TArray n e)
  | unh_struct fs f : f ∈ fs -> unhashableShape f -> unhashableShape (TStruct fs).

(** [keys] with [key] appended unless it is already there. *)
Definition addKey (key : string) (keys : list string) : list string :=
  if decide (key ∈ keys) then keys else keys ++ [key].

(** What one iteration of [UpdateIndex] does to the map of its field, given
    the value the matcher resolves for that field. *)
Definition updEntry (key : string) (val : option Value)
    (old : gmap Value (list string)) : gmap Value (list string) :=
  match val with
  | Some v =>
      if isHashable v then <[v := addKey key (default [] (old !! v))]> old else old
  | None => old
  end.

(** A key list after pruning: no entry is kept for an empty list. *)
Definition pruned (key : string) (keys : list string) : option (list string) :=
  if decide (length (removeKey key keys) = 0%nat) then None
  else Some (removeKey key keys).

(** What one iteration of [RemoveFromIndex] does to the map of its field. *)
Definition remEntry (key : string) (val : option Value)
    (old : gmap Value (list string)) : gmap Value (list string) :=
  match val with
  | Some v =>
      if isHashable v then
        match old !! v with
        | Some keys =>
            if decide (length (removeKey key keys) = 0%nat) then delete v old
            else <[v := removeKey key keys]> old
        | None => old
        end
      else old
  | None => old
  end.

(** The field maps in which no key list holds a key twice. *)
Definition NoDupLists (m : gmap Value (list string)) : Prop :=
  forall v keys, m !! v = Some keys -> NoDup keys.

#[global] Instance indexed_dec e n v : Decision (indexed e n v).
Proof. unfold indexed. apply _. Defined.

(** The two maps of the matcher are built alike: from the key a field
    contributes, if any, to the position of the last field contributing
    it. *)
Fixpoint buildMap (keyOf : Field → option string) (i : nat) (fs : list Field)
    (m : gmap string nat) : gmap string nat :=
  match fs with
  | [] => m
  | f :: fs' =>
      buildMap keyOf (S i) fs'
        (match keyOf f with Some k => <[k := i]> m | None => m end)
  end.

(** The indexes the program can build: from the empty index, by saving and
    deleting records. *)
Inductive reachable : Index -> Prop :=
  | reach_empty : reachable ∅
  | reach_update b key e idx : reachable idx -> reachable (UpdateIndex b key e idx)
  | reach_remove b key e idx : reachable idx -> reachable (RemoveFromIndex b key e idx).

(** ** Package [bucket]: [FindWhereInDatabase] ([src/unnamed/part_001]) *)

(** The loop of [intersectStringSlices] over the shorter slice, [bMap]
    holding the elements of the longer one not matched yet. *)
Fixpoint intersectLoop (a : list string) (bMap : gset string) : list string :=
  match a with
  | [] => []
  | item :: a' =>
      if decide (item ∈ bMap)
      then item :: intersectLoop a' (bMap ∖ {[item]})
      else intersectLoop a' bMap
  end.

Definition intersectStringSlices (a b : list string) : list string :=
  if (length a =? 0)%nat || (length b =? 0)%nat then []
  else
    let '(a, b) := if (length b <? length a)%nat then (b, a) else (a, b) in
    intersectLoop a (list_to_set b).

(** The equality criteria of a query, in the order the [range] over the
    criteria map happens to visit them; field names are distinct. *)
Abbreviation Criteria := (list (string * Value)).

(** How the loop over several criteria ends: by the early
    [return []interface{}{}, nil] on an empty intersection, or by leaving
    the loop with [candidateKeys] ([None] for the nil slice set before
    [break]). *)
Inductive probeEnd :=
  | EarlyEmpty
  | Candidates (candidateKeys : option (list string)).

Fixpoint probeAll (idx : Index) (bucketName : string) (criteria : Criteria)
    (candidateKeys : option (list string)) (firstField : bool)
  : outcome probeEnd :=
  match criteria with
  | [] => Returns (Candidates candidateKeys)
  | (field, value) :: rest =>
      match GetIndexedKeys idx bucketName field value with
      | Panics => Panics
      | Returns (Some keys) =>
          if firstField then probeAll idx bucketName rest (Some keys) false
          else
            let c := intersectStringSlices (default [] candidateKeys) keys in
            if (length c =? 0)%nat then Returns EarlyEmpty
            else probeAll idx bucketName rest (Some c) false
      | Returns None => Returns (Candidates None)
      end
  end.

(** What the index part of [FindWhereInDatabase] decides: the keys to fetch,
    or to go on to the scan. *)
Inductive Plan :=
  | ByKeys (keys : list string)
  | ByScan.

Definition planQuery (idx : Index) (bucketName : string) (criteria : Criteria)
  : outcome Plan :=
  if HasIndex idx bucketName then
    match criteria with
    | [] => Returns ByScan
    | [(field, value)] =>
        match GetIndexedKeys idx bucketName field value with
        | Panics => Panics
        | Returns (Some keys) => Returns (ByKeys keys)
        | Returns None => Returns ByScan
        end
    | _ =>
        match probeAll idx bucketName criteria None true with
        | Panics => Panics
        | Returns EarlyEmpty => Returns (ByKeys [])
        | Returns (Candidates (Some candidateKeys)) => Returns (ByKeys candidateKeys)
        | Returns (Candidates None) => Returns ByScan
        end
    end
  else Returns ByScan.

(** The store as the query path uses it: [dbGet bucket key] is the record
    [db.Get] decodes into the fresh entity when it returns no error, and
    [dbForEach bucket] the values [db.ForEach] passes to its callback, in
    iteration order. *)
Record DB := {
  dbGet : string -> string -> option Entity;
  dbForEach : string -> list (list byte)
}.

(** [for _, key := range keys { if db.Get(...) == nil { append } }]. *)
Definition fetchAll (db : DB) (bucketName : string) (keys : list string)
  : list Entity :=
  omap (dbGet db bucketName) keys.

(** [reflection.MatchesCriteria]; [reflect.DeepEqual] on two values is their
    equality. *)
Definition MatchesCriteria (entity : Entity) (criteria : Criteria)
    (matcher : FieldMatcher) : bool :=
  forallb (fun c : string * Value =>
             match GetFieldValue matcher entity c.1 with
             | Some fieldValue => bool_decide (fieldValue = c.2)
             | None => false
             end) criteria.

(** *** The scan

    The scan runs a producer goroutine, a pool of workers, a goroutine that
    waits for the workers, and the collector.  The goroutines share the
    work channel, of capacity [numWorkers*2], and the result channel, of
    capacity [numWorkers].  What the scheduler and the clocks decide is
    given from outside, as the list of the events that take place before
    the collector returns.  A turn of a worker's loop is one event: how
    long the worker takes over a value shows in when its next turn
    comes. *)

Inductive Event :=
  | Send                (* [workChan <- dataCopy] in the callback completes *)
  | SendTimeout         (* the callback's [time.After] fires first *)
  | CloseWork           (* [db.ForEach] has returned: the deferred [close(workChan)] *)
  | Receive (w : nat)   (* worker [w] takes a value off [workChan] and handles it *)
  | Deliver (w : nat)   (* worker [w] leaves its loop and sends its batch *)
  | CloseResults        (* [wg.Wait()] returns: [close(resultChan)] *)
  | Collect.            (* the collector receives a batch *)

#[global] Instance Event_eq_dec : EqDecision Event.
Proof. solve_decision. Defined.

(** The state the goroutines share.  [pending] holds the values [db.ForEach]
    has yet to pass to the callback and [forEachError] the error the
    callback has returned; a channel is the list of the values in its
    buffer, oldest first; [localResults] holds, for every worker,
    [Some localResults] while the worker runs and [None] once it has sent
    its batch and called [wg.Done()]. *)
Record Scan := mkScan {
  pending : list (list byte);
  forEachError : option string;
  workChan : list (list byte);
  workChanClosed : bool;
  localResults : list (option (list Entity));
  resultChan : list (list Entity);
  resultChanClosed : bool;
  results : list Entity
}.

(** The [select] of the callback on the next value.  The send completes
    when the buffer has room; the timer can fire first only while the
    buffer is full, and then the callback returns its error, which ends the
    iteration of [db.ForEach]. *)
Definition produce (capacity : nat) (timerFires : bool) (s : Scan) : Scan :=
  match pending s with
  | [] => s
  | v :: rest =>
      if (length (workChan s) <? capacity)%nat then
        if timerFires then s
        else mkScan rest (forEachError s) (workChan s ++ [v]) (workChanClosed s)
               (localResults s) (resultChan s) (resultChanClosed s) (results s)
      else
        if timerFires then
          mkScan [] (Some "timeout writing to work channel"%string) (workChan s)
            (workChanClosed s) (localResults s) (resultChan s)
            (resultChanClosed s) (results s)
        else s
  end.

(** [defer close(workChan)] of the producer goroutine, once [db.ForEach] has
    returned. *)
Definition closeWork (s : Scan) : Scan :=
  match pending s with
  | [] => mkScan [] (forEachError s) (workChan s) true (localResults s)
            (resultChan s) (resultChanClosed s) (results s)
  | _ :: _ => s
  end.

(** The goroutine [wg.Wait(); close(resultChan)]: the wait ends when every
    worker has called [wg.Done()]. *)
Definition closeResults (s : Scan) : Scan :=
  if forallb (fun l : option (list Entity) =>
                match l with None => true | Some _ => false end) (localResults s)
  then mkScan (pending s) (forEachError s) (workChan s) (workChanClosed s)
         (localResults s) (resultChan s) true (results s)
  else s.

(** [results = append(results, localResults...)] of the collector. *)
Definition collectBatch (s : Scan) : Scan :=
  match resultChan s with
  | [] => s
  | batch :: rest =>
      mkScan (pending s) (forEachError s) (workChan s) (workChanClosed s)
        (localResults s) rest (resultChanClosed s) (results s ++ batch)
  end.

(** [numWorkers := runtime.NumCPU(); if numWorkers > 6 { numWorkers = 6 }]. *)
Definition numWorkers (numCPU : nat) : nat :=
  if (6 <? numCPU)%nat then 6%nat else numCPU.

(** The state in which the goroutines start. *)
Definition startScan (values : list (list byte)) (workers : nat) : Scan :=
  mkScan values None [] false (replicate workers (Some [])) [] false [].

Section Scan.
Context (lib : Codecs).
(** [constructor()] followed by the JSON decoding into it; [None] when the
    decoder reports an error. *)
Context (jsonDecode : list byte -> option Entity).

(** The body of the [for data := range workChan] loop of a worker: the
    record to append to the local results, if any. *)
Definition worker (criteria : Criteria) (matcher : FieldMatcher)
    (data : list byte) : outcome (option Entity) :=
  match data with
  | [] => Returns None
  | tag :: rest =>
      let actualData :=
        if (Byte.to_N tag =? 0) || (Byte.to_N tag =? 1) then
          if Byte.to_N tag =? 1 then
            match gzip_Reader lib rest with
            | Some decoded => Returns decoded
            | None => Returns data
            end
          else Returns rest
        else compression.DecompressData lib data in
      match actualData with
      | Panics => Panics
      | Returns actualData =>
          match jsonDecode actualData with
          | None => Returns None
          | Some entity =>
              if MatchesCriteria entity criteria matcher
              then Returns (Some entity) else Returns None
          end
      end
  end.

(** One turn of the loop [for data := range workChan] of worker [w]. *)
Definition receive (criteria : Criteria) (matcher : FieldMatcher) (w : nat)
    (s : Scan) : outcome Scan :=
  match localResults s !! w, workChan s with
  | Some (Some localResults_w), data :: rest =>
      match worker criteria matcher data with
      | Panics => Panics
      | Returns r =>
          Returns (mkScan (pending s) (forEachError s) rest (workChanClosed s)
                     (<[w := Some (localResults_w ++ option_list r)]> (localResults s))
                     (resultChan s) (resultChanClosed s) (results s))
      end
  | _, _ => Returns s
  end.

(** The end of the loop of worker [w], when [workChan] is closed and empty:
    the worker sends its batch (a send that finds room, every worker
    sending once) and calls [wg.Done()]. *)
Definition deliver (w : nat) (s : Scan) : Scan :=
  match localResults s !! w, workChan s with
  | Some (Some localResults_w), [] =>
      if workChanClosed s then
        mkScan (pending s) (forEachError s) [] true
          (<[w := None]> (localResults s)) (resultChan s ++ [localResults_w])
          (resultChanClosed s) (results s)
      else s
  | _, _ => s
  end.

(** An event that cannot take place in the state it meets changes
    nothing. *)
Definition step (capacity : nat) (criteria : Criteria) (matcher : FieldMatcher)
    (s : Scan) (ev : Event) : outcome Scan :=
  match ev with
  | Send => Returns (produce capacity false s)
  | SendTimeout => Returns (produce capacity true s)
  | CloseWork => Returns (closeWork s)
  | Receive w => receive criteria matcher w s
  | Deliver w => Returns (deliver w s)
  | CloseResults => Returns (closeResults s)
  | Collect => Returns (collectBatch s)
  end.

Fixpoint runScan (capacity : nat) (criteria : Criteria) (matcher : FieldMatcher)
    (schedule : list Event) (s : Scan) : outcome Scan :=
  match schedule with
  | [] => Returns s
  | ev :: schedule' =>
      match step capacity criteria matcher s ev with
      | Panics => Panics
      | Returns s' => runScan capacity criteria matcher schedule' s'
      end
  end.

(** The scan part of [FindWhereInDatabase]: the pair [(results, err)] it
    returns with [workers] workers after the events of [schedule].  The
    collector returns its
    results when it finds the result channel closed and empty; in any other
    state it is its timer that makes it return.  The producer goroutine
    calls [db.ForEach] as a statement, so the error of a timed-out handoff
    goes nowhere. *)
Definition scanBucket (db : DB) (bucketName : string) (criteria : Criteria)
    (matcher : FieldMatcher) (workers : nat) (schedule : list Event)
  : outcome (list Entity * option string) :=
  match runScan (workers * 2) criteria matcher schedule
          (startScan (dbForEach db bucketName) workers) with
  | Panics => Panics
  | Returns s =>
      match resultChanClosed s, resultChan s with
      | true, [] => Returns (results s, None)
      | _, _ => Returns ([], Some "timeout waiting for results"%string)
      end
  end.

(** [FindWhereInDatabase], once the database handle has been obtained.
    [sample] is the entity [constructor()] returns, whose type gives the
    field matcher of the scan, and [numCPU] what [runtime.NumCPU()]
    returns. *)
Definition FindWhereInDatabase (db : DB) (idx : Index) (bucketName : string)
    (criteria : Criteria) (sample : Entity)
    (numCPU : nat) (schedule : list Event)
  : outcome (list Entity * option string) :=
  match planQuery idx bucketName criteria with
  | Panics => Panics
  | Returns (ByKeys keys) => Returns (fetchAll db bucketName keys, None)
  | Returns ByScan =>
      scanBucket db bucketName criteria (GetFieldMatcher sample)
        (numWorkers numCPU) schedule
  end.
End Scan.

(** *** [bucket/bucket_main.go]

    The other copy of [FindWhereInDatabase] asks the index for queries with
    exactly one criterion only; its four workers, its producer and its
    collector do what those above do, with a per-item timer of 5 s and an
    overall one of 30 s. *)
Module bucket_main.
Section Scan.
Context (lib : Codecs).
Context (jsonDecode : list byte -> option Entity).

(** [const numWorkers = 4]. *)
Definition numWorkers : nat := 4.

Definition planQuery (idx : Index) (bucketName : string) (criteria : Criteria)
  : outcome Plan :=
  if HasIndex idx bucketName && (length criteria =? 1)%nat then
    match criteria with
    | (field, value) :: _ =>
        match GetIndexedKeys idx bucketName field value with
        | Panics => Panics
        | Returns (Some keys) => Returns (ByKeys keys)
        | Returns None => Returns ByScan
        end
    | [] => Returns ByScan
    end
  else Returns ByScan.

Definition FindWhereInDatabase (db : DB) (idx : Index) (bucketName : string)
    (criteria : Criteria) (sample : Entity) (schedule : list Event)
  : outcome (list Entity * option string) :=
  match planQuery idx bucketName criteria with
  | Panics => Panics
  | Returns (ByKeys keys) => Returns (fetchAll db bucketName keys, None)
  | Returns ByScan =>
      scanBucket lib jsonDecode db bucketName criteria (GetFieldMatcher sample)
        numWorkers schedule
  end.
End Scan.
End bucket_main.

(** The probe of criterion [c] reports found, with key list [keys]. *)
Definition found (idx : Index) (bucketName : string) (c : string * Value)
    (keys : list string) : Prop :=
  GetIndexedKeys idx bucketName c.1 c.2 = Returns (Some keys).

(** [k] is in every one of the key lists. *)
Definition inAll (keysets : list (list string)) (k : string) : Prop :=
  Forall (fun keys => k ∈ keys) keysets.

(** *** Sample data *)

Definition intV (z : Z) : Value := Val (TBasic Int) (DNum z).
Definition strV (s : string) : Value := Val (TBasic String) (DStr s).

Definition recA : Entity := [mkField "X" "x" (intV 1); mkField "Y" "y" (intV 2)].
Definition recB : Entity := [mkField "X" "x" (intV 1); mkField "Y" "y" (intV 3)].
Definition recD : Entity := [mkField "X" "x" (intV 2); mkField "Y" "y" (intV 2)].

(** The index after saving [A:{x:1,y:2}] and [B:{x:1,y:3}]. *)
Definition idxAB : Index :=
  UpdateIndex "items" "B" recB (UpdateIndex "items" "A" recA ∅).

(** The index after saving [B:{x:1,y:3}] and [D:{x:2,y:2}]. *)
Definition idxBD : Index :=
  UpdateIndex "items" "D" recD (UpdateIndex "items" "B" recB ∅).

Definition dbAB : DB :=
  {| dbGet := fun bucketName key =>
       if decide (bucketName = "items"%string) then
         if decide (key = "A"%string) then Some recA
         else if decide (key = "B"%string) then Some recB
         else None
       else None;
     dbForEach := fun _ => [] |}.

(** A record with a slice-typed field, and the value of that field. *)
Definition tagsV : Value := Val (TSlice (TBasic String)) (DSeq [DStr "a"]).
Definition post : Entity :=
  [mkField "Title" "title" (strV "hello"); mkField "Tags" "tags,omitempty" tagsV].

(** Two stored values and a decoder that knows them. *)
Definition rawA : list byte := [x7b; x41; x7d].
Definition rawB : list byte := [x7b; x42; x7d].
Definition jsonAB (data : list byte) : option Entity :=
  if decide (data = rawA) then Some recA
  else if decide (data = rawB) then Some recB
  else None.
Definition dbScanAB : DB :=
  {| dbGet := dbGet dbAB; dbForEach := fun _ => [rawA; rawB] |}.


(** A bucket of nineteen values, more than the workers hold and the work
    channel buffers with any number of workers, each decoding to the record
    [A]. *)
Definition dbScan19 : DB :=
  {| dbGet := dbGet dbAB; dbForEach := fun _ => replicate 19 rawA |}.

(** A run with slow workers: every worker takes a value, the producer fills
    the buffer of the work channel again, and no worker comes back for
    another value before the timer of the next handoff fires; the first
    worker then handles what the buffer holds. *)
Definition slowWorkers (workers : nat) : list Event :=
  replicate (workers * 2) Send ++ (Receive <$> seq 0 workers) ++
  replicate workers Send ++ [SendTimeout; CloseWork] ++
  replicate (workers * 2) (Receive 0) ++ (Deliver <$> seq 0 workers) ++
  [CloseResults] ++ replicate workers Collect.

(** A run in which the first worker takes each of [n] values as soon as it
    is sent. *)
Definition inTurn (n workers : nat) : list Event :=
  concat (replicate n [Send; Receive 0]) ++ [CloseWork] ++
  (Deliver <$> seq 0 workers) ++ [CloseResults] ++
  replicate workers Collect.

(** A run in which two workers take the values of a bucket of two in turn,
    and the second worker is the first to deliver. *)
Definition secondFirst : list Event :=
  [Send; Send; CloseWork; Receive 0; Receive 1; Deliver 1; Deliver 0;
   CloseResults; Collect; Collect].

(** ** [internal/indexing] over values that may hold a NaN

    A floating-point NaN differs from itself, and so does an array or a
    struct that holds one.  Such a value is of a type [isTypeHashable]
    accepts, and the runtime can hash it; but as a key of a map it is equal
    to no key, its own included: an assignment under it adds an entry every
    time, and no lookup and no [delete] finds an entry under it.  The
    values above leave these out.  This module adds them and renders
    [UpdateIndex], [RemoveFromIndex] and [GetIndexedKeys] over them. *)
Module floats.

(** An interface value: one equal to itself, as above, or a value of
    dynamic type [t] that holds a NaN.  What else the second holds plays no
    part, no comparison with it being true. *)
Inductive FValue :=
  | Plain (v : Value)
  | WithNaN (t : GoType).

Record FField := mkFField {
  fName : string;
  fTag : string;
  fValue : FValue
}.

(** The field as the values above render it: a value that holds a NaN
    becomes one of unhashable type.  Name and tag, all that the tag parsing
    and the field matcher read, are kept. *)
Definition erase (f : FField) : Field :=
  mkField (fName f) (fTag f)
    match fValue f with
    | Plain v => v
    | WithNaN t => Val (TSlice t) (DSeq [])
    end.

Definition isHashable (v : FValue) : bool :=
  match v with
  | Plain v => isHashable v
  | WithNaN t => isTypeHashable t
  end.

Definition canBeKey (v : FValue) : bool :=
  match v with
  | Plain v => canBeKey v
  | WithNaN t => comparable t
  end.

(** A [map[interface{}][]string]: the entries under the keys equal to
    themselves, and the entries under keys that hold a NaN, oldest
    first. *)
Record FieldIndex := mkFieldIndex {
  byValue : gmap Value (list string);
  underNaN : list (list string)
}.

(** [make(map[interface{}][]string)]. *)
Definition noEntries : FieldIndex := mkFieldIndex ∅ [].

(** [m[k]], [m[k] = keys] and [delete(m, k)]. *)
Definition mapGet (m : FieldIndex) (k : FValue) : option (list string) :=
  match k with
  | Plain v => byValue m !! v
  | WithNaN _ => None
  end.

Definition mapSet (k : FValue) (keys : list string) (m : FieldIndex) : FieldIndex :=
  match k with
  | Plain v => mkFieldIndex (<[v := keys]> (byValue m)) (underNaN m)
  | WithNaN _ => mkFieldIndex (byValue m) (underNaN m ++ [keys])
  end.

Definition mapDelete (k : FValue) (m : FieldIndex) : FieldIndex :=
  match k with
  | Plain v => mkFieldIndex (delete v (byValue m)) (underNaN m)
  | WithNaN _ => m
  end.

Abbreviation Index := (gmap string (gmap string FieldIndex)).

Definition bucketOf (idx : Index) (bucketName : string) : gmap string FieldIndex :=
  default ∅ (idx !! bucketName).

Definition setFieldIndex (idx : Index) (bucketName fieldName : string)
    (m : FieldIndex) : Index :=
  <[bucketName := <[fieldName := m]> (bucketOf idx bucketName)]> idx.

Definition GetFieldValue (fm : FieldMatcher) (entityValue : list FField)
    (key : string) : option FValue :=
  match JsonMap fm !! key with
  | Some idx => fValue <$> entityValue !! idx
  | None =>
      match FieldMap fm !! key with
      | Some idx => fValue <$> entityValue !! idx
      | None => None
      end
  end.

(** One iteration of the loop of [UpdateIndex]. *)
Definition updateField (bucketName key : string) (matcher : FieldMatcher)
    (entityValue : list FField) (idx : Index) (field : FField) : Index :=
  let fieldName := indexName (erase field) in
  let idx :=
    match bucketOf idx bucketName !! fieldName with
    | Some _ => idx
    | None => setFieldIndex idx bucketName fieldName noEntries
    end in
  match GetFieldValue matcher entityValue fieldName with
  | Some fieldValue =>
      if negb (isHashable fieldValue) then idx
      else
        let fieldIndex := default noEntries (bucketOf idx bucketName !! fieldName) in
        let keys := default [] (mapGet fieldIndex fieldValue) in
        if decide (key ∈ keys) then idx
        else setFieldIndex idx bucketName fieldName
               (mapSet fieldValue (keys ++ [key]) fieldIndex)
  | None => idx
  end.

Definition UpdateIndex (bucketName key : string) (entity : list FField) (idx : Index)
  : Index :=
  let idx :=
    match idx !! bucketName with
    | Some _ => idx
    | None => <[bucketName := ∅]> idx
    end in
  fold_left (updateField bucketName key (GetFieldMatcher (erase <$> entity)) entity)
    entity idx.

(** One iteration of the loop of [RemoveFromIndex]. *)
Definition removeField (bucketName key : string) (matcher : FieldMatcher)
    (entityValue : list FField) (idx : Index) (field : FField) : Index :=
  let fieldName := indexName (erase field) in
  match bucketOf idx bucketName !! fieldName with
  | Some fieldIndex =>
      match GetFieldValue matcher entityValue fieldName with
      | Some fieldValue =>
          if negb (isHashable fieldValue) then idx
          else
            match mapGet fieldIndex fieldValue with
            | Some keys =>
                let keys' := removeKey key keys in
                if decide (length keys' = 0%nat)
                then setFieldIndex idx bucketName fieldName
                       (mapDelete fieldValue fieldIndex)
                else setFieldIndex idx bucketName fieldName
                       (mapSet fieldValue keys' fieldIndex)
            | None => idx
            end
      | None => idx
      end
  | None => idx
  end.

Definition RemoveFromIndex (bucketName key : string) (entity : list FField)
    (idx : Index) : Index :=
  match idx !! bucketName with
  | None => idx
  | Some _ =>
      fold_left (removeField bucketName key (GetFieldMatcher (erase <$> entity)) entity)
        entity idx
  end.

Definition GetIndexedKeys (idx : Index) (bucketName field : string) (value : FValue)
  : outcome (option (list string)) :=
  match idx !! bucketName with
  | None => Returns None
  | Some bucketIndex =>
      match bucketIndex !! field with
      | None => Returns None
      | Some fieldIndex =>
          if canBeKey value then Returns (mapGet fieldIndex value) else Panics
      end
  end.

(** [n] is the index name of a field of [e], and the field matcher resolves
    it to the hashable value [v]. *)
Definition indexed (e : list FField) (n : string) (v : FValue) : Prop :=
  n ∈ (indexName ∘ erase <$> e) /\
  GetFieldValue (GetFieldMatcher (erase <$> e)) e n = Some v /\
  isHashable v = true.

(** The entries a lookup can reach: the index as rendered above. *)
Definition plainIndex (idx : Index)
  : gmap string (gmap string (gmap Value (list string))) :=
  (fun bucketIndex : gmap string FieldIndex => byValue <$> bucketIndex) <$> idx.

(** The indexes the program can build. *)
Inductive reachable : Index -> Prop :=
  | reach_empty : reachable ∅
  | reach_update b key e idx : reachable idx -> reachable (UpdateIndex b key e idx)
  | reach_remove b key e idx : reachable idx -> reachable (RemoveFromIndex b key e idx).

(** A record with a reading that is a NaN. *)
Definition nanV : FValue := WithNaN (TBasic Float64).
Definition reading : list FField :=
  [mkFField "Sensor" "sensor" (Plain (strV "s1")); mkFField "Level" "level" nanV].

End floats.
(** ** More of [internal/reflection] *)

(** What a key of a query stands for in a record: the last field whose alias
    is the key, and failing that the last field whose name is the key. *)
Definition resolveField (e : Entity) (key : string) : option Field :=
  match last (filter (fun f => jsonAlias f = Some key) e) with
  | Some f => Some f
  | None => last (filter (fun f => Name f = key) e)
  end.

(** The position of the last field of [fs] that contributes the key [k]. *)
Fixpoint lastIndex (keyOf : Field → option string) (k : string) (fs : list Field)
  : option nat :=
  match fs with
  | [] => None
  | f :: fs' =>
      match lastIndex keyOf k fs' with
      | Some j => Some (S j)
      | None => if decide (keyOf f = Some k) then Some 0%nat else None
      end
  end.

(** *** [package reflection], the variant with [sync.Map] caches
    ([src/unnamed/part_003]) *)
Module reflection_part_003.

(** [a != b] on two interface values: values of different dynamic types
    differ, and comparing two values of one dynamic type that is not
    comparable panics. *)
Definition interfaceNotEqual (a b : Value) : outcome bool :=
  match a, b with
  | Nil, Nil => Returns false
  | Val ta da, Val tb db =>
      if decide (ta = tb) then
        if comparable ta then Returns (negb (bool_decide (da = db))) else Panics
      else Returns true
  | _, _ => Returns true
  end.

Fixpoint MatchesCriteria (entity : Entity) (criteria : Criteria)
    (matcher : FieldMatcher) : outcome bool :=
  match criteria with
  | [] => Returns true
  | (key, expectedValue) :: rest =>
      let found :=
        match JsonMap matcher !! key with
        | Some idx => fieldValue <$> entity !! idx
        | None =>
            match FieldMap matcher !! key with
            | Some idx => fieldValue <$> entity !! idx
            | None => None
            end
        end in
      match found with
      | None => Returns false
      | Some fieldValue =>
          match interfaceNotEqual fieldValue expectedValue with
          | Panics => Panics
          | Returns true =>
              if negb (bool_decide (fieldValue = expectedValue)) then Returns false
              else MatchesCriteria entity rest matcher
          | Returns false => MatchesCriteria entity rest matcher
          end
      end
  end.

End reflection_part_003.

(** ** More of [internal/indexing] and of the query path *)

(** The index after the saves [saves], oldest first, of records of the
    bucket [bucketName]. *)
Definition indexAfter (bucketName : string) (saves : list (string * Entity))
    (idx : Index) : Index :=
  fold_left (fun idx s => UpdateIndex bucketName s.1 s.2 idx) saves idx.

(** No key list of the index is empty. *)
Definition noEmptyLists (idx : Index) : Prop :=
  forall b n v, keysOf idx b n v ≠ Some [].

(** The index of bucket [b] lists [key] nowhere. *)
Definition freshKey (idx : Index) (b key : string) : Prop :=
  forall n v keys, keysOf idx b n v = Some keys -> key ∉ keys.

(** The key list the index holds for a criterion, empty when it holds
    none. *)
Definition listedUnder (idx : Index) (b : string) (c : string * Value) : list string :=
  default [] (keysOf idx b c.1 c.2).

(** Data without a frame tag: the first byte is above the tags and is not
    the first byte of the gzip magic number. *)
Definition untagged (data : list byte) : bool :=
  match data with
  | b0 :: _ => (4 <? Byte.to_N b0) && negb (Byte.to_N b0 =? 31)
  | [] => false
  end.

(** ** The key-value store: [go.etcd.io/bbolt] as the repository uses it

    A database holds named buckets and a bucket maps keys to values; the
    repository nests no bucket in another.  Cursors and [ForEach] visit
    keys in byte order.  Failures of the file system are left out: a
    transaction whose function returns nil commits. *)
Module bolt.

Abbreviation Bucket := (gmap string (list byte)).
Abbreviation Buckets := (gmap string Bucket).

Inductive Error :=
  | ErrDatabaseNotOpen
  | ErrBucketNotFound
  | ErrBucketExists
  | ErrBucketNameRequired
  | ErrKeyRequired
  | ErrKeyTooLarge
  | ErrValueTooLarge.

(** The method [Error()] of these errors. *)
Definition Error_text (err : Error) : string :=
  match err with
  | ErrDatabaseNotOpen => "database not open"
  | ErrBucketNotFound => "bucket not found"
  | ErrBucketExists => "bucket already exists"
  | ErrBucketNameRequired => "bucket name required"
  | ErrKeyRequired => "key required"
  | ErrKeyTooLarge => "key too large"
  | ErrValueTooLarge => "value too large"
  end.

Definition MaxKeySize : N := 32768.
Definition MaxValueSize : N := 2147483646.

(** Byte order on keys. *)
Definition keyLE (a b : string) : Prop := String.leb a b = true.

#[global] Instance keyLE_dec a b : Decision (keyLE a b).
Proof. unfold keyLE. apply _. Defined.

Definition entryLE {A} (x y : string * A) : Prop := keyLE x.1 y.1.

#[global] Instance entryLE_dec {A} (x y : string * A) : Decision (entryLE x y).
Proof. unfold entryLE. apply _. Defined.

(** The entries of a bucket, or the buckets of a database, in the order
    [ForEach] visits them. *)
Definition entries {A} (m : gmap string A) : list (string * A) :=
  merge_sort entryLE (map_to_list m).

Definition CreateBucket (tx : Buckets) (name : string) : Buckets + Error :=
  if decide (name = EmptyString) then inr ErrBucketNameRequired
  else
    match tx !! name with
    | Some _ => inr ErrBucketExists
    | None => inl (<[name := ∅]> tx)
    end.

Definition CreateBucketIfNotExists (tx : Buckets) (name : string) : Buckets + Error :=
  match CreateBucket tx name with
  | inr ErrBucketExists => inl tx
  | r => r
  end.

Definition DeleteBucket (tx : Buckets) (name : string) : Buckets + Error :=
  match tx !! name with
  | Some _ => inl (delete name tx)
  | None => inr ErrBucketNotFound
  end.

(** [Bucket.Put]. *)
Definition Put (b : Bucket) (key : string) (value : list byte) : Bucket + Error :=
  if decide (key = EmptyString) then inr ErrKeyRequired
  else if MaxKeySize <? N.of_nat (String.length key) then inr ErrKeyTooLarge
  else if MaxValueSize <? N.of_nat (length value) then inr ErrValueTooLarge
  else inl (<[key := value]> b).

(** [Bucket.Delete]: a key that is not there is no error. *)
Definition Delete (b : Bucket) (key : string) : Bucket := delete key b.

(** [db.Update(fn)]: the changes of [fn] are kept when it returns nil and
    dropped when it returns an error. *)
Definition Update {E} (db : Buckets) (fn : Buckets → Buckets * option E)
  : Buckets * option E :=
  let '(tx, err) := fn db in
  match err with
  | Some e => (db, Some e)
  | None => (tx, None)
  end.

(** What the store itself guarantees of its contents: names and keys are
    not empty, and keys and values are within the size limits. *)
Definition valid (db : Buckets) : Prop :=
  forall name b, db !! name = Some b ->
    name ≠ EmptyString /\
    forall k v, b !! k = Some v ->
      k ≠ EmptyString /\
      N.of_nat (String.length k) ≤ MaxKeySize /\
      N.of_nat (length v) ≤ MaxValueSize.

End bolt.

(** ** Errors ([errors/errors.go], [errors.New], [fmt.Errorf]) *)
Inductive error :=
  | ErrNotFound
  | ErrBucketMissing
  | ErrInvalidData
  | ErrNilValue
  | ErrDatabaseNotFound
  | ErrDatabaseExists
  | ErrNoDefaultDatabase
  | errorNew (text : string)                 (* [errors.New], [fmt.Errorf] without [%w] *)
  | errorWrap (text : string) (err : error)  (* [fmt.Errorf("text: %w", err)] *)
  | boltError (err : bolt.Error)
  | jsonError.                               (* an error of [js.Marshal] or [js.Unmarshal] *)

#[global] Instance bolt_Error_eq_dec : EqDecision bolt.Error.
Proof. solve_decision. Defined.

#[global] Instance error_eq_dec : EqDecision error.
Proof. solve_decision. Defined.

#[global] Instance Field_eq_dec : EqDecision Field.
Proof. solve_decision. Defined.

(** ** Package [database]: the methods of [DB]
    ([bucket/bucket_main.go], second part, and [database/manager.go]) *)
Module database.

(** What [Get] leaves behind: the target after decoding, and whether the
    goroutine that stores the record again was started, or the error. *)
Inductive getResult :=
  | Got (target : Entity) (needsMigration : bool)
  | Failed (err : error).

Section WithCodecs.
Context (lib : Codecs).
(** [js.Marshal(value)], [None] for an error. *)
Context (Marshal : Entity → option (list byte)).
(** [js.Unmarshal(data, target)]: the target after decoding, [None] for an
    error. *)
Context (Unmarshal : list byte → Entity → option Entity).

Definition CreateBucket (db : bolt.Buckets) (bucketName : string)
  : bolt.Buckets * option error :=
  bolt.Update db (fun tx =>
    match bolt.CreateBucketIfNotExists tx bucketName with
    | inl tx' => (tx', None)
    | inr err => (tx, Some (errorWrap ("create bucket " +:+ bucketName) (boltError err)))
    end).

Definition DeleteBucket (db : bolt.Buckets) (bucketName : string)
  : bolt.Buckets * option error :=
  bolt.Update db (fun tx =>
    match bolt.DeleteBucket tx bucketName with
    | inl tx' => (tx', None)
    | inr err => (tx, Some (errorWrap ("delete bucket " +:+ bucketName) (boltError err)))
    end).

(** [value] is [None] for the nil interface. *)
Definition Put (db : bolt.Buckets) (bucketName key : string) (value : option Entity)
  : bolt.Buckets * option error :=
  if decide (key = EmptyString) then (db, Some (errorNew "key cannot be empty"))
  else
    match value with
    | None => (db, Some ErrNilValue)
    | Some value =>
        match Marshal value with
        | None => (db, Some (errorWrap "error marshaling data" jsonError))
        | Some data =>
            let compressedData := compression.CompressData lib data in
            bolt.Update db (fun tx =>
              match tx !! bucketName with
              | None => (tx, Some ErrBucketMissing)
              | Some b =>
                  match bolt.Put b key compressedData with
                  | inl b' => (<[bucketName := b']> tx, None)
                  | inr err => (tx, Some (boltError err))
                  end
              end)
        end
    end.

(** [data[0] == 0 || data[0] == 1]. *)
Definition legacyTag (data : list byte) : bool :=
  match data with
  | tag :: _ => (Byte.to_N tag =? 0) || (Byte.to_N tag =? 1)
  | [] => false
  end.

(** [target] is [None] for the nil interface.  When [needsMigration] is set,
    [Get] starts a goroutine that calls [Put] with the bucket, the key and
    the decoded target; the store changes when that goroutine runs. *)
Definition Get (db : bolt.Buckets) (bucketName key : string) (target : option Entity)
  : outcome getResult :=
  if decide (key = EmptyString) then Returns (Failed (errorNew "key cannot be empty"))
  else
    match target with
    | None => Returns (Failed ErrNilValue)
    | Some target =>
        match db !! bucketName with
        | None => Returns (Failed ErrBucketMissing)
        | Some b =>
            match b !! key with
            | None => Returns (Failed ErrNotFound)
            | Some data =>
                if decide (length data = 0%nat) then Returns (Failed ErrInvalidData)
                else
                  match compression.DecompressData lib data with
                  | Panics => Panics
                  | Returns actualData =>
                      let needsMigration :=
                        legacyTag data && (50 <? length actualData)%nat in
                      match Unmarshal actualData target with
                      | None => Returns (Failed jsonError)
                      | Some target' => Returns (Got target' needsMigration)
                      end
                  end
            end
        end
    end.

Definition Delete (db : bolt.Buckets) (bucketName key : string)
  : bolt.Buckets * option error :=
  if decide (key = EmptyString) then (db, Some (errorNew "key cannot be empty"))
  else
    bolt.Update db (fun tx =>
      match tx !! bucketName with
      | None => (tx, Some ErrBucketMissing)
      | Some b => (<[bucketName := bolt.Delete b key]> tx, None)
      end).

Definition List (db : bolt.Buckets) (bucketName : string) : list string * option error :=
  match db !! bucketName with
  | None => ([], Some ErrBucketMissing)
  | Some b => ((bolt.entries b).*1, None)
  end.

(** The loop of [Bucket.ForEach] under [db.ForEach]: [fn] gets each key with
    its decompressed value and threads its state; an error of [fn] ends the
    loop. *)
Fixpoint forEachLoop {S} (fn : string → list byte → S → S * option error)
    (items : list (string * list byte)) (s : S) : outcome (S * option error) :=
  match items with
  | [] => Returns (s, None)
  | (k, v) :: items' =>
      match compression.DecompressData lib v with
      | Panics => Panics
      | Returns actualData =>
          match fn k actualData s with
          | (s', Some err) => Returns (s', Some err)
          | (s', None) => forEachLoop fn items' s'
          end
      end
  end.

Definition ForEach {S} (db : bolt.Buckets) (bucketName : string)
    (fn : string → list byte → S → S * option error) (s : S)
  : outcome (S * option error) :=
  match db !! bucketName with
  | None => Returns (s, Some ErrBucketMissing)
  | Some b => forEachLoop fn (bolt.entries b) s
  end.

Definition Count (db : bolt.Buckets) (bucketName : string) : nat * option error :=
  match db !! bucketName with
  | None => (0%nat, Some ErrBucketMissing)
  | Some b => (size b, None)
  end.

(** The callback of [GetAll] over the values of the bucket; [fresh] is what
    [constructor()] returns. *)
Fixpoint getAllLoop (fresh : Entity) (values : list (list byte)) (items : list Entity)
  : outcome (list Entity) :=
  match values with
  | [] => Returns items
  | v :: values' =>
      match compression.DecompressData lib v with
      | Panics => Panics
      | Returns actualData =>
          match Unmarshal actualData fresh with
          | None => getAllLoop fresh values' items
          | Some item => getAllLoop fresh values' (items ++ [item])
          end
      end
  end.

Definition GetAll (db : bolt.Buckets) (bucketName : string) (fresh : Entity)
  : outcome (list Entity * option error) :=
  match db !! bucketName with
  | None => Returns ([], Some ErrBucketMissing)
  | Some b =>
      match getAllLoop fresh (bolt.entries b).*2 [] with
      | Panics => Panics
      | Returns items => Returns (items, None)
      end
  end.

Definition Clear (db : bolt.Buckets) (bucketName : string)
  : bolt.Buckets * option error :=
  bolt.Update db (fun tx =>
    match bolt.DeleteBucket tx bucketName with
    | inr err => (tx, Some (errorWrap "delete bucket" (boltError err)))
    | inl tx1 =>
        match bolt.CreateBucket tx1 bucketName with
        | inr err => (tx1, Some (errorWrap "recreate bucket" (boltError err)))
        | inl tx2 => (tx2, None)
        end
    end).

(** [source.ForEach(func(k, v) { return target.Put(k, v) })] into the bucket
    named [target]. *)
Fixpoint putAll (tx : bolt.Buckets) (target : string)
    (items : list (string * list byte)) : bolt.Buckets + bolt.Error :=
  match items with
  | [] => inl tx
  | (k, v) :: items' =>
      match bolt.Put (default ∅ (tx !! target)) k v with
      | inr err => inr err
      | inl b' => putAll (<[target := b']> tx) target items'
      end
  end.

(** [CompactBucket] ([database/manager.go]). *)
Definition CompactBucket (db : bolt.Buckets) (bucketName : string)
  : bolt.Buckets * option error :=
  bolt.Update db (fun tx =>
    match tx !! bucketName with
    | None => (tx, Some ErrBucketMissing)
    | Some sourceBucket =>
        let tempBucketName := bucketName +:+ "_temp" in
        match bolt.CreateBucket tx tempBucketName with
        | inr err => (tx, Some (errorWrap "failed to create temp bucket" (boltError err)))
        | inl tx1 =>
            match putAll tx1 tempBucketName (bolt.entries sourceBucket) with
            | inr err =>
                (match bolt.DeleteBucket tx1 tempBucketName with
                 | inl tx' => tx'
                 | inr _ => tx1
                 end,
                 Some (errorWrap "failed to copy data" (boltError err)))
            | inl tx2 =>
                match bolt.DeleteBucket tx2 bucketName with
                | inr err =>
                    (tx2, Some (errorWrap "failed to delete original bucket" (boltError err)))
                | inl tx3 =>
                    match bolt.CreateBucket tx3 bucketName with
                    | inr err =>
                        (tx3, Some (errorWrap "failed to recreate bucket" (boltError err)))
                    | inl tx4 =>
                        match putAll tx4 bucketName
                                (bolt.entries (default ∅ (tx4 !! tempBucketName))) with
                        | inr err =>
                            (tx4, Some (errorWrap "failed to restore data" (boltError err)))
                        | inl tx5 =>
                            match bolt.DeleteBucket tx5 tempBucketName with
                            | inl tx6 => (tx6, None)
                            | inr err => (tx5, Some (boltError err))
                            end
                        end
                    end
                end
            end
        end
    end).

End WithCodecs.
End database.

(** ** Package [database]: the registry of open databases
    ([database/manager.go]) *)
Module manager.

(** The registry maps a name to the database opened under it; a database is
    rendered by its buckets. *)
Record DatabaseManager := mkManager {
  databases : gmap string bolt.Buckets;
  defaultDB : string
}.

(** [init]. *)
Definition init : DatabaseManager := {| databases := ∅; defaultDB := EmptyString |}.

Section WithFiles.
(** [openDatabase(name, dbPath)]: the buckets of the file once
    [FindAndInitBuckets] has run, or the error. *)
Context (openDatabase : string → string → bolt.Buckets + error).

Definition Connect (m : DatabaseManager) (name dbPath : string)
  : DatabaseManager * option error :=
  let name := if decide (name = EmptyString) then "main"%string else name in
  let dbPath := if decide (dbPath = EmptyString) then name +:+ ".db" else dbPath in
  match databases m !! name with
  | Some _ => (m, Some ErrDatabaseExists)
  | None =>
      match openDatabase name dbPath with
      | inr err => (m, Some err)
      | inl db =>
          ({| databases := <[name := db]> (databases m);
              defaultDB := if decide (defaultDB m = EmptyString) then name
                           else defaultDB m |}, None)
      end
  end.

End WithFiles.

Definition SetDefault (m : DatabaseManager) (name : string)
  : DatabaseManager * option error :=
  match databases m !! name with
  | None => (m, Some ErrDatabaseNotFound)
  | Some _ => ({| databases := databases m; defaultDB := name |}, None)
  end.

(** [GetNamed]: the name the database is registered under and the database,
    or the error. *)
Definition GetNamed (m : DatabaseManager) (name : string)
  : (string * bolt.Buckets) + error :=
  if decide (name = EmptyString ∧ defaultDB m = EmptyString) then inr ErrNoDefaultDatabase
  else
    let name := if decide (name = EmptyString) then defaultDB m else name in
    match databases m !! name with
    | None => inr (errorNew ("database '" +:+ name +:+ "' not found"))
    | Some db => inl (name, db)
    end.

Definition Get (m : DatabaseManager) : (string * bolt.Buckets) + error :=
  GetNamed m EmptyString.

(** The name the statement [for dbName := range m { ...; break }] picks: any
    of the names, [visit] saying which; none when the map is empty. *)
Definition rangeFirst (visit : nat) (dbs : gmap string bolt.Buckets) : option string :=
  (map_to_list dbs).*1 !! (visit `mod` size dbs)%nat.

(** [Close]; [closed] is what [db.DB.Close()] returns. *)
Definition Close (closed : option error) (visit : nat) (m : DatabaseManager)
    (name : string) : DatabaseManager * option error :=
  if decide (name = EmptyString ∧ defaultDB m = EmptyString)
  then (m, Some ErrNoDefaultDatabase)
  else
    let name := if decide (name = EmptyString) then defaultDB m else name in
    match databases m !! name with
    | None => (m, Some (errorNew ("database '" +:+ name +:+ "' not found")))
    | Some db =>
        match closed with
        | Some err =>
            (m, Some (errorWrap ("error closing database '" +:+ name +:+ "'") err))
        | None =>
            let dbs := delete name (databases m) in
            ({| databases := dbs;
                defaultDB := if decide (defaultDB m = name)
                             then default EmptyString (rangeFirst visit dbs)
                             else defaultDB m |}, None)
        end
    end.

(** [CloseAll]; [failures] holds the messages
    ["error closing database '%s': %v"] of the databases whose [Close]
    failed, in the order the loop met them. *)
Definition CloseAll (failures : list string) (m : DatabaseManager)
  : DatabaseManager * option error :=
  ({| databases := ∅; defaultDB := EmptyString |},
   if decide (0 < length failures)%nat
   then Some (errorNew ("errors closing databases: " +:+ String.concat "; " failures))
   else None).

(** The states of the registry the program can reach. *)
Inductive reachable (openDatabase : string → string → bolt.Buckets + error)
  : DatabaseManager → Prop :=
  | reach_init : reachable openDatabase init
  | reach_Connect m name dbPath :
      reachable openDatabase m →
      reachable openDatabase (Connect openDatabase m name dbPath).1
  | reach_SetDefault m name :
      reachable openDatabase m → reachable openDatabase (SetDefault m name).1
  | reach_Close closed visit m name :
      reachable openDatabase m → reachable openDatabase (Close closed visit m name).1
  | reach_CloseAll failures m :
      reachable openDatabase m → reachable openDatabase (CloseAll failures m).1
  | reach_write m name db :
      (* a method of [DB] changed the buckets of a registered database *)
      reachable openDatabase m → is_Some (databases m !! name) →
      reachable openDatabase
        {| databases := <[name := db]> (databases m); defaultDB := defaultDB m |}.

End manager.

(** ** Package [database]: moving a bucket to another database
    ([database/manager.go], second part) *)
Module migration.
Section WithCodecs.
Context (lib : Codecs).

(** The callback of [sourceBucket.ForEach] in [MigrateBucket], over the
    entries left: the target database, the messages of the failed keys and
    the number of records moved. *)
Fixpoint migrateLoop (bucketName : string) (items : list (string * list byte))
    (targetDB : bolt.Buckets) (migrationErrors : list string) (migrationCount : nat)
  : outcome (bolt.Buckets * list string * nat) :=
  match items with
  | [] => Returns (targetDB, migrationErrors, migrationCount)
  | (k, v) :: items' =>
      match compression.DecompressData lib v with
      | Panics => Panics
      | Returns actualData =>
          let '(targetDB', err) :=
            bolt.Update targetDB (fun targetTx =>
              match targetTx !! bucketName with
              | None =>
                  (targetTx,
                   Some ("bucket '" +:+ bucketName +:+ "' not found in target database"))
              | Some targetBucket =>
                  let compressedData := compression.CompressData lib actualData in
                  match bolt.Put targetBucket k compressedData with
                  | inl b' => (<[bucketName := b']> targetTx, None)
                  | inr e => (targetTx, Some (bolt.Error_text e))
                  end
              end) in
          match err with
          | Some text =>
              migrateLoop bucketName items' targetDB'
                (migrationErrors ++ ["key " +:+ k +:+ ": " +:+ text]) migrationCount
          | None =>
              migrateLoop bucketName items' targetDB' migrationErrors (S migrationCount)
          end
      end
  end.

(** The registry after the database registered under [name] was left with
    the buckets [db]. *)
Definition withDatabase (m : manager.DatabaseManager) (name : string)
    (db : bolt.Buckets) : manager.DatabaseManager :=
  {| manager.databases := <[name := db]> (manager.databases m);
     manager.defaultDB := manager.defaultDB m |}.

(** [db.MigrateBucket(bucketName, targetDBName, deleteSource)] for the
    database [db] registered under [self]; a receiver that is no longer
    registered has been closed. *)
Definition MigrateBucket (m : manager.DatabaseManager) (self : string)
    (bucketName targetDBName : string) (deleteSource : bool)
  : outcome (manager.DatabaseManager * option error) :=
  if decide (bucketName = EmptyString)
  then Returns (m, Some (errorNew "bucket name cannot be empty"))
  else if decide (targetDBName = EmptyString)
  then Returns (m, Some (errorNew "target database name cannot be empty"))
  else if decide (targetDBName = self)
  then Returns (m, Some (errorNew "source and target database cannot be the same"))
  else
    match manager.GetNamed m targetDBName with
    | inr err =>
        Returns (m, Some (errorWrap
                            ("failed to get target database '" +:+ targetDBName +:+ "'")
                            err))
    | inl (targetName, targetDB) =>
        match database.CreateBucket targetDB bucketName with
        | (_, Some err) =>
            Returns (m, Some (errorWrap "failed to create bucket in target database" err))
        | (targetDB1, None) =>
            let m1 := withDatabase m targetName targetDB1 in
            match manager.databases m !! self with
            | None =>
                Returns (m1, Some (errorWrap "migration failed"
                                     (boltError bolt.ErrDatabaseNotOpen)))
            | Some db =>
                match db !! bucketName with
                | None =>
                    Returns (m1, Some (errorWrap "migration failed"
                                         (errorNew ("bucket '" +:+ bucketName
                                                    +:+ "' not found in source database"))))
                | Some sourceBucket =>
                    match migrateLoop bucketName (bolt.entries sourceBucket)
                            targetDB1 [] 0 with
                    | Panics => Panics
                    | Returns (targetDB2, migrationErrors, migrationCount) =>
                        let m2 := withDatabase m targetName targetDB2 in
                        if decide (0 < length migrationErrors)%nat then
                          Returns (m2, Some (errorNew
                            ("migration completed with "
                             +:+ pretty (length migrationErrors)
                             +:+ " errors: " +:+ String.concat "; " migrationErrors)))
                        else if deleteSource then
                          match database.DeleteBucket db bucketName with
                          | (_, Some err) =>
                              Returns (m2, Some (errorWrap
                                "failed to delete source bucket after successful migration"
                                err))
                          | (db', None) => Returns (withDatabase m2 self db', None)
                          end
                        else Returns (m2, None)
                    end
                end
            end
        end
    end.

End WithCodecs.
End migration.

(** ** [internal/reflection]: bucket and database names *)

(** A struct field as [Type.Field(i)] presents it to [GetBucketName] and
    [GetBucketDatabase]: the name of its type and the pairs of its tag, in
    the order they are written. *)
Record StructField := mkStructField {
  TypeName : string;
  Tag : list (string * string)
}.

(** A struct type: [typ.Name()] and the fields. *)
Record StructType := mkStructType {
  structName : string;
  structFields : list StructField
}.

(** [tag.Lookup(key)]: the value of the first pair with that key. *)
Fixpoint Lookup (tag : list (string * string)) (key : string) : option string :=
  match tag with
  | [] => None
  | (k, v) :: tag' => if decide (k = key) then Some v else Lookup tag' key
  end.

(** The loop of [GetBucketName] and of [GetBucketDatabase] over the fields:
    the value found for the tag key [key], if any. *)
Fixpoint lookupFields (key : string) (fields : list StructField) : option string :=
  match fields with
  | [] => None
  | field :: fields' =>
      let viaBucket :=
        if decide (TypeName field = "Bucket"%string) then Lookup (Tag field) key
        else None in
      match viaBucket with
      | Some name => Some name
      | None =>
          match Lookup (Tag field) key with
          | Some name => Some name
          | None => lookupFields key fields'
          end
      end
  end.

(** [GetBucketName] of a struct, or of a pointer to one. *)
Definition GetBucketName (typ : StructType) : string :=
  match lookupFields "bucket" (structFields typ) with
  | Some bucketName => bucketName
  | None =>
      let structName := structName typ in
      let n := String.length structName in
      if (6 <? n)%nat && String.eqb (String.substring (n - 6) 6 structName) "Entity"
      then String.substring 0 (n - 6) structName
      else structName
  end.

(** [GetBucketDatabase] of a struct, or of a pointer to one. *)
Definition GetBucketDatabase (typ : StructType) : string + error :=
  match lookupFields "database" (structFields typ) with
  | Some dbName => inl dbName
  | None => inr (errorNew "no database tag found")
  end.

(** ** Package [bucket]: saving, finding and deleting a record
    ([src/unnamed/part_000], [src/unnamed/part_001]) *)
Module bucket.

(** The process-wide state these functions work on: the registry of
    databases and the index, which is one for all databases. *)
Record World := mkWorld {
  registry : manager.DatabaseManager;
  bucketIndexes : Index
}.

(** The registry after a method of [DB] has left the database registered
    under [name] with the buckets [db]. *)
Definition written (w : World) (name : string) (db : bolt.Buckets) (idx : Index)
  : World :=
  {| registry := {| manager.databases := <[name := db]> (manager.databases (registry w));
                    manager.defaultDB := manager.defaultDB (registry w) |};
     bucketIndexes := idx |}.

Section WithCodecs.
Context (lib : Codecs).
Context (Marshal : Entity → option (list byte)).
Context (Unmarshal : list byte → Entity → option Entity).

Definition FindInDatabase (w : World) (dbName bucketName id : string)
    (entity : option Entity) : outcome database.getResult :=
  match manager.GetNamed (registry w) dbName with
  | inr err => Returns (database.Failed err)
  | inl (_, db) => database.Get lib Unmarshal db bucketName id entity
  end.

(** [SaveToDatabase]: [typ] is the type of the entity, [ID] the field [b.ID]
    of the receiver and [entity] the fields of the record as [BeforeSave]
    has left them. *)
Definition SaveToDatabase (w : World) (ID : string) (dbName : string)
    (typ : StructType) (entity : Entity) : World * option error :=
  match manager.GetNamed (registry w) dbName with
  | inr err => (w, Some err)
  | inl (name, db) =>
      let bucketName := GetBucketName typ in
      let id := ID in
      if decide (id = EmptyString) then (w, Some (errorNew "ID field is required"))
      else
        let idx := UpdateIndex bucketName id entity (bucketIndexes w) in
        let '(db', err) := database.Put lib Marshal db bucketName id (Some entity) in
        (written w name db' idx, err)
  end.

Definition DeleteFromDatabase (w : World) (ID : string) (dbName : string)
    (typ : StructType) (entity : Entity) : World * option error :=
  match manager.GetNamed (registry w) dbName with
  | inr err => (w, Some err)
  | inl (name, db) =>
      let bucketName := GetBucketName typ in
      let id := ID in
      if decide (id = EmptyString) then (w, Some (errorNew "ID field is required"))
      else
        let idx := RemoveFromIndex bucketName id entity (bucketIndexes w) in
        let '(db', err) := database.Delete db bucketName id in
        (written w name db' idx, err)
  end.

End WithCodecs.
End bucket.

(** The codecs behave on [b] as [CompressData] and [DecompressData] of
    [internal/compression] need them to: gzip, flate and lzw read back what
    they write for [b], and the zlib stream of [b] is longer than its
    deflate stream. *)
Definition codecsReadBack (lib : Codecs) (b : list byte) : Prop :=
  roundtrips (compression.compressGzip lib) (gzip_Reader lib) b /\
  roundtrips (compression.compressFlate lib) (flate_Reader lib) b /\
  roundtrips (compression.compressLZW lib) (lzw_Reader lib lzw.LSB 8) b /\
  zlib_longer_than_flate lib DefaultCompression b.

(** The value stored under a key of a bucket of a database, if any. *)
Definition stored (db : bolt.Buckets) (bucketName key : string) : option (list byte) :=
  db !! bucketName ≫= fun b => b !! key.

(** *** More sample data: an encoder for the two sample records, a database
    with the one empty bucket [items], and record types. *)
Definition marshalAB (e : Entity) : option (list byte) :=
  if decide (e = recA) then Some rawA
  else if decide (e = recB) then Some rawB
  else None.
Definition unmarshalAB (data : list byte) (target : Entity) : option Entity :=
  jsonAB data.
Definition emptyItems : bolt.Buckets := {[ "items"%string := ∅ ]}.

(** A database whose bucket [items] holds the two sample records, framed
    raw. *)
Definition storeAB : bolt.Buckets :=
  {[ "items"%string := {[ "A"%string := x00 :: rawA; "B"%string := x00 :: rawB ]} ]}.

(** What [GetAll] makes of one stored value: the decoded record, [None]
    when the JSON decoder rejects the decompressed value. *)
Definition decodeValue (lib : Codecs) (Unmarshal : list byte → Entity → option Entity)
    (fresh : Entity) (v : list byte) : outcome (option Entity) :=
  match compression.DecompressData lib v with
  | Panics => Panics
  | Returns actualData => Returns (Unmarshal actualData fresh)
  end.

(** The invariant of the registry: no database is registered under the
    empty name, and the default name is empty when nothing is registered
    and the name of a registered database otherwise. *)
Definition registryInv (m : manager.DatabaseManager) : Prop :=
  manager.databases m !! EmptyString = None /\
  (manager.defaultDB m = EmptyString -> manager.databases m = ∅) /\
  (manager.defaultDB m ≠ EmptyString ->
   is_Some (manager.databases m !! manager.defaultDB m)).

(** A file system on which every database opens, empty. *)
Definition openEmpty (name dbPath : string) : bolt.Buckets + error := inl ∅.

(** The type of the sample records: [type Item struct { bucket.Bucket
    `bucket:"items" database:"main"`; X int `json:"x"`; Y int `json:"y"` }],
    and a world in which the database [main] is open with the empty bucket
    [items]. *)
Definition itemType : StructType :=
  {| structName := "Item";
     structFields :=
       [ {| TypeName := "Bucket";
            Tag := [("bucket"%string, "items"%string); ("database"%string, "main"%string)] |};
         {| TypeName := "int"; Tag := [("json"%string, "x"%string)] |};
         {| TypeName := "int"; Tag := [("json"%string, "y"%string)] |} ] |}.

Definition worldItems : bucket.World :=
  {| bucket.registry := {| manager.databases := {[ "main"%string := emptyItems ]};
                           manager.defaultDB := "main" |};
     bucket.bucketIndexes := ∅ |}.

(** The same world with no bucket in the database. *)
Definition worldNoBucket : bucket.World :=
  {| bucket.registry := {| manager.databases := {[ "main"%string := ∅ ]};
                           manager.defaultDB := "main" |};
     bucket.bucketIndexes := ∅ |}.

(** A registry with the database [main], holding the two sample records,
    and an empty database [backup]. *)
Definition registryAB : manager.DatabaseManager :=
  {| manager.databases := {[ "main"%string := storeAB; "backup"%string := ∅ ]};
     manager.defaultDB := "main" |}.

(** A callback for [ForEach] that appends what it is given and never
    fails. *)
Definition collect (k : string) (v : list byte) (acc : list (string * list byte))
  : list (string * list byte) * option error :=
  (acc ++ [(k, v)], None).

(** ** The scan of [FindWhereInDatabase] *)

(** What a worker keeps of an untagged value: the record it decodes to,
    when that matches the criteria. *)
Definition kept (jsonDecode : list byte → option Entity) (criteria : Criteria)
    (matcher : FieldMatcher) (data : list byte) : option Entity :=
  match jsonDecode data with
  | Some entity => if MatchesCriteria entity criteria matcher then Some entity else None
  | None => None
  end.

(** The records a state of the scan holds outside the work channel: those
    collected, those in the result channel and those with a worker. *)
Definition gathered (s : Scan) : list Entity :=
  results s ++ concat (resultChan s) ++ concat (default [] <$> localResults s).

(** What every state of a scan over untagged values satisfies: the records
    it holds, with the matches still in the work channel, are the matches
    among the values handed over so far, which with the pending ones are
    the first values of the bucket, and all of them while no handoff has
    timed out; the producer closes the work channel after its last value; a
    worker is done only when that channel is closed and empty; and the
    result channel is closed only when every worker is done. *)
Record scanInv (jsonDecode : list byte → option Entity) (criteria : Criteria)
    (matcher : FieldMatcher) (values : list (list byte)) (workers : nat)
    (s : Scan) : Prop := {
  inv_handled : ∃ handled,
    gathered s ++ omap (kept jsonDecode criteria matcher) (workChan s)
      ≡ₚ omap (kept jsonDecode criteria matcher) handled ∧
    handled ++ pending s `prefix_of` values ∧
    (forEachError s = None → handled ++ pending s = values);
  inv_untagged : Forall (fun v => untagged v = true) (workChan s);
  inv_closed : workChanClosed s = true → pending s = [];
  inv_done : ∀ w, localResults s !! w = Some None →
             workChanClosed s = true ∧ workChan s = [];
  inv_results : resultChanClosed s = true →
                ∀ w l, localResults s !! w = Some l → l = None;
  inv_workers : length (localResults s) = workers
}.
(** * Properties *)

(** ** Selection of the smallest frame *)

Lemma omap_cons {A B} (f : A → option B) (x : A) (l : list A) :
  omap f (x :: l) = match f x with Some y => y :: omap f l | None => omap f l end.
Proof. done. Qed.

Lemma fold_tryCompressor cs data acc :
  fold_left (tryCompressor data) cs acc =
  fold_left keepSmaller (omap (fun c : compressor => (fun out => (c.1, out)) <$> c.2 data) cs) acc.
Proof.
  revert acc. induction cs as [|c cs IH]; intros [best bestType]; [done|].
  rewrite omap_cons. cbn [fold_left]. rewrite IH. unfold tryCompressor.
  destruct (c.2 data) as [out|]; done.
Qed.

(** Folding [keepSmaller] returns the first candidate of minimal length. *)
Lemma fold_keepSmaller_first_min (l : list (N * list byte)) (c0 : N * list byte) :
  ∃ (i : nat) (c : N * list byte),
    (c0 :: l) !! i = Some c ∧
    fold_left keepSmaller l (c0.2, c0.1) = (c.2, c.1) ∧
    (∀ j d, (c0 :: l) !! j = Some d → (length c.2 ≤ length d.2)%nat) ∧
    (∀ j d, (j < i)%nat → (c0 :: l) !! j = Some d → (length c.2 < length d.2)%nat).
Proof.
  induction l as [|x l IH] using rev_ind.
  - exists 0%nat, c0. split_and!; [done..| |].
    + intros [|j] d Hd; simplify_eq/=; lia.
    + intros j d Hj. lia.
  - destruct IH as (i & c & Hi & Hfold & Hmin & Hfirst).
    rewrite fold_left_app. cbn [fold_left]. rewrite Hfold.
    unfold keepSmaller. cbn [fst snd].
    assert (Hlen : (i < length (c0 :: l))%nat) by (eapply lookup_lt_Some; done).
    destruct (Nat.ltb_spec (length x.2) (length c.2)) as [Hlt|Hge].
    + exists (length (c0 :: l)), x. split_and!.
      * rewrite app_comm_cons. rewrite lookup_app_r by lia.
        by rewrite Nat.sub_diag.
      * done.
      * intros j d Hd. rewrite app_comm_cons in Hd.
        apply lookup_app_Some in Hd as [Hd|[_ Hd]].
        -- apply Hmin in Hd. lia.
        -- destruct (j - length (c0 :: l))%nat; simplify_eq/=; lia.
      * intros j d Hj Hd. rewrite app_comm_cons in Hd.
        rewrite lookup_app_l in Hd by done.
        apply Hmin in Hd. lia.
    + exists i, c. split_and!.
      * rewrite app_comm_cons. by rewrite lookup_app_l.
      * done.
      * intros j d Hd. rewrite app_comm_cons in Hd.
        apply lookup_app_Some in Hd as [Hd|[_ Hd]].
        -- by apply Hmin in Hd.
        -- destruct (j - length (c0 :: l))%nat; simplify_eq/=; lia.
      * intros j d Hj Hd. rewrite app_comm_cons in Hd.
        rewrite lookup_app_l in Hd by lia.
        by eapply Hfirst.
Qed.

Lemma compressWith_small cs data :
  (length data < threshold)%nat → compressWith cs data = x00 :: data.
Proof.
  intros H. unfold compressWith.
  destruct (Nat.ltb_spec (length data) threshold); [done|lia].
Qed.

Lemma compressWith_large cs data :
  (threshold ≤ length data)%nat →
  ∃ (i : nat) (tag : N) (payload : list byte),
    candidates cs data !! i = Some (tag, payload) ∧
    compressWith cs data = uint8 tag :: payload ∧
    (∀ j d, candidates cs data !! j = Some d → (length payload ≤ length d.2)%nat) ∧
    (∀ j d, (j < i)%nat → candidates cs data !! j = Some d →
            (length payload < length d.2)%nat).
Proof.
  intros H. unfold compressWith.
  destruct (Nat.ltb_spec (length data) threshold); [lia|].
  rewrite fold_tryCompressor.
  destruct (fold_keepSmaller_first_min
              (omap (fun c : compressor => (fun out => (c.1, out)) <$> c.2 data) cs)
              (None_, data)) as (i & [tag payload] & Hi & Hfold & Hmin & Hfirst).
  cbn [fst snd] in *. rewrite Hfold.
  exists i, tag, payload. done.
Qed.

Lemma candidates_inv cs data i tag payload :
  candidates cs data !! i = Some (tag, payload) →
  (tag = None_ ∧ payload = data) ∨
  (∃ comp, (tag, comp) ∈ cs ∧ comp data = Some payload).
Proof.
  unfold candidates. destruct i as [|i]; cbn.
  - intros; simplify_eq. by left.
  - intros H. right. apply list_elem_of_lookup_2 in H.
    apply list_elem_of_omap in H as ([id comp] & Hin & Hc). cbn in Hc.
    destruct (comp data) as [out|] eqn:E; simplify_eq/=.
    exists comp. done.
Qed.

Lemma candidates_intro cs data id comp out :
  (id, comp) ∈ cs → comp data = Some out →
  ∃ j, candidates cs data !! j = Some (id, out).
Proof.
  intros Hin Hc.
  assert (H : (id, out) ∈ omap (fun c : compressor => (fun o => (c.1, o)) <$> c.2 data) cs).
  { apply list_elem_of_omap. exists (id, comp). cbn. by rewrite Hc. }
  apply list_elem_of_lookup_1 in H as [j Hj]. exists (S j). done.
Qed.

Lemma compressors_tags lib tag comp :
  (tag, comp) ∈ compression.compressors lib →
  (tag = Gzip ∧ comp = compression.compressGzip lib) ∨
  (tag = Zlib ∧ comp = compression.compressZlib lib) ∨
  (tag = Flate ∧ comp = compression.compressFlate lib) ∨
  (tag = LZW ∧ comp = compression.compressLZW lib).
Proof.
  unfold compression.compressors. intros H.
  repeat (apply elem_of_cons in H as [H|H]; [simplify_eq; tauto|]).
  by apply elem_of_nil in H.
Qed.

Lemma compressors_nopool_tags lib tag comp :
  (tag, comp) ∈ compression_nopool.compressors lib →
  (tag = Gzip ∧ comp = compression_nopool.compressGzip lib) ∨
  (tag = Zlib ∧ comp = compression_nopool.compressZlib lib) ∨
  (tag = Flate ∧ comp = compression_nopool.compressFlate lib) ∨
  (tag = LZW ∧ comp = compression_nopool.compressLZW lib).
Proof.
  unfold compression_nopool.compressors. intros H.
  repeat (apply elem_of_cons in H as [H|H]; [simplify_eq; tauto|]).
  by apply elem_of_nil in H.
Qed.

(** C5. Below the threshold [CompressData] returns the none-tagged frame
    [0 :: b], of length [len(b)+1], whose payload is [b].  At or above it,
    the frame returned is that of a candidate (the raw data, or the output of
    a compressor that reported no error), it is no longer than the frame of
    any candidate, and strictly shorter than the frame of every candidate
    tried before it. *)
Theorem CompressData_selection (lib : Codecs) (b : list byte) :
  ((length b < threshold)%nat →
     compression.CompressData lib b = x00 :: b ∧
     length (compression.CompressData lib b) = S (length b)) ∧
  ((threshold ≤ length b)%nat →
     ∃ (i : nat) (c : N * list byte),
       candidates (compression.compressors lib) b !! i = Some c ∧
       compression.CompressData lib b = frame c ∧
       (∀ j d, candidates (compression.compressors lib) b !! j = Some d →
               (length (frame c) ≤ length (frame d))%nat) ∧
       (∀ j d, (j < i)%nat →
               candidates (compression.compressors lib) b !! j = Some d →
               (length (frame c) < length (frame d))%nat)).
Proof.
  split; intros H.
  - unfold compression.CompressData. rewrite compressWith_small by done. done.
  - destruct (compressWith_large (compression.compressors lib) b H)
      as (i & tag & payload & Hi & Heq & Hmin & Hfirst).
    exists i, (tag, payload). unfold frame. cbn [fst snd length].
    split_and!; [done|done| |].
    + intros j d Hd. apply Hmin in Hd. lia.
    + intros j d Hj Hd. apply (Hfirst j d Hj) in Hd. lia.
Qed.

Lemma CompressData_selection_witness :
  compression.CompressData lzw_only [x7b; x7d] = [x00; x7b; x7d] ∧
  ∃ (i : nat) (c : N * list byte),
    candidates (compression.compressors lzw_only) sixty_a !! i = Some c ∧
    compression.CompressData lzw_only sixty_a = frame c.
Proof.
  split.
  - assert (Hlen : (length [x7b; x7d] < threshold)%nat) by (vm_compute; lia).
    exact (proj1 (proj1 (CompressData_selection lzw_only [x7b; x7d]) Hlen)).
  - assert (Hlen : (threshold ≤ length sixty_a)%nat) by (vm_compute; lia).
    destruct (proj2 (CompressData_selection lzw_only sixty_a) Hlen)
      as (i & c & Hi & Heq & _).
    exists i, c. split; assumption.
Defined.

(** The same selection rule holds for the table of the variant without
    pools, which tries LZW first and gzip last. *)
Lemma CompressData_nopool_selection (lib : Codecs) (b : list byte) :
  ((length b < threshold)%nat → compression_nopool.CompressData lib b = x00 :: b) ∧
  ((threshold ≤ length b)%nat →
     ∃ (i : nat) (tag : N) (payload : list byte),
       candidates (compression_nopool.compressors lib) b !! i = Some (tag, payload) ∧
       compression_nopool.CompressData lib b = uint8 tag :: payload ∧
       (∀ j d, candidates (compression_nopool.compressors lib) b !! j = Some d →
               (length payload ≤ length d.2)%nat) ∧
       (∀ j d, (j < i)%nat →
               candidates (compression_nopool.compressors lib) b !! j = Some d →
               (length payload < length d.2)%nat)).
Proof.
  split; intros H.
  - unfold compression_nopool.CompressData. by rewrite compressWith_small.
  - by apply compressWith_large.
Qed.

(** C10. The frame [CompressData] returns is never empty, its first byte is
    a tag between 0 and 4, it is at most one byte longer than the input, and
    a tag other than 0 comes with a payload strictly shorter than the
    input. *)
Theorem CompressData_frame_bounds (lib : Codecs) (b : list byte) :
  ∃ (tag : byte) (payload : list byte),
    compression.CompressData lib b = tag :: payload ∧
    Byte.to_N tag ≤ 4 ∧
    (length (compression.CompressData lib b) ≤ length b + 1)%nat ∧
    (Byte.to_N tag ≠ 0 → (length payload < length b)%nat).
Proof.
  destruct (decide (length b < threshold)%nat) as [Hsmall|Hlarge].
  - exists x00, b. unfold compression.CompressData.
    rewrite compressWith_small by done. cbn. split_and!; [done|lia|lia|done].
  - destruct (compressWith_large (compression.compressors lib) b)
      as (i & tag & payload & Hi & Heq & Hmin & Hfirst); [lia|].
    exists (uint8 tag), payload. unfold compression.CompressData.
    rewrite Heq. cbn [length].
    assert (Hraw : candidates (compression.compressors lib) b !! 0%nat
                   = Some (None_, b)) by done.
    pose proof (Hmin _ _ Hraw) as Hle. cbn in Hle.
    split_and!; [done| |lia|].
    + apply candidates_inv in Hi as [[-> _]|(comp & Hin & _)]; [done|].
      apply compressors_tags in Hin as [[-> _]|[[-> _]|[[-> _]|[-> _]]]]; done.
    + intros Htag. destruct i as [|i].
      * by simplify_eq/=.
      * apply (Hfirst 0%nat (None_, b)); [lia|done].
Qed.

(** ** Round trip *)

Lemma DecompressData_raw lib b :
  compression.DecompressData lib (x00 :: b) = Returns b.
Proof. done. Qed.

(** With the table of [compression.go], a zlib output is replaced by the
    shorter flate output tried after it: the selected tag is never [Zlib]. *)
Lemma CompressData_never_zlib lib b i payload :
  zlib_longer_than_flate lib DefaultCompression b →
  candidates (compression.compressors lib) b !! i = Some (Zlib, payload) →
  ¬ (∀ j d, candidates (compression.compressors lib) b !! j = Some d →
            (length payload ≤ length d.2)%nat).
Proof.
  intros Hz Hi Hmin.
  apply candidates_inv in Hi as [[? _]|(comp & Hin & Hcomp)]; [done|].
  apply compressors_tags in Hin as [[? _]|[[_ ->]|[[? _]|[? _]]]]; try done.
  destruct (Hz _ Hcomp) as (f & Hf & Hlen).
  destruct (candidates_intro (compression.compressors lib) b Flate
              (compression.compressFlate lib) f) as [j Hj]; [|done|].
  - unfold compression.compressors. set_solver.
  - apply Hmin in Hj. cbn in Hj. lia.
Qed.

(** C1. [DecompressData (CompressData b) = b] for every [b], the empty
    sequence included, given that each codec the encoder may select reads
    back what it wrote for [b], and that zlib framing is longer than raw
    deflate (so that the zlib tag is never selected). *)
Theorem DecompressData_CompressData (lib : Codecs) (b : list byte) :
  roundtrips (compression.compressGzip lib) (gzip_Reader lib) b →
  roundtrips (compression.compressFlate lib) (flate_Reader lib) b →
  roundtrips (compression.compressLZW lib) (lzw_Reader lib lzw.LSB 8) b →
  zlib_longer_than_flate lib DefaultCompression b →
  compression.DecompressData lib (compression.CompressData lib b) = Returns b.
Proof.
  intros Hgz Hfl Hlz Hzl. unfold compression.CompressData.
  destruct (decide (length b < threshold)%nat) as [Hsmall|Hlarge].
  { by rewrite compressWith_small. }
  destruct (compressWith_large (compression.compressors lib) b)
    as (i & tag & payload & Hi & -> & Hmin & _); [lia|].
  pose proof Hi as Hi'.
  apply candidates_inv in Hi' as [[-> ->]|(comp & Hin & Hcomp)]; [done|].
  apply compressors_tags in Hin as [[-> ->]|[[-> ->]|[[-> ->]|[-> ->]]]].
  - apply Hgz in Hcomp. cbn. by rewrite Hcomp.
  - by destruct (CompressData_never_zlib lib b i payload).
  - apply Hfl in Hcomp. cbn. by rewrite Hcomp.
  - apply Hlz in Hcomp. cbn. by rewrite Hcomp.
Qed.

Lemma DecompressData_CompressData_witness :
  compression.DecompressData lzw_only (compression.CompressData lzw_only sixty_a)
    = Returns sixty_a ∧
  compression.DecompressData lzw_only (compression.CompressData lzw_only [])
    = Returns [].
Proof.
  split.
  - refine (DecompressData_CompressData lzw_only sixty_a _ _ _ _).
    + intros c Hc. discriminate Hc.
    + intros c Hc. discriminate Hc.
    + intros c Hc. vm_compute in Hc. injection Hc as <-. vm_compute. reflexivity.
    + intros z Hz. discriminate Hz.
  - refine (DecompressData_CompressData lzw_only [] _ _ _ _).
    + intros c Hc. discriminate Hc.
    + intros c Hc. discriminate Hc.
    + intros c Hc. vm_compute in Hc. injection Hc as <-. vm_compute. reflexivity.
    + intros z Hz. discriminate Hz.
Defined.

(** The variant without pools reads zlib frames too, and needs no assumption
    on which codec wins. *)
Lemma DecompressData_CompressData_nopool (lib : Codecs) (b : list byte) :
  roundtrips (compression_nopool.compressGzip lib) (gzip_Reader lib) b →
  roundtrips (compression_nopool.compressZlib lib) (zlib_Reader lib) b →
  roundtrips (compression_nopool.compressFlate lib) (flate_Reader lib) b →
  roundtrips (compression_nopool.compressLZW lib) (lzw_Reader lib lzw.LSB 8) b →
  compression_nopool.DecompressData lib (compression_nopool.CompressData lib b) = b.
Proof.
  intros Hgz Hzl Hfl Hlz. unfold compression_nopool.CompressData.
  destruct (decide (length b < threshold)%nat) as [Hsmall|Hlarge].
  { by rewrite compressWith_small. }
  destruct (compressWith_large (compression_nopool.compressors lib) b)
    as (i & tag & payload & Hi & -> & _); [lia|].
  apply candidates_inv in Hi as [[-> ->]|(comp & Hin & Hcomp)]; [done|].
  apply compressors_nopool_tags in Hin as [[-> ->]|[[-> ->]|[[-> ->]|[-> ->]]]].
  - apply Hgz in Hcomp. cbn. by rewrite Hcomp.
  - apply Hzl in Hcomp. cbn. by rewrite Hcomp.
  - apply Hfl in Hcomp. cbn. by rewrite Hcomp.
  - apply Hlz in Hcomp. cbn. by rewrite Hcomp.
Qed.

(** ** Decoding failures *)

(** C3, as stated, fails: a tag-4 frame whose payload is no LZW stream comes
    back whole, tag byte included. *)
Lemma DecompressData_failure_keeps_tag :
  readerFor lzw_only (Byte.to_N x04) not_lzw = None ∧
  compression.DecompressData lzw_only (x04 :: not_lzw) = Returns (x04 :: not_lzw) ∧
  compression.DecompressData lzw_only (x04 :: not_lzw) ≠ Returns not_lzw.
Proof. vm_compute. split_and!; [reflexivity|reflexivity|discriminate]. Qed.

(** C3, amended. When the payload of a frame tagged gzip (1), deflate (3) or
    LZW (4) fails to decode, [DecompressData] returns without an error: the
    payload alone for tag 1, the whole input, tag byte included, for tags 3
    and 4. *)
Theorem DecompressData_decode_failure (lib : Codecs) (tag : byte) (payload : list byte) :
  Byte.to_N tag = Gzip ∨ Byte.to_N tag = Flate ∨ Byte.to_N tag = LZW →
  readerFor lib (Byte.to_N tag) payload = None →
  compression.DecompressData lib (tag :: payload) =
    Returns (if Byte.to_N tag =? Gzip then payload else tag :: payload).
Proof.
  unfold readerFor, compression.DecompressData.
  intros [Ht|[Ht|Ht]] Hfail; rewrite Ht in *; cbn in *; rewrite Hfail.
  - done.
  - unfold compression.gzipMagic. destruct payload as [|b1 ?]; [done|].
    rewrite Ht. done.
  - unfold compression.gzipMagic. destruct payload as [|b1 ?]; [done|].
    rewrite Ht. done.
Qed.

Lemma DecompressData_decode_failure_witness :
  compression.DecompressData lzw_only (x04 :: not_lzw) = Returns (x04 :: not_lzw).
Proof.
  refine (DecompressData_decode_failure lzw_only x04 not_lzw _ _).
  - right. right. reflexivity.
  - vm_compute. reflexivity.
Defined.

(** A frame tagged zlib (2) is not decoded at all by [compression.go]: the
    reader pool has nothing to hand out. *)
Lemma DecompressData_zlib_panics lib payload :
  compression.DecompressData lib (x02 :: payload) = Panics.
Proof. done. Qed.

(** In the variant without pools every failing tag from 2 to 4 gives the whole
    input back, and tag 1 the payload. *)
Lemma DecompressData_nopool_decode_failure lib tag payload :
  1 ≤ Byte.to_N tag ≤ 4 →
  readerFor lib (Byte.to_N tag) payload = None →
  compression_nopool.DecompressData lib (tag :: payload) =
    if Byte.to_N tag =? Gzip then payload else tag :: payload.
Proof.
  intros Hrange.
  assert (Ht : Byte.to_N tag = 1 ∨ Byte.to_N tag = 2 ∨ Byte.to_N tag = 3 ∨
               Byte.to_N tag = 4) by lia.
  unfold readerFor, compression_nopool.DecompressData.
  destruct Ht as [Ht|[Ht|[Ht|Ht]]]; intros Hfail; rewrite Ht in *; cbn in *;
    rewrite Hfail; [done|..];
    unfold compression_nopool.gzipMagic; (destruct payload as [|b1 ?]; [done|]);
    rewrite Ht; done.
Qed.

(** ** The LZW frame *)

(** C8, as stated, fails: the MSB-first encoding of the one-byte payload
    [a], framed with tag 4, does not decode to that payload, and it is not
    what [compressLZW] writes. *)
Lemma tag4_is_not_MSB :
  lzw_Writer lzw_only lzw.MSB 8 [x61] = Some [x80; x18; x60; x20] ∧
  compression.DecompressData lzw_only (x04 :: [x80; x18; x60; x20]) ≠ Returns [x61] ∧
  compression.compressLZW lzw_only [x61] ≠ lzw_Writer lzw_only lzw.MSB 8 [x61].
Proof. vm_compute. split_and!; [reflexivity|discriminate|discriminate]. Qed.

Lemma CompressData_tag4 (lib : Codecs) (b rest : list byte) :
  compression.CompressData lib b = uint8 LZW :: rest →
  compression.compressLZW lib b = Some rest.
Proof.
  unfold compression.CompressData. intros H.
  destruct (decide (length b < threshold)%nat) as [Hsmall|Hlarge].
  { rewrite compressWith_small in H by done. discriminate H. }
  destruct (compressWith_large (compression.compressors lib) b)
    as (i & tag & payload & Hi & Heq & _); [lia|].
  rewrite Heq in H.
  apply candidates_inv in Hi as [[-> ->]|(comp & Hin & Hcomp)]; [discriminate H|].
  apply compressors_tags in Hin as [[-> ->]|[[-> ->]|[[-> ->]|[-> ->]]]];
    try discriminate H.
  injection H as <-. done.
Qed.

(** C8, amended. The payload of a tag-4 frame is written and read as LZW
    with LSB-first bit order and 8-bit literals: [compressLZW] is the LSB
    writer, the payload of every tag-4 frame [CompressData] returns is its
    output, and framing that output with tag 4 decodes back to the payload
    whenever the LSB reader inverts the LSB writer on it. *)
Theorem tag4_is_LZW_LSB8 (lib : Codecs) (payload c : list byte) :
  lzw_Writer lib lzw.LSB 8 payload = Some c →
  roundtrips (lzw_Writer lib lzw.LSB 8) (lzw_Reader lib lzw.LSB 8) payload →
  compression.compressLZW lib payload = Some c ∧
  compression.DecompressData lib (uint8 LZW :: c) = Returns payload ∧
  compression_nopool.DecompressData lib (uint8 LZW :: c) = payload ∧
  (∀ rest, compression.CompressData lib payload = uint8 LZW :: rest → rest = c).
Proof.
  intros Hc Hrt. pose proof (Hrt c Hc) as Hread.
  split_and!; [done|cbn; by rewrite Hread|cbn; by rewrite Hread|].
  intros rest Hrest. apply CompressData_tag4 in Hrest.
  unfold compression.compressLZW in Hrest. congruence.
Qed.

Lemma tag4_is_LZW_LSB8_witness :
  compression.compressLZW lzw_only sixty_a
    = Some [x00; xc3; x08; x1c; x48; xb0; xa0; xc1; x83; x08; x13; x2a; x2c; x18; x10] ∧
  compression.DecompressData lzw_only
    (x04 :: [x00; xc3; x08; x1c; x48; xb0; xa0; xc1; x83; x08; x13; x2a; x2c; x18; x10])
    = Returns sixty_a.
Proof.
  assert (Hc : lzw_Writer lzw_only lzw.LSB 8 sixty_a
    = Some [x00; xc3; x08; x1c; x48; xb0; xa0; xc1; x83; x08; x13; x2a; x2c; x18; x10])
    by (vm_compute; reflexivity).
  assert (Hrt : roundtrips (lzw_Writer lzw_only lzw.LSB 8)
                  (lzw_Reader lzw_only lzw.LSB 8) sixty_a).
  { intros c Hc'. vm_compute in Hc'. injection Hc' as <-. vm_compute. reflexivity. }
  destruct (tag4_is_LZW_LSB8 lzw_only sixty_a _ Hc Hrt) as (H1 & H2 & _).
  split; assumption.
Defined.

(** ** The model of [compress/lzw] on the test vectors of the package *)

Example lzw_reader_tobe_LSB :
  lzw.decode lzw.LSB 8
    [x54; x9e; x08; x29; xf2; x44; x8a; x93; x27; x54; x04; x12; x34; xb8; xb0;
     xe0; xc1; x84; x01; x01] = Some tobe.
Proof. vm_compute. reflexivity. Qed.

Example lzw_reader_tobe_MSB :
  lzw.decode lzw.MSB 8
    [x2a; x13; xc8; x44; x52; x79; x48; x9c; x4f; x2a; x40; xa0; x90; x68; x5c;
     x16; x0f; x09; x80; x80] = Some tobe.
Proof. vm_compute. reflexivity. Qed.

Example lzw_reader_empty :
  lzw.decode lzw.LSB 8 [x01; x01] = Some [] ∧ lzw.decode lzw.MSB 8 [x80; x80] = Some [].
Proof. vm_compute. done. Qed.

Example lzw_writer_reader_tobe :
  (lzw.encode lzw.LSB 8 tobe ≫= lzw.decode lzw.LSB 8) = Some tobe ∧
  (lzw.encode lzw.MSB 8 tobe ≫= lzw.decode lzw.MSB 8) = Some tobe.
Proof. vm_compute. done. Qed.

(** ** The secondary index *)

Lemma isTypeHashable_comparable t : isTypeHashable t = true → comparable t = true.
Proof.
  induction t as [k|e IHe|k e IHk IHe| |e IHe|n e IHe|fs IHfs| |e IHe]
    using GoType_nested_ind; cbn; try done.
  intros H. induction IHfs as [|f fs Hf _ IH]; cbn in *; [done|].
  apply andb_prop in H as [H1 H2]. rewrite Hf, IH; done.
Qed.

Lemma isHashable_canBeKey v : isHashable v = true → canBeKey v = true.
Proof. destruct v; [done|]. apply isTypeHashable_comparable. Qed.

Lemma forallb_false {A} (p : A → bool) (l : list A) :
  forallb p l = false ↔ ∃ x, x ∈ l ∧ p x = false.
Proof.
  induction l as [|a l IH]; cbn.
  - split; [done|]. intros (x & Hx & _). by apply elem_of_nil in Hx.
  - rewrite andb_false_iff, IH. split.
    + intros [H|(x & Hx & Hp)].
      * exists a. split; [apply elem_of_cons; by left|done].
      * exists x. split; [apply elem_of_cons; by right|done].
    + intros (x & Hx & Hp). apply elem_of_cons in Hx as [->|Hx]; eauto.
Qed.

(** [isTypeHashable] answers false exactly on the unhashable shapes. *)
Lemma isTypeHashable_false t : isTypeHashable t = false ↔ unhashableShape t.
Proof.
  induction t as [k|e IHe|k e IHk IHe| |e IHe|n e IHe|fs IHfs| |e IHe]
    using GoType_nested_ind; cbn.
  - split; [done|inversion 1].
  - split; [constructor|done].
  - split; [constructor|done].
  - split; [constructor|done].
  - rewrite IHe. split; [by constructor|by inversion 1].
  - rewrite IHe. split; [by constructor|by inversion 1].
  - rewrite forallb_false. rewrite Forall_forall in IHfs. split.
    + intros (f & Hin & Hf). apply (unh_struct _ f); [done|].
      by apply (IHfs f Hin).
    + inversion 1 as [| | | | | | |fs' f Hin Hf]; subst.
      exists f. split; [done|]. by apply (IHfs f Hin).
  - split; [constructor|done].
  - split; [constructor|done].
Qed.

Lemma fieldIndexOf_bucketOf (idx : Index) b n :
  bucketOf idx b !! n = fieldIndexOf idx b n.
Proof. unfold bucketOf, fieldIndexOf. by destruct (idx !! b). Qed.

Lemma fieldIndexOf_set (idx : Index) b n m b' n' :
  fieldIndexOf (setFieldIndex idx b n m) b' n' =
  if decide (b' = b ∧ n' = n) then Some m else fieldIndexOf idx b' n'.
Proof.
  unfold fieldIndexOf at 1, setFieldIndex.
  destruct (decide (b' = b)) as [->|Hb].
  - rewrite lookup_insert_eq. cbn.
    destruct (decide (n' = n)) as [->|Hn].
    + rewrite lookup_insert_eq. by rewrite decide_True.
    + rewrite lookup_insert_ne by done. rewrite fieldIndexOf_bucketOf.
      by rewrite decide_False by tauto.
  - rewrite lookup_insert_ne by done. by rewrite decide_False by tauto.
Qed.

Lemma GetIndexedKeys_alt (idx : Index) b n v :
  GetIndexedKeys idx b n v =
  match fieldIndexOf idx b n with
  | None => Returns None
  | Some fieldIndex => if canBeKey v then Returns (fieldIndex !! v) else Panics
  end.
Proof.
  unfold GetIndexedKeys, fieldIndexOf. destruct (idx !! b) as [bi|]; [|done].
  cbn. by destruct (bi !! n).
Qed.

Lemma GetIndexedKeys_keysOf (idx : Index) b n v :
  canBeKey v = true → GetIndexedKeys idx b n v = Returns (keysOf idx b n v).
Proof.
  intros Hv. rewrite GetIndexedKeys_alt. unfold keysOf.
  destruct (fieldIndexOf idx b n); cbn; [by rewrite Hv|done].
Qed.

Lemma addKey_elem key keys : key ∈ addKey key keys.
Proof.
  unfold addKey. case_decide; [done|].
  apply elem_of_app. right. by apply list_elem_of_singleton.
Qed.

Lemma addKey_idemp key keys : addKey key (addKey key keys) = addKey key keys.
Proof. unfold addKey at 1. by rewrite decide_True by apply addKey_elem. Qed.

Lemma addKey_NoDup key keys : NoDup keys → NoDup (addKey key keys).
Proof.
  intros H. unfold addKey. case_decide; [done|].
  apply NoDup_app. split_and!; [done| |apply NoDup_singleton].
  intros x Hx Hx'. apply list_elem_of_singleton in Hx' as ->. done.
Qed.

Lemma addKey_other key keys k : k ≠ key → k ∈ addKey key keys ↔ k ∈ keys.
Proof.
  intros Hk. unfold addKey. case_decide; [done|].
  rewrite elem_of_app, list_elem_of_singleton. tauto.
Qed.

Lemma updEntry_idemp key val old :
  updEntry key val (updEntry key val old) = updEntry key val old.
Proof.
  unfold updEntry. destruct val as [v|]; [|done].
  destruct (isHashable v); [|done].
  rewrite lookup_insert_eq. cbn. rewrite addKey_idemp. by rewrite insert_insert_eq.
Qed.

Lemma updateField_fieldIndexOf b key m e (idx : Index) f b' n' :
  fieldIndexOf (updateField b key m e idx f) b' n' =
  if decide (b' = b ∧ n' = indexName f)
  then Some (updEntry key (GetFieldValue m e n') (default ∅ (fieldIndexOf idx b n')))
  else fieldIndexOf idx b' n'.
Proof.
  unfold updateField. rewrite fieldIndexOf_bucketOf.
  destruct (fieldIndexOf idx b (indexName f)) as [fi|] eqn:Hfi.
  - destruct (GetFieldValue m e (indexName f)) as [v|] eqn:Hv.
    + destruct (isHashable v) eqn:Hh; cbn.
      * rewrite fieldIndexOf_bucketOf, Hfi. cbn.
        destruct (decide (key ∈ default [] (fi !! v))) as [Hin|Hnin].
        -- case_decide as Hd; [|done]. destruct Hd as [-> ->].
           rewrite Hfi, Hv. cbn. rewrite Hh. f_equal.
           unfold addKey. rewrite decide_True by done.
           destruct (fi !! v) as [keys|] eqn:Hk; cbn in *.
           ++ by rewrite insert_id.
           ++ by apply elem_of_nil in Hin.
        -- rewrite fieldIndexOf_set. case_decide as Hd; [|done].
           destruct Hd as [-> ->]. rewrite Hfi, Hv. cbn. rewrite Hh.
           unfold addKey. by rewrite decide_False by done.
      * case_decide as Hd; [|done]. destruct Hd as [-> ->].
        rewrite Hfi, Hv. cbn. by rewrite Hh.
    + case_decide as Hd; [|done]. destruct Hd as [-> ->]. by rewrite Hfi, Hv.
  - destruct (GetFieldValue m e (indexName f)) as [v|] eqn:Hv.
    + destruct (isHashable v) eqn:Hh; cbn.
      * rewrite fieldIndexOf_bucketOf, fieldIndexOf_set.
        rewrite (decide_True (P := b = b ∧ indexName f = indexName f)) by done.
        cbn. rewrite lookup_empty. cbn.
        rewrite decide_False by apply not_elem_of_nil.
        rewrite fieldIndexOf_set. case_decide as Hd.
        -- destruct Hd as [-> ->]. rewrite Hfi, Hv. cbn. rewrite Hh.
           rewrite lookup_empty. cbn. unfold addKey.
           by rewrite decide_False by apply not_elem_of_nil.
        -- rewrite fieldIndexOf_set. by rewrite decide_False.
      * rewrite fieldIndexOf_set. case_decide as Hd; [|done].
        destruct Hd as [-> ->]. rewrite Hfi, Hv. cbn. by rewrite Hh.
    + rewrite fieldIndexOf_set. case_decide as Hd; [|done].
      destruct Hd as [-> ->]. by rewrite Hfi, Hv.
Qed.

Lemma fold_updateField_fieldIndexOf b key m e fs (idx : Index) b' n' :
  fieldIndexOf (fold_left (updateField b key m e) fs idx) b' n' =
  if decide (b' = b ∧ n' ∈ indexName <$> fs)
  then Some (updEntry key (GetFieldValue m e n') (default ∅ (fieldIndexOf idx b n')))
  else fieldIndexOf idx b' n'.
Proof.
  revert idx. induction fs as [|f fs IH]; intros idx; cbn [fold_left].
  - rewrite decide_False; [done|]. intros [_ H]. by apply elem_of_nil in H.
  - rewrite IH. rewrite !updateField_fieldIndexOf. rewrite fmap_cons.
    destruct (decide (b' = b)) as [->|Hb].
    + destruct (decide (n' = indexName f)) as [->|Hn].
      * rewrite (decide_True (P := b = b ∧ indexName f = indexName f)) by done.
        rewrite (decide_True (P := b = b ∧ indexName f ∈ indexName f :: _))
          by (split; [done|apply elem_of_cons; by left]).
        cbn. rewrite updEntry_idemp. by case_decide.
      * rewrite (decide_False (P := b = b ∧ n' = indexName f)) by tauto.
        destruct (decide (n' ∈ indexName <$> fs)) as [Hin|Hnin].
        -- rewrite decide_True by done.
           by rewrite decide_True by (split; [done|apply elem_of_cons; by right]).
        -- rewrite decide_False by tauto.
           rewrite decide_False; [done|].
           intros [_ H]. apply elem_of_cons in H as [?|?]; done.
    + by rewrite !decide_False by tauto.
Qed.

Lemma UpdateIndex_fieldIndexOf b key e (idx : Index) b' n' :
  fieldIndexOf (UpdateIndex b key e idx) b' n' =
  if decide (b' = b ∧ n' ∈ indexName <$> e)
  then Some (updEntry key (GetFieldValue (GetFieldMatcher e) e n')
               (default ∅ (fieldIndexOf idx b n')))
  else fieldIndexOf idx b' n'.
Proof.
  unfold UpdateIndex. rewrite fold_updateField_fieldIndexOf.
  assert (Hsame : ∀ b0 n0,
    fieldIndexOf (match idx !! b with Some _ => idx | None => <[b:=∅]> idx end) b0 n0
    = fieldIndexOf idx b0 n0).
  { intros b0 n0. destruct (idx !! b) eqn:Hb; [done|].
    unfold fieldIndexOf. destruct (decide (b0 = b)) as [->|Hne].
    - rewrite lookup_insert_eq, Hb. cbn. by rewrite lookup_empty.
    - by rewrite lookup_insert_ne. }
  by rewrite !Hsame.
Qed.

(** The key list under every field value after [UpdateIndex]. *)
Lemma UpdateIndex_keysOf b key e (idx : Index) b' n' v' :
  keysOf (UpdateIndex b key e idx) b' n' v' =
  if decide (b' = b ∧ indexed e n' v')
  then Some (addKey key (default [] (keysOf idx b n' v')))
  else keysOf idx b' n' v'.
Proof.
  unfold keysOf. rewrite UpdateIndex_fieldIndexOf.
  destruct (decide (b' = b ∧ indexed e n' v')) as [[-> (Hin & Hv & Hh)]|Hnot].
  - rewrite decide_True by done. cbn. unfold updEntry. rewrite Hv, Hh.
    rewrite lookup_insert_eq. by destruct (fieldIndexOf idx b n').
  - destruct (decide (b' = b ∧ n' ∈ indexName <$> e)) as [[-> Hin]|Hn]; [|done].
    cbn. unfold updEntry.
    destruct (GetFieldValue (GetFieldMatcher e) e n') as [v|] eqn:Hv;
      [destruct (isHashable v) eqn:Hh|]; try by destruct (fieldIndexOf idx b n').
    destruct (decide (v = v')) as [->|Hne].
    + exfalso. apply Hnot. done.
    + rewrite lookup_insert_ne by done. by destruct (fieldIndexOf idx b n').
Qed.

Lemma wf_empty : wf ∅.
Proof. intros b n v keys H. unfold keysOf, fieldIndexOf in H. by rewrite lookup_empty in H. Qed.

Lemma UpdateIndex_wf b key e (idx : Index) : wf idx → wf (UpdateIndex b key e idx).
Proof.
  intros Hwf b' n' v' keys. rewrite UpdateIndex_keysOf. case_decide as Hd.
  - intros [= <-]. apply addKey_NoDup.
    destruct (keysOf idx b n' v') as [l|] eqn:Hl; cbn; [by eapply Hwf|constructor].
  - apply Hwf.
Qed.

Lemma fold_updateField_bucket b key m e fs (idx : Index) :
  is_Some (idx !! b) → is_Some (fold_left (updateField b key m e) fs idx !! b).
Proof.
  revert idx. induction fs as [|f fs IH]; intros idx Hb; [done|].
  cbn [fold_left]. apply IH. unfold updateField.
  assert (Hset : ∀ i n x, is_Some (setFieldIndex i b n x !! b)).
  { intros. unfold setFieldIndex. rewrite lookup_insert_eq. done. }
  destruct (bucketOf idx b !! indexName f);
    destruct (GetFieldValue m e (indexName f)) as [v|];
    try destruct (isHashable v); cbn; try case_decide; done.
Qed.

Lemma UpdateIndex_bucket b key e (idx : Index) :
  is_Some (UpdateIndex b key e idx !! b).
Proof.
  unfold UpdateIndex. apply fold_updateField_bucket.
  destruct (idx !! b) eqn:Hb; [by rewrite Hb|by rewrite lookup_insert_eq].
Qed.

(** An iteration of the loop changes nothing when the field already has its
    map and the key is already filed under the field's value. *)
Lemma updateField_id b key m e (idx : Index) f fi :
  fieldIndexOf idx b (indexName f) = Some fi →
  (∀ v, GetFieldValue m e (indexName f) = Some v → isHashable v = true →
        key ∈ default [] (fi !! v)) →
  updateField b key m e idx f = idx.
Proof.
  intros Hfi Hkey. unfold updateField. rewrite fieldIndexOf_bucketOf, Hfi.
  destruct (GetFieldValue m e (indexName f)) as [v|]; [|done].
  destruct (isHashable v) eqn:Hh; [|done]. cbn.
  rewrite fieldIndexOf_bucketOf, Hfi. cbn.
  by rewrite decide_True by (by apply Hkey).
Qed.

Lemma fold_updateField_id b key m e fs (idx : Index) :
  (∀ f, f ∈ fs → ∃ fi, fieldIndexOf idx b (indexName f) = Some fi ∧
        ∀ v, GetFieldValue m e (indexName f) = Some v → isHashable v = true →
             key ∈ default [] (fi !! v)) →
  fold_left (updateField b key m e) fs idx = idx.
Proof.
  induction fs as [|f fs IH]; intros H; [done|]. cbn [fold_left].
  destruct (H f) as (fi & Hfi & Hkey); [apply elem_of_cons; by left|].
  rewrite (updateField_id _ _ _ _ _ _ fi) by done.
  apply IH. intros g Hg. apply H. apply elem_of_cons; by right.
Qed.

(** Re-indexing the same record under the same key changes nothing. *)
Lemma UpdateIndex_twice b key e (idx : Index) :
  UpdateIndex b key e (UpdateIndex b key e idx) = UpdateIndex b key e idx.
Proof.
  set (idx' := UpdateIndex b key e idx).
  unfold UpdateIndex at 1. fold idx'.
  destruct (UpdateIndex_bucket b key e idx) as [bi Hbi]. fold idx' in Hbi.
  rewrite Hbi. apply fold_updateField_id. intros f Hf.
  assert (Hin : indexName f ∈ indexName <$> e) by (by apply list_elem_of_fmap_2).
  unfold idx'. rewrite UpdateIndex_fieldIndexOf. rewrite decide_True by done.
  eexists; split; [done|]. intros v Hv Hh. unfold updEntry. rewrite Hv, Hh.
  rewrite lookup_insert_eq. cbn. apply addKey_elem.
Qed.

Lemma UpdateIndex_iter b key e (idx : Index) times :
  Nat.iter (S times) (UpdateIndex b key e) idx = UpdateIndex b key e idx.
Proof.
  induction times as [|times IH]; [done|].
  change (Nat.iter (S (S times)) (UpdateIndex b key e) idx)
    with (UpdateIndex b key e (Nat.iter (S times) (UpdateIndex b key e) idx)).
  rewrite IH. apply UpdateIndex_twice.
Qed.

Lemma NoDup_count_occ_1 (l : list string) (x : string) :
  NoDup l → x ∈ l → count_occ String.string_dec l x = 1%nat.
Proof.
  induction 1 as [|a l Ha Hnd IH]; intros Hx; [by apply elem_of_nil in Hx|].
  cbn. destruct (String.string_dec a x) as [->|Hne].
  - f_equal. apply count_occ_not_In. by rewrite <- list_elem_of_In.
  - apply elem_of_cons in Hx as [->|Hx]; [done|by apply IH].
Qed.

(** The field [x] of the sample record [A] and its value. *)
Lemma indexed_recA_x : indexed recA "x" (intV 1).
Proof.
  split_and!; [|vm_compute; reflexivity|reflexivity].
  apply elem_of_cons. by left.
Qed.

(** Repeated calls, over the values equal to themselves: one call or
    several with the same bucket, key and record give the same index, and
    in it [GetIndexedKeys] finds, for every field name and hashable value
    the record is filed under, the former key list with the key appended
    unless it was there, a list that holds the key exactly once. *)
Lemma UpdateIndex_idempotent (idx : Index) (b key : string) (e : Entity)
    (n : string) (v : Value) (times : nat) :
  wf idx →
  indexed e n v →
  Nat.iter (S times) (UpdateIndex b key e) idx = UpdateIndex b key e idx ∧
  ∃ before keys,
    GetIndexedKeys idx b n v = Returns before ∧
    keys = addKey key (default [] before) ∧
    GetIndexedKeys (Nat.iter (S times) (UpdateIndex b key e) idx) b n v
      = Returns (Some keys) ∧
    count_occ String.string_dec keys key = 1%nat.
Proof.
  intros Hwf Hind. rewrite UpdateIndex_iter. split; [done|].
  assert (Hkey : canBeKey v = true) by apply isHashable_canBeKey, Hind.
  exists (keysOf idx b n v), (addKey key (default [] (keysOf idx b n v))).
  split_and!; [by apply GetIndexedKeys_keysOf|done| |].
  - rewrite GetIndexedKeys_keysOf by done.
    rewrite UpdateIndex_keysOf. by rewrite decide_True.
  - apply NoDup_count_occ_1; [|apply addKey_elem]. apply addKey_NoDup.
    destruct (keysOf idx b n v) as [l|] eqn:Hl; cbn; [by eapply Hwf|constructor].
Qed.

(** *** Removal *)

Lemma removeKey_NoDup key keys : NoDup keys → NoDup (removeKey key keys).
Proof.
  induction 1 as [|k keys Hk Hnd IH]; cbn; [constructor|].
  case_decide; [done|]. constructor; [|done].
  intros Hin. apply Hk. clear -Hin.
  induction keys as [|a keys IH]; cbn in *; [done|].
  case_decide; [apply elem_of_cons; by right|].
  apply elem_of_cons in Hin as [->|Hin]; apply elem_of_cons; [by left|right; by apply IH].
Qed.

Lemma removeKey_not_elem key keys : NoDup keys → key ∉ removeKey key keys.
Proof.
  induction 1 as [|k keys Hk Hnd IH]; cbn; [apply not_elem_of_nil|].
  case_decide as Hd; [by subst|].
  intros Hin. apply elem_of_cons in Hin as [->|Hin]; [done|by apply IH].
Qed.

Lemma removeKey_absent key keys : key ∉ keys → removeKey key keys = keys.
Proof.
  induction keys as [|k keys IH]; cbn; [done|]. intros Hnin.
  rewrite decide_False by (intros ->; apply Hnin, elem_of_cons; by left).
  f_equal. apply IH. intros H. apply Hnin, elem_of_cons; by right.
Qed.

Lemma removeKey_other key keys k : k ≠ key → k ∈ removeKey key keys ↔ k ∈ keys.
Proof.
  intros Hk. induction keys as [|a keys IH]; cbn; [done|].
  case_decide as Hd.
  - subst a. rewrite elem_of_cons. split; [tauto|]. intros [?|?]; done.
  - rewrite !elem_of_cons, IH. done.
Qed.

Lemma removeKey_idemp key keys :
  NoDup keys → removeKey key (removeKey key keys) = removeKey key keys.
Proof. intros H. apply removeKey_absent. by apply removeKey_not_elem. Qed.

Lemma remEntry_NoDupLists key val old :
  NoDupLists old → NoDupLists (remEntry key val old).
Proof.
  intros Hold. unfold remEntry. destruct val as [v|]; [|done].
  destruct (isHashable v); [|done].
  destruct (old !! v) as [keys|] eqn:Hk; [|done].
  case_decide.
  - intros v' keys'. rewrite lookup_delete. case_decide; [done|]. apply Hold.
  - intros v' keys'. rewrite lookup_insert. case_decide.
    + intros [= <-]. apply removeKey_NoDup. by eapply Hold.
    + apply Hold.
Qed.

Lemma remEntry_idemp key val old :
  NoDupLists old → remEntry key val (remEntry key val old) = remEntry key val old.
Proof.
  intros Hold. unfold remEntry. destruct val as [v|]; [|done].
  destruct (isHashable v); [|done].
  destruct (old !! v) as [keys|] eqn:Hk; [|by rewrite Hk].
  case_decide as Hlen.
  - by rewrite lookup_delete_eq.
  - rewrite lookup_insert_eq.
    rewrite removeKey_idemp by (by eapply Hold).
    rewrite decide_False by done. by rewrite insert_insert_eq.
Qed.

Lemma remEntry_lookup key v old :
  isHashable v = true →
  remEntry key (Some v) old !! v = old !! v ≫= pruned key.
Proof.
  intros Hh. unfold remEntry, pruned. rewrite Hh.
  destruct (old !! v) as [keys|] eqn:Hk; cbn; [|done].
  case_decide; [by rewrite lookup_delete_eq|by rewrite lookup_insert_eq].
Qed.

Lemma remEntry_lookup_ne key val old v' :
  val ≠ Some v' ∨ isHashable v' = false →
  remEntry key val old !! v' = old !! v'.
Proof.
  intros Hne. unfold remEntry. destruct val as [v|]; [|done].
  destruct (isHashable v) eqn:Hh; [|done].
  assert (v ≠ v') by (intros ->; destruct Hne; congruence).
  destruct (old !! v) as [keys|]; [|done].
  case_decide; [by rewrite lookup_delete_ne|by rewrite lookup_insert_ne].
Qed.

Lemma removeField_fieldIndexOf b key m e (idx : Index) f b' n' :
  fieldIndexOf (removeField b key m e idx f) b' n' =
  if decide (b' = b ∧ n' = indexName f)
  then remEntry key (GetFieldValue m e n') <$> fieldIndexOf idx b n'
  else fieldIndexOf idx b' n'.
Proof.
  unfold removeField. rewrite fieldIndexOf_bucketOf.
  destruct (fieldIndexOf idx b (indexName f)) as [fi|] eqn:Hfi.
  - unfold remEntry.
    destruct (GetFieldValue m e (indexName f)) as [v|] eqn:Hv.
    + destruct (isHashable v) eqn:Hh; cbn.
      * destruct (fi !! v) as [keys|] eqn:Hk.
        -- destruct (decide (length (removeKey key keys) = 0%nat)) as [Hl|Hl];
             rewrite fieldIndexOf_set; (case_decide as Hd; [|done]);
             destruct Hd as [-> ->]; rewrite Hfi, Hv; cbn; rewrite Hh, Hk.
           ++ by rewrite decide_True.
           ++ by rewrite decide_False.
        -- case_decide as Hd; [|done]. destruct Hd as [-> ->].
           rewrite Hfi, Hv. cbn. by rewrite Hh, Hk.
      * case_decide as Hd; [|done]. destruct Hd as [-> ->].
        rewrite Hfi, Hv. cbn. by rewrite Hh.
    + case_decide as Hd; [|done]. destruct Hd as [-> ->]. by rewrite Hfi, Hv.
  - case_decide as Hd; [|done]. destruct Hd as [-> ->]. by rewrite Hfi.
Qed.

Lemma fold_removeField_fieldIndexOf b key m e fs (idx : Index) b' n' :
  (∀ fi, fieldIndexOf idx b n' = Some fi → NoDupLists fi) →
  fieldIndexOf (fold_left (removeField b key m e) fs idx) b' n' =
  if decide (b' = b ∧ n' ∈ indexName <$> fs)
  then remEntry key (GetFieldValue m e n') <$> fieldIndexOf idx b n'
  else fieldIndexOf idx b' n'.
Proof.
  revert idx. induction fs as [|f fs IH]; intros idx Hnd; cbn [fold_left].
  - rewrite decide_False; [done|]. intros [_ H]. by apply elem_of_nil in H.
  - rewrite IH.
    2:{ intros fi. rewrite removeField_fieldIndexOf.
        destruct (decide (b = b ∧ n' = indexName f)) as [_|_]; [|apply Hnd].
        destruct (fieldIndexOf idx b n') as [fi0|] eqn:Hfi0; cbn; [|done].
        intros [= <-]. apply remEntry_NoDupLists. by apply Hnd. }
    rewrite !removeField_fieldIndexOf. rewrite fmap_cons.
    destruct (decide (b' = b)) as [->|Hb].
    + destruct (decide (n' = indexName f)) as [->|Hn].
      * rewrite (decide_True (P := b = b ∧ indexName f = indexName f)) by done.
        rewrite (decide_True (P := b = b ∧ indexName f ∈ indexName f :: _))
          by (split; [done|apply elem_of_cons; by left]).
        case_decide; [|done].
        destruct (fieldIndexOf idx b (indexName f)) as [fi|] eqn:Hfi; [|done].
        cbn. f_equal. apply remEntry_idemp. by apply Hnd.
      * rewrite (decide_False (P := b = b ∧ n' = indexName f)) by tauto.
        destruct (decide (n' ∈ indexName <$> fs)) as [Hin|Hnin].
        -- rewrite decide_True by done.
           by rewrite decide_True by (split; [done|apply elem_of_cons; by right]).
        -- rewrite decide_False by tauto.
           rewrite decide_False; [done|].
           intros [_ H]. apply elem_of_cons in H as [?|?]; done.
    + by rewrite !decide_False by tauto.
Qed.

Lemma wf_NoDupLists (idx : Index) b n fi :
  wf idx → fieldIndexOf idx b n = Some fi → NoDupLists fi.
Proof.
  intros Hwf Hfi v keys Hk. apply (Hwf b n v). unfold keysOf. by rewrite Hfi.
Qed.

(** The key list under every field value after [RemoveFromIndex]. *)
Lemma RemoveFromIndex_keysOf b key e (idx : Index) b' n' v' :
  wf idx →
  keysOf (RemoveFromIndex b key e idx) b' n' v' =
  if decide (b' = b ∧ indexed e n' v')
  then keysOf idx b n' v' ≫= pruned key
  else keysOf idx b' n' v'.
Proof.
  intros Hwf. unfold RemoveFromIndex.
  destruct (idx !! b) as [bi|] eqn:Hb.
  - unfold keysOf. rewrite fold_removeField_fieldIndexOf
      by (intros fi; by apply wf_NoDupLists).
    destruct (decide (b' = b ∧ indexed e n' v')) as [[-> (Hin & Hv & Hh)]|Hnot].
    + rewrite decide_True by done. rewrite Hv.
      destruct (fieldIndexOf idx b n') as [fi|]; [|done]. cbn.
      by apply remEntry_lookup.
    + destruct (decide (b' = b ∧ n' ∈ indexName <$> e)) as [[-> Hin]|Hn]; [|done].
      destruct (fieldIndexOf idx b n') as [fi|]; [|done]. cbn.
      apply remEntry_lookup_ne.
      destruct (decide (GetFieldValue (GetFieldMatcher e) e n' = Some v')) as [Hv|Hv];
        [|by left].
      right. apply not_true_is_false. intros Hh. apply Hnot. done.
  - case_decide as Hd; [|done]. destruct Hd as [-> _].
    unfold keysOf, fieldIndexOf. by rewrite Hb.
Qed.

Lemma RemoveFromIndex_wf b key e (idx : Index) : wf idx → wf (RemoveFromIndex b key e idx).
Proof.
  intros Hwf b' n' v' keys. rewrite RemoveFromIndex_keysOf by done.
  case_decide as Hd; [|apply Hwf].
  destruct (keysOf idx b n' v') as [l|] eqn:Hl; [|done]. cbn.
  unfold pruned. case_decide; [done|]. intros [= <-].
  apply removeKey_NoDup. by eapply Hwf.
Qed.

(** C7. After [RemoveFromIndex] with the record the key was indexed with,
    [GetIndexedKeys] for each field name and value of the record returns
    the list it returned before with the key removed, so the key is no
    longer in the list; and it returns found=false when removing the key
    leaves the list empty, the entry having been pruned. *)
Theorem RemoveFromIndex_removes (idx : Index) (b key : string) (e : Entity)
    (n : string) (v : Value) :
  wf idx →
  indexed e n v →
  ∃ before,
    GetIndexedKeys idx b n v = Returns before ∧
    GetIndexedKeys (RemoveFromIndex b key e idx) b n v
      = Returns (before ≫= pruned key) ∧
    (∀ keys, GetIndexedKeys (RemoveFromIndex b key e idx) b n v = Returns (Some keys) →
             (key ∉ keys) ∧ (keys ≠ [])) ∧
    (∀ keys, before = Some keys → removeKey key keys = [] →
             GetIndexedKeys (RemoveFromIndex b key e idx) b n v = Returns None).
Proof.
  intros Hwf Hind.
  assert (Hkey : canBeKey v = true) by apply isHashable_canBeKey, Hind.
  assert (Hget : GetIndexedKeys (RemoveFromIndex b key e idx) b n v
                 = Returns (keysOf idx b n v ≫= pruned key)).
  { rewrite GetIndexedKeys_keysOf by done.
    rewrite RemoveFromIndex_keysOf by done. by rewrite decide_True. }
  exists (keysOf idx b n v).
  split_and!; [by apply GetIndexedKeys_keysOf|done| |].
  - intros keys. rewrite Hget. intros [= Hk].
    destruct (keysOf idx b n v) as [l|] eqn:Hl; [|done]. cbn in Hk.
    unfold pruned in Hk. case_decide as Hlen; [done|]. injection Hk as <-.
    split; [apply removeKey_not_elem; by eapply Hwf|].
    intros Hnil. by rewrite Hnil in Hlen.
  - intros keys Hk Hnil. rewrite Hget, Hk. cbn. unfold pruned.
    by rewrite Hnil, decide_True.
Qed.

Lemma wf_idxAB : wf idxAB.
Proof. unfold idxAB. apply UpdateIndex_wf, UpdateIndex_wf, wf_empty. Qed.

Lemma indexed_recA_y : indexed recA "y" (intV 2).
Proof.
  split_and!; [|vm_compute; reflexivity|reflexivity].
  apply elem_of_cons. right. apply elem_of_cons. by left.
Qed.

Lemma RemoveFromIndex_removes_witness :
  ∃ before,
    GetIndexedKeys idxAB "items" "y" (intV 2) = Returns before ∧
    GetIndexedKeys (RemoveFromIndex "items" "A" recA idxAB) "items" "y" (intV 2)
      = Returns (before ≫= pruned "A") ∧
    (∀ keys, GetIndexedKeys (RemoveFromIndex "items" "A" recA idxAB) "items" "y" (intV 2)
               = Returns (Some keys) → ("A"%string ∉ keys) ∧ (keys ≠ [])) ∧
    (∀ keys, before = Some keys → removeKey "A" keys = [] →
             GetIndexedKeys (RemoveFromIndex "items" "A" recA idxAB) "items" "y" (intV 2)
               = Returns None).
Proof.
  exact (RemoveFromIndex_removes idxAB "items" "A" recA "y" (intV 2) wf_idxAB indexed_recA_y).
Defined.

(** On the sample index: removing [A] leaves [B] under [x = 1] and prunes
    the entry of [y = 2]. *)
Example RemoveFromIndex_sample :
  GetIndexedKeys idxAB "items" "x" (intV 1) = Returns (Some ["A"; "B"]%string) ∧
  GetIndexedKeys (RemoveFromIndex "items" "A" recA idxAB) "items" "x" (intV 1)
    = Returns (Some ["B"%string]) ∧
  GetIndexedKeys idxAB "items" "y" (intV 2) = Returns (Some ["A"%string]) ∧
  GetIndexedKeys (RemoveFromIndex "items" "A" recA idxAB) "items" "y" (intV 2)
    = Returns None.
Proof. vm_compute. done. Qed.

(** Indexing a record and removing it with the same record leaves none of
    its entries holding the key. *)
Lemma RemoveFromIndex_after_UpdateIndex (idx : Index) b key e n v :
  wf idx → indexed e n v →
  GetIndexedKeys (RemoveFromIndex b key e (UpdateIndex b key e idx)) b n v
    = Returns (pruned key (addKey key (default [] (keysOf idx b n v)))).
Proof.
  intros Hwf Hind.
  rewrite GetIndexedKeys_keysOf by (apply isHashable_canBeKey, Hind).
  rewrite RemoveFromIndex_keysOf by (by apply UpdateIndex_wf).
  rewrite decide_True by done.
  rewrite UpdateIndex_keysOf. by rewrite decide_True.
Qed.

(** *** The field matcher on records without name clashes

    When no two fields share an index name and no two fields share a Go
    name, the matcher resolves the index name of every field to the value of
    that very field. *)

Lemma buildMatcher_maps i fs m :
  JsonMap (buildMatcher i fs m) = buildMap jsonAlias i fs (JsonMap m) ∧
  FieldMap (buildMatcher i fs m) = buildMap (fun f => Some (Name f)) i fs (FieldMap m).
Proof.
  revert i m. induction fs as [|f fs IH]; intros i m; [done|].
  cbn [buildMatcher buildMap]. destruct (IH (S i)
    {| FieldMap := <[Name f := i]> (FieldMap m);
       JsonMap := match jsonAlias f with
                  | Some t => <[t := i]> (JsonMap m)
                  | None => JsonMap m
                  end |}) as [-> ->].
  done.
Qed.

Lemma buildMap_lookup_absent keyOf i fs m k :
  (∀ f, f ∈ fs → keyOf f ≠ Some k) → buildMap keyOf i fs m !! k = m !! k.
Proof.
  revert i m. induction fs as [|f fs IH]; intros i m H; [done|].
  cbn [buildMap]. rewrite IH by (intros g Hg; apply H, elem_of_cons; by right).
  destruct (keyOf f) as [k'|] eqn:Hk; [|done].
  rewrite lookup_insert_ne; [done|]. intros ->.
  by apply (H f); [apply elem_of_cons; left|].
Qed.

Lemma buildMap_lookup_unique keyOf i fs m k j f :
  fs !! j = Some f → keyOf f = Some k →
  (∀ j' f', fs !! j' = Some f' → keyOf f' = Some k → j' = j) →
  buildMap keyOf i fs m !! k = Some (i + j)%nat.
Proof.
  revert i m j. induction fs as [|g fs IH]; intros i m j Hj Hk Huniq; [done|].
  cbn [buildMap]. destruct j as [|j].
  - cbn in Hj. injection Hj as ->. rewrite Hk.
    rewrite buildMap_lookup_absent.
    + rewrite lookup_insert_eq. f_equal. lia.
    + intros f' Hf' Hk'. apply list_elem_of_lookup in Hf' as [j' Hj'].
      by specialize (Huniq (S j') f' Hj' Hk').
  - cbn in Hj. rewrite (IH (S i) _ j) by
      (try done; intros j' f' Hj' Hk'; by specialize (Huniq (S j') f' Hj' Hk') as [= ->]).
    f_equal. lia.
Qed.

Lemma indexName_alias f t : jsonAlias f = Some t → indexName f = t.
Proof. unfold indexName. by intros ->. Qed.

Lemma indexName_plain f : jsonAlias f = None → indexName f = Name f.
Proof. unfold indexName. by intros ->. Qed.

Lemma GetFieldValue_own_field (e : Entity) i f :
  NoDup (indexName <$> e) → NoDup (Name <$> e) →
  e !! i = Some f →
  GetFieldValue (GetFieldMatcher e) e (indexName f) = Some (fieldValue f).
Proof.
  intros Hidx Hname Hi. unfold GetFieldValue, GetFieldMatcher.
  destruct (buildMatcher_maps 0 e {| FieldMap := ∅; JsonMap := ∅ |}) as [-> ->].
  cbn [FieldMap JsonMap].
  assert (Hsame : ∀ j g, e !! j = Some g → indexName g = indexName f → j = i).
  { intros j g Hj Heq. apply (NoDup_lookup _ _ _ (indexName f) Hidx).
    - rewrite list_lookup_fmap, Hj. cbn. congruence.
    - by rewrite list_lookup_fmap, Hi. }
  destruct (jsonAlias f) as [t|] eqn:Ht.
  - rewrite (indexName_alias f t Ht) in *.
    rewrite (buildMap_lookup_unique jsonAlias 0 e ∅ t i f Hi Ht).
    + cbn. by rewrite Hi.
    + intros j g Hj Hg. apply (Hsame j g Hj). by apply indexName_alias.
  - rewrite (indexName_plain f Ht) in *.
    rewrite buildMap_lookup_absent.
    + rewrite lookup_empty.
      rewrite (buildMap_lookup_unique (fun f => Some (Name f)) 0 e ∅ (Name f) i f Hi eq_refl).
      * cbn. by rewrite Hi.
      * intros j g Hj [= Hg]. apply (NoDup_lookup _ _ _ (Name f) Hname).
        -- rewrite list_lookup_fmap, Hj. cbn. congruence.
        -- by rewrite list_lookup_fmap, Hi.
    + intros g Hg Halias. apply list_elem_of_lookup in Hg as [j Hj].
      assert (j = i) as -> by (apply (Hsame j g Hj); by apply indexName_alias).
      congruence.
Qed.

(** On such a record every field with a hashable value is filed under its
    own index name and value. *)
Lemma indexed_own_field (e : Entity) f :
  NoDup (indexName <$> e) → NoDup (Name <$> e) →
  f ∈ e → isHashable (fieldValue f) = true →
  indexed e (indexName f) (fieldValue f).
Proof.
  intros Hidx Hname Hf Hh. apply list_elem_of_lookup in Hf as [i Hi].
  split_and!; [|by eapply GetFieldValue_own_field|done].
  apply list_elem_of_fmap. exists f. split; [done|].
  by eapply list_elem_of_lookup_2.
Qed.


Lemma reachable_wf idx : reachable idx → wf idx.
Proof.
  induction 1; [apply wf_empty|by apply UpdateIndex_wf|by apply RemoveFromIndex_wf].
Qed.

(** *** Values that hold a NaN *)

Lemma plainIndex_lookup (idx : floats.Index) b :
  floats.plainIndex idx !! b = fmap floats.byValue <$> idx !! b.
Proof. unfold floats.plainIndex. by rewrite lookup_fmap. Qed.

Lemma plainIndex_bucketOf (idx : floats.Index) b :
  bucketOf (floats.plainIndex idx) b = floats.byValue <$> floats.bucketOf idx b.
Proof.
  unfold bucketOf, floats.bucketOf. rewrite plainIndex_lookup.
  destruct (idx !! b); cbn; [done|]. by rewrite fmap_empty.
Qed.

Lemma plainIndex_bucketOf_lookup (idx : floats.Index) b n :
  bucketOf (floats.plainIndex idx) b !! n =
  floats.byValue <$> floats.bucketOf idx b !! n.
Proof. by rewrite plainIndex_bucketOf, lookup_fmap. Qed.

Lemma plainIndex_setFieldIndex (idx : floats.Index) b n m :
  floats.plainIndex (floats.setFieldIndex idx b n m) =
  setFieldIndex (floats.plainIndex idx) b n (floats.byValue m).
Proof.
  unfold floats.setFieldIndex, setFieldIndex. rewrite plainIndex_bucketOf.
  unfold floats.plainIndex. by rewrite !fmap_insert.
Qed.

(** Storing, for a field that has its map, a map with the same entries
    under self-equal keys changes nothing a lookup can reach. *)
Lemma plainIndex_setFieldIndex_same (idx : floats.Index) b n fi m :
  floats.bucketOf idx b !! n = Some fi →
  floats.byValue m = floats.byValue fi →
  floats.plainIndex (floats.setFieldIndex idx b n m) = floats.plainIndex idx.
Proof.
  intros Hfi Hm. rewrite plainIndex_setFieldIndex, Hm. unfold setFieldIndex.
  unfold floats.bucketOf in Hfi. unfold bucketOf.
  destruct (idx !! b) as [bi|] eqn:Hb; rewrite ?Hb in Hfi; cbn in Hfi;
    [|by rewrite lookup_empty in Hfi].
  rewrite plainIndex_lookup, Hb. cbn.
  rewrite (insert_id (floats.byValue <$> bi)) by (by rewrite lookup_fmap, Hfi).
  apply insert_id. by rewrite plainIndex_lookup, Hb.
Qed.

Lemma GetFieldValue_erase m (e : list floats.FField) n :
  GetFieldValue m (floats.erase <$> e) n =
  (fun f => fieldValue (floats.erase f)) <$>
    (match JsonMap m !! n with
     | Some i => e !! i
     | None => match FieldMap m !! n with Some i => e !! i | None => None end
     end).
Proof.
  unfold GetFieldValue.
  destruct (JsonMap m !! n) as [i|]; [|destruct (FieldMap m !! n) as [i|]; [|done]];
    rewrite list_lookup_fmap; by destruct (e !! i).
Qed.

Lemma floats_GetFieldValue_alt m (e : list floats.FField) n :
  floats.GetFieldValue m e n =
  floats.fValue <$>
    (match JsonMap m !! n with
     | Some i => e !! i
     | None => match FieldMap m !! n with Some i => e !! i | None => None end
     end).
Proof.
  unfold floats.GetFieldValue.
  destruct (JsonMap m !! n) as [i|]; [done|]. by destruct (FieldMap m !! n).
Qed.

(** What one iteration of [floats.UpdateIndex] does to the entries a lookup
    can reach is what the iteration of [UpdateIndex] does. *)
Lemma plainIndex_updateField b key m (e : list floats.FField) (idx : floats.Index) f :
  floats.plainIndex (floats.updateField b key m e idx f) =
  updateField b key m (floats.erase <$> e) (floats.plainIndex idx) (floats.erase f).
Proof.
  unfold floats.updateField, updateField.
  set (n := indexName (floats.erase f)).
  rewrite plainIndex_bucketOf_lookup.
  set (idx1 := match floats.bucketOf idx b !! n with
               | Some _ => idx
               | None => floats.setFieldIndex idx b n floats.noEntries
               end).
  assert (H1 : floats.plainIndex idx1 =
               match floats.byValue <$> floats.bucketOf idx b !! n with
               | Some _ => floats.plainIndex idx
               | None => setFieldIndex (floats.plainIndex idx) b n ∅
               end).
  { unfold idx1. destruct (floats.bucketOf idx b !! n); cbn; [done|].
    by rewrite plainIndex_setFieldIndex. }
  rewrite <- H1.
  assert (H2 : is_Some (floats.bucketOf idx1 b !! n)).
  { unfold idx1. destruct (floats.bucketOf idx b !! n) as [fi|] eqn:Hfi; [by rewrite Hfi|].
    unfold floats.bucketOf, floats.setFieldIndex.
    rewrite lookup_insert_eq. cbn. by rewrite lookup_insert_eq. }
  destruct H2 as [fi Hfi]. clearbody idx1. clear H1.
  rewrite GetFieldValue_erase, floats_GetFieldValue_alt.
  destruct (match JsonMap m !! n with
            | Some i => e !! i
            | None => match FieldMap m !! n with Some i => e !! i | None => None end
            end) as [g|]; [|done].
  cbn [fmap option_fmap option_map].
  rewrite plainIndex_bucketOf_lookup, Hfi.
  cbn [fmap option_fmap option_map default]. unfold id.
  destruct g as [gn gt [v|t]]; cbn [floats.fValue floats.erase fieldValue
                                     floats.isHashable floats.mapGet floats.mapSet].
  - destruct (isHashable v); [|done]. cbn [negb].
    case_decide; [done|]. by rewrite plainIndex_setFieldIndex.
  - cbn [isHashable isTypeHashable negb].
    destruct (isTypeHashable t); [|done]. cbn [negb default].
    rewrite decide_False by apply not_elem_of_nil.
    by apply (plainIndex_setFieldIndex_same _ _ _ fi).
Qed.

Lemma plainIndex_fold_updateField b key m (e fs : list floats.FField)
    (idx : floats.Index) :
  floats.plainIndex (fold_left (floats.updateField b key m e) fs idx) =
  fold_left (updateField b key m (floats.erase <$> e)) (floats.erase <$> fs)
    (floats.plainIndex idx).
Proof.
  revert idx. induction fs as [|f fs IH]; intros idx; [done|].
  cbn [fold_left fmap list_fmap]. by rewrite IH, plainIndex_updateField.
Qed.

Lemma plainIndex_UpdateIndex b key (e : list floats.FField) (idx : floats.Index) :
  floats.plainIndex (floats.UpdateIndex b key e idx) =
  UpdateIndex b key (floats.erase <$> e) (floats.plainIndex idx).
Proof.
  unfold floats.UpdateIndex, UpdateIndex. rewrite plainIndex_fold_updateField.
  rewrite plainIndex_lookup. f_equal.
  destruct (idx !! b); cbn; [done|].
  unfold floats.plainIndex. by rewrite fmap_insert, fmap_empty.
Qed.

Lemma plainIndex_removeField b key m (e : list floats.FField) (idx : floats.Index) f :
  floats.plainIndex (floats.removeField b key m e idx f) =
  removeField b key m (floats.erase <$> e) (floats.plainIndex idx) (floats.erase f).
Proof.
  unfold floats.removeField, removeField.
  set (n := indexName (floats.erase f)).
  rewrite plainIndex_bucketOf_lookup.
  destruct (floats.bucketOf idx b !! n) as [fi|] eqn:Hfi; [|done].
  cbn [fmap option_fmap option_map].
  rewrite GetFieldValue_erase, floats_GetFieldValue_alt.
  destruct (match JsonMap m !! n with
            | Some i => e !! i
            | None => match FieldMap m !! n with Some i => e !! i | None => None end
            end) as [g|]; [|done].
  cbn [fmap option_fmap option_map].
  destruct g as [gn gt [v|t]]; cbn [floats.fValue floats.erase fieldValue
                                     floats.isHashable floats.mapGet floats.mapSet
                                     floats.mapDelete].
  - destruct (isHashable v); [|done]. cbn [negb].
    destruct (floats.byValue fi !! v) as [keys|]; [|done].
    case_decide; by rewrite plainIndex_setFieldIndex.
  - cbn [isHashable isTypeHashable negb]. by destruct (isTypeHashable t).
Qed.

Lemma plainIndex_RemoveFromIndex b key (e : list floats.FField) (idx : floats.Index) :
  floats.plainIndex (floats.RemoveFromIndex b key e idx) =
  RemoveFromIndex b key (floats.erase <$> e) (floats.plainIndex idx).
Proof.
  unfold floats.RemoveFromIndex, RemoveFromIndex. rewrite plainIndex_lookup.
  destruct (idx !! b); cbn; [|done].
  generalize (GetFieldMatcher (floats.erase <$> e)). intros m.
  generalize e at 1 3. intros e0.
  revert idx. induction e as [|f fs IH]; intros idx; [done|].
  cbn [fold_left fmap list_fmap]. by rewrite IH, plainIndex_removeField.
Qed.

(** The entries a lookup can reach in an index the program has built make
    an index that [UpdateIndex] and [RemoveFromIndex] build from the empty
    one. *)
Lemma plainIndex_reachable (idx : floats.Index) :
  floats.reachable idx → reachable (floats.plainIndex idx).
Proof.
  induction 1 as [|b key e idx _ IH|b key e idx _ IH].
  - unfold floats.plainIndex. rewrite fmap_empty. constructor.
  - rewrite plainIndex_UpdateIndex. by constructor.
  - rewrite plainIndex_RemoveFromIndex. by constructor.
Qed.

Lemma plainIndex_iter b key (e : list floats.FField) (idx : floats.Index) k :
  floats.plainIndex (Nat.iter k (floats.UpdateIndex b key e) idx) =
  Nat.iter k (UpdateIndex b key (floats.erase <$> e)) (floats.plainIndex idx).
Proof.
  induction k as [|k IH]; [done|]. cbn [Nat.iter nat_rect].
  change (nat_rect _ ?x ?f k) with (Nat.iter k (fun y => f k y) x) at 1.
  cbn. rewrite plainIndex_UpdateIndex. f_equal. exact IH.
Qed.

Lemma floats_GetIndexedKeys_Plain (idx : floats.Index) b n v :
  floats.GetIndexedKeys idx b n (floats.Plain v) =
  GetIndexedKeys (floats.plainIndex idx) b n v.
Proof.
  unfold floats.GetIndexedKeys, GetIndexedKeys. rewrite plainIndex_lookup.
  destruct (idx !! b) as [bi|]; cbn; [|done]. rewrite lookup_fmap.
  by destruct (bi !! n).
Qed.

Lemma floats_indexed_Plain (e : list floats.FField) n v :
  floats.indexed e n (floats.Plain v) → indexed (floats.erase <$> e) n v.
Proof.
  intros (Hn & Hv & Hh). split_and!.
  - by rewrite <- list_fmap_compose.
  - rewrite GetFieldValue_erase. rewrite floats_GetFieldValue_alt in Hv.
    destruct (match JsonMap _ !! n with
              | Some i => e !! i
              | None => match FieldMap _ !! n with Some i => e !! i | None => None end
              end) as [[gn gt gv]|]; [|done].
    cbn in *. by injection Hv as ->.
  - done.
Qed.

Lemma floats_reachable_wf (idx : floats.Index) :
  floats.reachable idx → wf (floats.plainIndex idx).
Proof. intros H. by apply reachable_wf, plainIndex_reachable. Qed.

(** C6, as stated, fails for a field whose value is a NaN.  The record
    [reading] has the field [level], of type [float64], a type
    [isTypeHashable] accepts.  After one call of [UpdateIndex], and after
    two, [GetIndexedKeys] with that field and value reports not found; and
    the second call has added a second entry for the key to the map of the
    field. *)
Lemma UpdateIndex_NaN_not_found :
  floats.indexed floats.reading "level" floats.nanV ∧
  floats.GetIndexedKeys (floats.UpdateIndex "readings" "k1" floats.reading ∅)
    "readings" "level" floats.nanV = Returns None ∧
  floats.GetIndexedKeys
    (Nat.iter 2 (floats.UpdateIndex "readings" "k1" floats.reading) ∅)
    "readings" "level" floats.nanV = Returns None ∧
  floats.underNaN <$>
    floats.bucketOf (Nat.iter 2 (floats.UpdateIndex "readings" "k1" floats.reading) ∅)
      "readings" !! "level"%string
    = Some [["k1"%string]; ["k1"%string]].
Proof.
  split_and!; [|vm_compute; reflexivity..].
  split_and!; [|vm_compute; reflexivity|reflexivity].
  apply elem_of_cons. right. apply elem_of_cons. by left.
Qed.

(** C6, amended. After one call of [UpdateIndex] or several with the same
    bucket, key and record, the entries a lookup can reach are those after
    the first call, and [GetIndexedKeys] finds, for every field name and
    hashable value equal to itself that the record is filed under, the
    former key list with the key appended unless it was there, a list that
    holds the key exactly once; whatever the other fields of the record
    hold. *)
Theorem UpdateIndex_idempotent_self_equal (idx : floats.Index) (b key : string)
    (e : list floats.FField) (n : string) (v : Value) (times : nat) :
  wf (floats.plainIndex idx) →
  floats.indexed e n (floats.Plain v) →
  floats.plainIndex (Nat.iter (S times) (floats.UpdateIndex b key e) idx)
    = floats.plainIndex (floats.UpdateIndex b key e idx) ∧
  ∃ before keys,
    floats.GetIndexedKeys idx b n (floats.Plain v) = Returns before ∧
    keys = addKey key (default [] before) ∧
    floats.GetIndexedKeys (Nat.iter (S times) (floats.UpdateIndex b key e) idx)
      b n (floats.Plain v) = Returns (Some keys) ∧
    count_occ String.string_dec keys key = 1%nat.
Proof.
  intros Hwf Hind. apply floats_indexed_Plain in Hind.
  rewrite !floats_GetIndexedKeys_Plain, plainIndex_iter, plainIndex_UpdateIndex.
  by apply UpdateIndex_idempotent.
Qed.

Lemma UpdateIndex_idempotent_self_equal_witness :
  floats.plainIndex (Nat.iter 3 (floats.UpdateIndex "readings" "k1" floats.reading) ∅)
    = floats.plainIndex (floats.UpdateIndex "readings" "k1" floats.reading ∅) ∧
  ∃ before keys,
    floats.GetIndexedKeys ∅ "readings" "sensor" (floats.Plain (strV "s1"))
      = Returns before ∧
    keys = addKey "k1" (default [] before) ∧
    floats.GetIndexedKeys
      (Nat.iter 3 (floats.UpdateIndex "readings" "k1" floats.reading) ∅)
      "readings" "sensor" (floats.Plain (strV "s1")) = Returns (Some keys) ∧
    count_occ String.string_dec keys "k1"%string = 1%nat.
Proof.
  apply (UpdateIndex_idempotent_self_equal ∅ "readings" "k1" floats.reading
           "sensor" (strV "s1") 2).
  - unfold floats.plainIndex. rewrite fmap_empty. apply wf_empty.
  - split_and!; [|vm_compute; reflexivity|reflexivity].
    apply elem_of_cons. by left.
Defined.

(** ** The indexed query planner *)

Lemma intersectLoop_elem a (bMap : gset string) x :
  x ∈ intersectLoop a bMap ↔ x ∈ a ∧ x ∈ bMap.
Proof.
  revert bMap. induction a as [|item a IH]; intros bMap; cbn.
  - split; [intros H; by apply elem_of_nil in H|intros [H _]; by apply elem_of_nil in H].
  - case_decide as Hin.
    + rewrite !elem_of_cons, IH, elem_of_difference, elem_of_singleton.
      split.
      * intros [->|(Ha & Hb & _)]; [split; [by left|done]|split; [by right|done]].
      * intros [[->|Ha] Hb]; [by left|].
        destruct (decide (x = item)) as [->|Hne]; [by left|by right].
    + rewrite IH, elem_of_cons. split; [intros [? ?]; split; [by right|done]|].
      intros [[->|Ha] Hb]; done.
Qed.

Lemma intersectStringSlices_elem a b x :
  x ∈ intersectStringSlices a b ↔ x ∈ a ∧ x ∈ b.
Proof.
  unfold intersectStringSlices.
  destruct a as [|a0 a]; cbn [length Nat.eqb orb].
  { split; [intros H; by apply elem_of_nil in H|intros [H _]; by apply elem_of_nil in H]. }
  destruct b as [|b0 b]; cbn [length Nat.eqb orb].
  { split; [intros H; by apply elem_of_nil in H|intros [_ H]; by apply elem_of_nil in H]. }
  match goal with |- context [if ?c then (_, _) else _] => destruct c end;
    cbn beta iota; rewrite intersectLoop_elem, elem_of_list_to_set; tauto.
Qed.

Lemma length_eqb_0 {A} (l : list A) : (length l =? 0)%nat = true ↔ l = [].
Proof. destruct l; cbn; split; done. Qed.

(** Probing criteria that are all found: the loop ends early exactly when
    the candidates share no key with all the key lists, and otherwise with
    the keys they share, of which there is at least one. *)
Lemma probeAll_found (idx : Index) b criteria keysets cand :
  Forall2 (found idx b) criteria keysets →
  criteria ≠ [] ∨ cand ≠ [] →
  (probeAll idx b criteria (Some cand) false = Returns EarlyEmpty ∧
   ∀ k, ¬ (k ∈ cand ∧ inAll keysets k)) ∨
  (∃ c, probeAll idx b criteria (Some cand) false = Returns (Candidates (Some c)) ∧
        c ≠ [] ∧
        ∀ k, k ∈ c ↔ k ∈ cand ∧ inAll keysets k).
Proof.
  intros H. revert cand. induction H as [|[f v] keys criteria keysets Hf _ IH];
    intros cand Hne.
  - right. exists cand. split_and!; [done|by destruct Hne|].
    intros k. unfold inAll. rewrite Forall_nil. tauto.
  - cbn [probeAll]. unfold found in Hf. cbn in Hf. rewrite Hf. cbn.
    destruct (length (intersectStringSlices cand keys) =? 0)%nat eqn:Hlen.
    + left. split; [done|]. apply length_eqb_0 in Hlen.
      intros k [Hk Hall]. apply Forall_cons in Hall as [Hkeys _].
      assert (Hin : k ∈ intersectStringSlices cand keys)
        by (by apply intersectStringSlices_elem).
      rewrite Hlen in Hin. by apply elem_of_nil in Hin.
    + assert (Hc : intersectStringSlices cand keys ≠ []).
      { intros Hnil. apply length_eqb_0 in Hnil. congruence. }
      destruct (IH (intersectStringSlices cand keys)) as [[-> Hnone]|(c & -> & Hcne & Hck)];
        [by right| |].
      * left. split; [done|]. intros k [Hk Hall].
        apply Forall_cons in Hall as [Hkeys Hall]. apply (Hnone k).
        split; [by apply intersectStringSlices_elem|done].
      * right. exists c. split_and!; [done|done|].
        intros k. rewrite Hck, intersectStringSlices_elem.
        unfold inAll. rewrite Forall_cons. tauto.
Qed.

Lemma probeAll_app (idx : Index) b pre keysets rest cand :
  Forall2 (found idx b) pre keysets →
  probeAll idx b (pre ++ rest) (Some cand) false =
  match probeAll idx b pre (Some cand) false with
  | Returns (Candidates (Some c)) => probeAll idx b rest (Some c) false
  | r => r
  end.
Proof.
  intros H. revert cand. induction H as [|[f v] keys pre keysets Hf _ IH];
    intros cand; [done|].
  cbn [app probeAll]. unfold found in Hf. cbn in Hf. rewrite Hf. cbn.
  destruct (length (intersectStringSlices cand keys) =? 0)%nat; [done|]. apply IH.
Qed.

Lemma planQuery_first_found (idx : Index) b c1 c2 rest keys1 :
  HasIndex idx b = true → found idx b c1 keys1 →
  planQuery idx b (c1 :: c2 :: rest) =
  match probeAll idx b (c2 :: rest) (Some keys1) false with
  | Panics => Panics
  | Returns EarlyEmpty => Returns (ByKeys [])
  | Returns (Candidates (Some candidateKeys)) => Returns (ByKeys candidateKeys)
  | Returns (Candidates None) => Returns ByScan
  end.
Proof.
  intros Hidx Hf. unfold planQuery. rewrite Hidx. destruct c1 as [f1 v1].
  unfold found in Hf. cbn in Hf.
  change (probeAll idx b ((f1, v1) :: c2 :: rest) None true) with
    (match GetIndexedKeys idx b f1 v1 with
     | Panics => Panics
     | Returns (Some keys) => probeAll idx b (c2 :: rest) (Some keys) false
     | Returns None => Returns (Candidates None)
     end).
  by rewrite Hf.
Qed.

Lemma planQuery_first_not_found (idx : Index) b f v c2 rest :
  HasIndex idx b = true → GetIndexedKeys idx b f v = Returns None →
  planQuery idx b ((f, v) :: c2 :: rest) = Returns ByScan.
Proof.
  intros Hidx Hf. unfold planQuery. rewrite Hidx.
  change (probeAll idx b ((f, v) :: c2 :: rest) None true) with
    (match GetIndexedKeys idx b f v with
     | Panics => Panics
     | Returns (Some keys) => probeAll idx b (c2 :: rest) (Some keys) false
     | Returns None => Returns (Candidates None)
     end).
  by rewrite Hf.
Qed.

Lemma found_HasIndex (idx : Index) b c keys : found idx b c keys → HasIndex idx b = true.
Proof.
  unfold found, GetIndexedKeys, HasIndex. intros H.
  destruct (idx !! b); [by apply bool_decide_eq_true|done].
Qed.

(** C4, as stated, fails for three criteria: with key lists [B] for [x = 1]
    and [D] for [y = 2], and no entry for [z = 9], the query visiting the
    criteria in the order x, y, z returns the empty result from the index
    although the probe of [z] is not found; visiting [z] first, it scans. *)
Lemma planQuery_not_found_without_scan :
  GetIndexedKeys idxBD "items" "z" (intV 9) = Returns None ∧
  planQuery idxBD "items" [("x"%string, intV 1); ("y"%string, intV 2); ("z"%string, intV 9)]
    = Returns (ByKeys []) ∧
  planQuery idxBD "items" [("z"%string, intV 9); ("x"%string, intV 1); ("y"%string, intV 2)]
    = Returns ByScan.
Proof. vm_compute. done. Qed.

(** The scenario of the specification: over [A:{x:1,y:2}] and [B:{x:1,y:3}],
    the query [{x:1, y:2}] returns only [A], in either order of the
    criteria. *)
Lemma FindWhere_example lib jsonDecode numCPU schedule :
  FindWhereInDatabase lib jsonDecode dbAB idxAB "items"
    [("x"%string, intV 1); ("y"%string, intV 2)] recA numCPU schedule
    = Returns ([recA], None) ∧
  FindWhereInDatabase lib jsonDecode dbAB idxAB "items"
    [("y"%string, intV 2); ("x"%string, intV 1)] recA numCPU schedule
    = Returns ([recA], None).
Proof. split; vm_compute; done. Qed.

(** C4, amended. For a query with two or more criteria on an indexed
    bucket: when every probe reports found, the candidate keys are exactly
    the keys common to all the key lists, and the records returned are those
    of the candidates the store can fetch; when a probe is not found, the
    scan is used if at most one criterion was visited before it or if the
    key lists of the criteria visited before it share a key, and otherwise
    the empty result is returned without a scan. *)
Theorem planQuery_multiple_criteria (lib : Codecs)
    (jsonDecode : list byte → option Entity) (db : DB) (idx : Index)
    (b : string) (criteria : Criteria) (sample : Entity)
    (numCPU : nat) (schedule : list Event) :
  HasIndex idx b = true →
  (2 ≤ length criteria)%nat →
  (∀ keysets, Forall2 (found idx b) criteria keysets →
     ∃ ks, planQuery idx b criteria = Returns (ByKeys ks) ∧
           (∀ k, k ∈ ks ↔ inAll keysets k) ∧
           FindWhereInDatabase lib jsonDecode db idx b criteria sample
             numCPU schedule = Returns (fetchAll db b ks, None)) ∧
  (∀ pre f v post keysets,
     criteria = pre ++ (f, v) :: post →
     Forall2 (found idx b) pre keysets →
     GetIndexedKeys idx b f v = Returns None →
     ((length pre ≤ 1)%nat ∨ (∃ k, inAll keysets k) →
        planQuery idx b criteria = Returns ByScan) ∧
     ((2 ≤ length pre)%nat ∧ ¬ (∃ k, inAll keysets k) →
        planQuery idx b criteria = Returns (ByKeys []))).
Proof.
  intros Hidx Hlen. split.
  - intros keysets Hall.
    assert (∃ ks, planQuery idx b criteria = Returns (ByKeys ks) ∧
                  ∀ k, k ∈ ks ↔ inAll keysets k) as (ks & Hplan & Hks).
    { destruct Hall as [|c1 keys1 criteria keysets Hf1 Hall]; [cbn in Hlen; lia|].
      destruct Hall as [|c2 keys2 criteria keysets Hf2 Hall]; [cbn in Hlen; lia|].
      rewrite (planQuery_first_found idx b c1 c2 criteria keys1) by done.
      destruct (probeAll_found idx b (c2 :: criteria) (keys2 :: keysets) keys1)
        as [[-> Hnone]|(c & -> & _ & Hc)]; [by constructor|by left| |].
      - exists []. split; [done|]. intros k. split; [intros H; by apply elem_of_nil in H|].
        intros Hk. exfalso. unfold inAll in Hk. apply Forall_cons in Hk as [Hk1 Hk].
        by apply (Hnone k).
      - exists c. split; [done|]. intros k. rewrite Hc. unfold inAll.
        by rewrite (Forall_cons _ keys1). }
    exists ks. split_and!; [done|done|].
    unfold FindWhereInDatabase. by rewrite Hplan.
  - intros pre f v post keysets -> Hpre Hnf.
    assert (Hrest : ∀ c, probeAll idx b ((f, v) :: post) (Some c) false
                         = Returns (Candidates None)).
    { intros c. cbn [probeAll]. by rewrite Hnf. }
    destruct Hpre as [|c1 keys1 pre keysets Hf1 Hpre].
    { cbn [app]. destruct post as [|p post]; [cbn in Hlen; lia|].
      rewrite planQuery_first_not_found by done. split; [done|]. cbn. lia. }
    cbn [app].
    destruct Hpre as [|c2 keys2 pre keysets Hf2 Hpre].
    { cbn [app]. rewrite (planQuery_first_found idx b c1 (f, v) post keys1) by done.
      rewrite Hrest. split; [done|]. cbn. lia. }
    cbn [app].
    rewrite (planQuery_first_found idx b c1 c2 (pre ++ (f, v) :: post) keys1) by done.
    rewrite (app_comm_cons pre _ c2).
    rewrite (probeAll_app idx b (c2 :: pre) (keys2 :: keysets)) by (by constructor).
    destruct (probeAll_found idx b (c2 :: pre) (keys2 :: keysets) keys1)
      as [[-> Hnone]|(c & -> & Hcne & Hc)]; [by constructor|by left| |].
    + split; [|done].
      intros [Hle|[k Hk]]; [cbn in Hle; lia|]. exfalso.
      unfold inAll in Hk. apply Forall_cons in Hk as [Hk1 Hk]. by apply (Hnone k).
    + rewrite Hrest. split; [done|].
      intros [_ Hno]. exfalso. apply Hno.
      destruct c as [|k c]; [done|]. exists k.
      destruct (proj1 (Hc k)) as [Hk1 Hk]; [apply elem_of_cons; by left|].
      unfold inAll. by apply Forall_cons.
Qed.

Lemma planQuery_multiple_criteria_witness :
  ∃ ks,
    planQuery idxAB "items" [("x"%string, intV 1); ("y"%string, intV 2)]
      = Returns (ByKeys ks) ∧
    (∀ k, k ∈ ks ↔ inAll [["A"%string; "B"%string]; ["A"%string]] k) ∧
    FindWhereInDatabase lzw_only jsonAB dbAB idxAB "items"
      [("x"%string, intV 1); ("y"%string, intV 2)] recA 1%nat []
      = Returns (fetchAll dbAB "items" ks, None).
Proof.
  refine (proj1 (planQuery_multiple_criteria lzw_only jsonAB dbAB idxAB "items"
                   [("x"%string, intV 1); ("y"%string, intV 2)] recA
                   1%nat [] _ _) _ _).
  - vm_compute. reflexivity.
  - cbn. lia.
  - constructor; [vm_compute; reflexivity|].
    constructor; [vm_compute; reflexivity|constructor].
Defined.


(** ** Unhashable fields *)

(** [UpdateIndex] files nothing under a field whose value is of unhashable
    shape: the key lists under that field are those of before, and a lookup
    with a value that can be a map key returns them. *)
Lemma UpdateIndex_skips_unhashable (idx : Index) b key e n v anyValue :
  n ∈ (indexName <$> e) →
  GetFieldValue (GetFieldMatcher e) e n = Some v →
  isHashable v = false →
  keysOf (UpdateIndex b key e idx) b n anyValue = keysOf idx b n anyValue ∧
  GetIndexedKeys (UpdateIndex b key e idx) b n anyValue =
    if canBeKey anyValue then Returns (keysOf idx b n anyValue) else Panics.
Proof.
  intros Hn Hv Hh.
  assert (Hk : keysOf (UpdateIndex b key e idx) b n anyValue = keysOf idx b n anyValue).
  { rewrite UpdateIndex_keysOf. rewrite decide_False; [done|].
    intros (_ & _ & Hv' & Hh'). congruence. }
  split; [done|].
  rewrite GetIndexedKeys_alt. unfold keysOf in Hk.
  rewrite UpdateIndex_fieldIndexOf in *. rewrite decide_True in * by done.
  cbn in Hk. destruct (canBeKey anyValue); [|done]. by rewrite Hk.
Qed.

(** From an empty index, saving records whose field [n] holds an unhashable
    value never makes a lookup under [n] report found. *)
Lemma unhashable_field_never_found b n (saves : list (string * Entity)) anyValue :
  Forall (fun s : string * Entity =>
            ∃ v, n ∈ (indexName <$> s.2) ∧
                 GetFieldValue (GetFieldMatcher s.2) s.2 n = Some v ∧
                 isHashable v = false) saves →
  keysOf (foldr (fun s idx => UpdateIndex b s.1 s.2 idx) ∅ saves) b n anyValue = None.
Proof.
  induction 1 as [|[key e] saves (v & Hn & Hv & Hh) _ IH]; cbn.
  - unfold keysOf, fieldIndexOf. by rewrite lookup_empty.
  - cbn in *. rewrite <- IH.
    apply (UpdateIndex_skips_unhashable _ b key e n v anyValue Hn Hv Hh).
Qed.

(** C9. After the record [post], whose field [tags] holds a slice, has been
    saved, looking that field up with a slice value does not return
    found=false: the map access of [GetIndexedKeys] panics.  A value that
    can be a map key is reported not found. *)
Theorem GetIndexedKeys_unhashable_value_panics :
  isHashable tagsV = false ∧
  GetIndexedKeys (UpdateIndex "posts" "k1" post ∅) "posts" "tags" tagsV = Panics ∧
  GetIndexedKeys (UpdateIndex "posts" "k1" post ∅) "posts" "tags" (strV "a")
    = Returns None.
Proof. vm_compute. done. Qed.

(** ** The scan and its timeouts *)

(** C2. A bucket holds nineteen matching records.  With slow workers, each
    of which takes one value, the producer fills the buffer of the work
    channel and the handoff of the next value times out: the callback
    returns its error to [db.ForEach], and the query returns the records
    handed over before, three times as many as there are workers, and no
    error.  The run in which a worker takes every value as soon as it is
    sent returns the nineteen.  This holds whatever the number of CPUs. *)
Theorem FindWhere_handoff_timeout_partial_result (numCPU : nat) :
  FindWhereInDatabase lzw_only jsonAB dbScan19 ∅ "items" [("x"%string, intV 1)] recA
    (S numCPU) (slowWorkers (numWorkers (S numCPU)))
    = Returns (replicate (numWorkers (S numCPU) * 3) recA, None) ∧
  (∃ s, runScan lzw_only jsonAB (numWorkers (S numCPU) * 2) [("x"%string, intV 1)]
          (GetFieldMatcher recA) (slowWorkers (numWorkers (S numCPU)))
          (startScan (dbForEach dbScan19 "items") (numWorkers (S numCPU))) = Returns s ∧
        forEachError s = Some "timeout writing to work channel"%string) ∧
  FindWhereInDatabase lzw_only jsonAB dbScan19 ∅ "items" [("x"%string, intV 1)] recA
    (S numCPU) (inTurn 19 (numWorkers (S numCPU)))
    = Returns (replicate 19 recA, None).
Proof.
  do 6 (destruct numCPU as [|numCPU];
        [split_and!; [vm_compute; reflexivity|eexists; split; vm_compute; reflexivity
                     |vm_compute; reflexivity]|]).
  split_and!; [vm_compute; reflexivity|eexists; split; vm_compute; reflexivity
              |vm_compute; reflexivity].
Qed.

(** The copy of [bucket/bucket_main.go], with its four workers, drops the
    error of its producer in the same way. *)
Lemma FindWhere_main_handoff_timeout_partial_result :
  bucket_main.FindWhereInDatabase lzw_only jsonAB dbScan19 ∅ "items"
    [("x"%string, intV 1)] recA (slowWorkers 4)
    = Returns (replicate 12 recA, None) ∧
  bucket_main.FindWhereInDatabase lzw_only jsonAB dbScan19 ∅ "items"
    [("x"%string, intV 1)] recA (inTurn 19 4)
    = Returns (replicate 19 recA, None).
Proof. vm_compute. done. Qed.

(** * Further properties of the code *)

(** ** [DecompressData]: panics and untagged data *)

Lemma byte_to_N_inj (a b : byte) : Byte.to_N a = Byte.to_N b → a = b.
Proof.
  intros H. apply (f_equal Byte.of_N) in H. rewrite !Byte.of_to_N in H. congruence.
Qed.

Lemma gzipMagic_not_magic lib b0 rest :
  Byte.to_N b0 ≠ 31 → compression.gzipMagic lib (b0 :: rest) = b0 :: rest.
Proof.
  intros H. unfold compression.gzipMagic. destruct rest as [|b1 rest]; [done|].
  apply N.eqb_neq in H. by rewrite H.
Qed.

Lemma gzipMagic_nopool_not_magic lib b0 rest :
  Byte.to_N b0 ≠ 31 → compression_nopool.gzipMagic lib (b0 :: rest) = b0 :: rest.
Proof.
  intros H. unfold compression_nopool.gzipMagic. destruct rest as [|b1 rest]; [done|].
  apply N.eqb_neq in H. by rewrite H.
Qed.

Lemma DecompressData_Panics_inv lib data :
  compression.DecompressData lib data = Panics → ∃ rest, data = x02 :: rest.
Proof.
  destruct data as [|tag rest]; [done|]. intros H. exists rest. f_equal.
  apply byte_to_N_inj. change (Byte.to_N x02) with 2.
  destruct (N.eqb_spec (Byte.to_N tag) 2) as [|Hne]; [done|]. exfalso.
  unfold compression.DecompressData in H.
  apply N.eqb_neq in Hne. unfold Zlib in H. rewrite Hne in H.
  repeat case_match; done.
Qed.

(** X1. [DecompressData] of [internal/compression] panics on the frames whose
    first byte is 2, the zlib tag, and returns on every other input. *)
Theorem DecompressData_panics_iff_zlib_tag (lib : Codecs) (data : list byte) :
  compression.DecompressData lib data = Panics ↔ ∃ rest, data = x02 :: rest.
Proof.
  split; [apply DecompressData_Panics_inv|].
  intros [rest ->]. apply DecompressData_zlib_panics.
Qed.

(** X2. Data that carries no tag is returned as it is: when the first byte is
    above 4 and is not the first byte of the gzip magic number, as for the
    JSON text of an object or an array, both variants of [DecompressData]
    return their input. *)
Theorem DecompressData_untagged (lib : Codecs) (b0 : byte) (rest : list byte) :
  4 < Byte.to_N b0 → Byte.to_N b0 ≠ 31 →
  compression.DecompressData lib (b0 :: rest) = Returns (b0 :: rest) ∧
  compression_nopool.DecompressData lib (b0 :: rest) = b0 :: rest.
Proof.
  intros Hgt Hne.
  assert (H0 : (Byte.to_N b0 =? 0) = false) by (apply N.eqb_neq; lia).
  assert (H1 : (Byte.to_N b0 =? 1) = false) by (apply N.eqb_neq; lia).
  assert (H4 : (Byte.to_N b0 <=? LZW) = false) by (apply N.leb_gt; unfold LZW; lia).
  split.
  - unfold compression.DecompressData. rewrite H0, H1, H4. cbn [orb].
    by rewrite gzipMagic_not_magic.
  - unfold compression_nopool.DecompressData. rewrite H0, H1, H4. cbn [orb].
    by rewrite gzipMagic_nopool_not_magic.
Qed.

Lemma DecompressData_untagged_witness :
  compression.DecompressData lzw_only [x7b; x7d] = Returns [x7b; x7d] ∧
  compression_nopool.DecompressData lzw_only [x7b; x7d] = [x7b; x7d].
Proof.
  apply (DecompressData_untagged lzw_only x7b [x7d]); vm_compute; [done|discriminate].
Defined.

Lemma lzw_only_roundtrips_sixty_a :
  roundtrips (lzw_Writer lzw_only lzw.LSB 8) (lzw_Reader lzw_only lzw.LSB 8) sixty_a.
Proof. intros c Hc. vm_compute in Hc. injection Hc as <-. vm_compute. reflexivity. Qed.

(** X3. The variant of package [compression] without reader pools gives the
    data back from the frame it built for it, whichever codec won, as soon
    as each of the four codecs reads back what it writes for that data; and
    the frame is at most one byte longer than the data. *)
Theorem CompressData_nopool_roundtrip (lib : Codecs) (b : list byte) :
  roundtrips (compression_nopool.compressGzip lib) (gzip_Reader lib) b →
  roundtrips (compression_nopool.compressZlib lib) (zlib_Reader lib) b →
  roundtrips (compression_nopool.compressFlate lib) (flate_Reader lib) b →
  roundtrips (compression_nopool.compressLZW lib) (lzw_Reader lib lzw.LSB 8) b →
  compression_nopool.DecompressData lib (compression_nopool.CompressData lib b) = b ∧
  (length (compression_nopool.CompressData lib b) ≤ S (length b))%nat.
Proof.
  intros Hgz Hzl Hfl Hlz. split; [by apply DecompressData_CompressData_nopool|].
  unfold compression_nopool.CompressData.
  destruct (decide (length b < threshold)%nat) as [Hsmall|Hlarge].
  { rewrite compressWith_small by done. cbn. lia. }
  destruct (compressWith_large (compression_nopool.compressors lib) b)
    as (i & tag & payload & Hi & -> & Hmin & _); [lia|].
  specialize (Hmin 0%nat (None_, b) eq_refl). cbn in *. lia.
Qed.

Lemma CompressData_nopool_roundtrip_witness :
  compression_nopool.DecompressData lzw_only
    (compression_nopool.CompressData lzw_only sixty_a) = sixty_a ∧
  (length (compression_nopool.CompressData lzw_only sixty_a) ≤ S (length sixty_a))%nat.
Proof.
  refine (CompressData_nopool_roundtrip lzw_only sixty_a _ _ _ _).
  - intros c Hc. discriminate Hc.
  - intros c Hc. discriminate Hc.
  - intros c Hc. discriminate Hc.
  - intros c Hc. vm_compute in Hc. injection Hc as <-. vm_compute. reflexivity.
Defined.

(** ** The field matcher *)

Lemma buildMap_lookup keyOf i fs m k :
  buildMap keyOf i fs m !! k =
  match lastIndex keyOf k fs with
  | Some j => Some (i + j)%nat
  | None => m !! k
  end.
Proof.
  revert i m. induction fs as [|f fs IH]; intros i m; cbn; [done|].
  rewrite IH. destruct (lastIndex keyOf k fs) as [j|]; [f_equal; lia|].
  destruct (keyOf f) as [k'|] eqn:Hk.
  - destruct (decide (Some k' = Some k)) as [[= ->]|Hne].
    + rewrite lookup_insert_eq. f_equal. lia.
    + rewrite lookup_insert_ne by congruence. done.
  - by rewrite decide_False.
Qed.

Lemma lastIndex_last keyOf k fs :
  match lastIndex keyOf k fs with
  | Some j => ∃ f, fs !! j = Some f ∧ last (filter (fun f => keyOf f = Some k) fs) = Some f
  | None => filter (fun f => keyOf f = Some k) fs = []
  end.
Proof.
  induction fs as [|f fs IH]; cbn [lastIndex]; [done|].
  destruct (lastIndex keyOf k fs) as [j|].
  - destruct IH as (g & Hj & Hlast). exists g. split; [done|].
    rewrite filter_cons. destruct (decide (keyOf f = Some k)); [|done].
    destruct (filter _ fs); [done|]. done.
  - rewrite filter_cons, IH. destruct (decide (keyOf f = Some k)); [|done].
    by exists f.
Qed.

(** X4. What the field matcher of a record resolves a key to: the value of
    the last field whose json alias is the key, and when no field has that
    alias, the value of the last field whose Go name is the key; a key that
    is neither is not found. *)
Theorem GetFieldValue_resolves (e : Entity) (key : string) :
  GetFieldValue (GetFieldMatcher e) e key = fieldValue <$> resolveField e key.
Proof.
  unfold GetFieldValue, GetFieldMatcher, resolveField.
  destruct (buildMatcher_maps 0 e {| FieldMap := ∅; JsonMap := ∅ |}) as [-> ->].
  cbn [FieldMap JsonMap]. rewrite !buildMap_lookup, !lookup_empty.
  pose proof (lastIndex_last jsonAlias key e) as Hj.
  pose proof (lastIndex_last (fun f => Some (Name f)) key e) as Hn.
  destruct (lastIndex jsonAlias key e) as [j|].
  - destruct Hj as (f & Hf & ->). cbn. by rewrite Hf.
  - rewrite Hj. cbn.
    assert (Hfilter : filter (fun f => Name f = key) e
                      = filter (fun f => Some (Name f) = Some key) e).
    { apply list_filter_iff. intros f. split; [congruence|by intros [=]]. }
    rewrite Hfilter.
    destruct (lastIndex (fun f => Some (Name f)) key e) as [j|].
    + destruct Hn as (f & Hf & ->). cbn. by rewrite Hf.
    + by rewrite Hn.
Qed.

Lemma MatchesCriteria_cons e c criteria m :
  MatchesCriteria e (c :: criteria) m =
  match GetFieldValue m e c.1 with
  | Some fieldValue => bool_decide (fieldValue = c.2)
  | None => false
  end && MatchesCriteria e criteria m.
Proof. done. Qed.

Lemma MatchesCriteria_true e criteria m :
  MatchesCriteria e criteria m = true ↔
  ∀ k v, (k, v) ∈ criteria → GetFieldValue m e k = Some v.
Proof.
  induction criteria as [|[k v] criteria IH].
  - split; [|done]. intros _ k v H. by apply elem_of_nil in H.
  - rewrite MatchesCriteria_cons, andb_true_iff, IH. cbn. split.
    + intros [Hhd Htl] k' v' Hin. apply elem_of_cons in Hin as [[= -> ->]|Hin].
      * destruct (GetFieldValue m e k); [|done]. by apply bool_decide_eq_true in Hhd as ->.
      * by apply Htl.
    + intros H. split.
      * rewrite (H k v) by (apply elem_of_cons; by left). by apply bool_decide_eq_true.
      * intros k' v' Hin. apply H. apply elem_of_cons. by right.
Qed.

(** X5. [MatchesCriteria] holds exactly when the matcher resolves the key of
    every criterion to the value of the criterion; so the order in which the
    criteria map is visited does not change the answer. *)
Theorem MatchesCriteria_spec (e : Entity) (m : FieldMatcher) (criteria : Criteria) :
  (MatchesCriteria e criteria m = true ↔
     ∀ k v, (k, v) ∈ criteria → GetFieldValue m e k = Some v) ∧
  (∀ criteria', criteria ≡ₚ criteria' →
     MatchesCriteria e criteria' m = MatchesCriteria e criteria m).
Proof.
  split; [apply MatchesCriteria_true|]. intros criteria' Hperm.
  apply eq_true_iff_eq. rewrite !MatchesCriteria_true.
  split; intros H k v Hin; apply H; [by rewrite <- Hperm|by rewrite Hperm].
Qed.

Lemma interfaceNotEqual_key a b :
  canBeKey b = true →
  reflection_part_003.interfaceNotEqual a b = Returns (negb (bool_decide (a = b))).
Proof.
  intros Hb. destruct a as [|ta da], b as [|tb db]; cbn; try done.
  destruct (decide (ta = tb)) as [->|Hne].
  - cbn in Hb. rewrite Hb. f_equal. f_equal. apply bool_decide_ext.
    split; [by intros ->|by intros [=]].
  - f_equal. symmetry. apply negb_true_iff, bool_decide_eq_false. by intros [=].
Qed.

(** X6. The variant of [MatchesCriteria] that compares with [!=] before
    [reflect.DeepEqual] answers as the other one whenever the value of every
    criterion can be compared, and panics on a first criterion whose value
    has the dynamic type of the field when that type cannot be compared, as
    for a slice. *)
Theorem MatchesCriteria_part_003 (e : Entity) (m : FieldMatcher) (criteria : Criteria) :
  (Forall (fun c : string * Value => canBeKey c.2 = true) criteria →
   reflection_part_003.MatchesCriteria e criteria m
     = Returns (MatchesCriteria e criteria m)) ∧
  (∀ k t d d' rest,
     criteria = (k, Val t d) :: rest →
     GetFieldValue m e k = Some (Val t d') →
     comparable t = false →
     reflection_part_003.MatchesCriteria e criteria m = Panics).
Proof.
  split.
  - induction 1 as [|[k v] criteria Hkey _ IH]; [done|].
    rewrite MatchesCriteria_cons. cbn [reflection_part_003.MatchesCriteria].
    unfold GetFieldValue. cbn [fst snd].
    destruct (match JsonMap m !! k with
              | Some idx => fieldValue <$> e !! idx
              | None => match FieldMap m !! k with
                        | Some idx => fieldValue <$> e !! idx
                        | None => None
                        end
              end) as [fv|]; [|done].
    rewrite interfaceNotEqual_key by done.
    destruct (bool_decide (fv = v)); cbn; [apply IH|done].
  - intros k t d d' rest -> Hget Hcmp. cbn [reflection_part_003.MatchesCriteria].
    unfold GetFieldValue in Hget. rewrite Hget. cbn.
    rewrite decide_True by done. by rewrite Hcmp.
Qed.

(** ** The index: what saving and deleting leave alone *)

Lemma setFieldIndex_lookup_ne (idx : Index) b n m b' :
  b' ≠ b → setFieldIndex idx b n m !! b' = idx !! b'.
Proof. intros H. unfold setFieldIndex. by rewrite lookup_insert_ne. Qed.

Lemma updateField_lookup_ne b key m e (idx : Index) f b' :
  b' ≠ b → updateField b key m e idx f !! b' = idx !! b'.
Proof.
  intros H. unfold updateField.
  repeat case_match; rewrite ?setFieldIndex_lookup_ne by done; done.
Qed.

Lemma removeField_lookup_ne b key m e (idx : Index) f b' :
  b' ≠ b → removeField b key m e idx f !! b' = idx !! b'.
Proof.
  intros H. unfold removeField.
  repeat case_match; rewrite ?setFieldIndex_lookup_ne by done; done.
Qed.

Lemma UpdateIndex_lookup_ne b key e (idx : Index) b' :
  b' ≠ b → UpdateIndex b key e idx !! b' = idx !! b'.
Proof.
  intros H. unfold UpdateIndex.
  set (idx0 := match idx !! b with Some _ => idx | None => <[b:=∅]> idx end).
  assert (H0 : idx0 !! b' = idx !! b').
  { unfold idx0. destruct (idx !! b); [done|]. by rewrite lookup_insert_ne. }
  rewrite <- H0. generalize idx0. generalize (GetFieldMatcher e). generalize e at 1.
  intros e0 m. induction e as [|f fs IH]; intros idx1; cbn; [done|].
  by rewrite IH, updateField_lookup_ne.
Qed.

Lemma RemoveFromIndex_lookup_ne b key e (idx : Index) b' :
  b' ≠ b → RemoveFromIndex b key e idx !! b' = idx !! b'.
Proof.
  intros H. unfold RemoveFromIndex. destruct (idx !! b); [|done].
  generalize idx. generalize (GetFieldMatcher e). generalize e at 1.
  intros e0 m. induction e as [|f fs IH]; intros idx1; cbn; [done|].
  by rewrite IH, removeField_lookup_ne.
Qed.

Lemma removeField_bucket b key m e (idx : Index) f b' :
  is_Some (removeField b key m e idx f !! b') ↔ is_Some (idx !! b').
Proof.
  destruct (decide (b' = b)) as [->|Hne]; [|by rewrite removeField_lookup_ne].
  unfold removeField. unfold bucketOf.
  destruct (idx !! b) as [bi|] eqn:Hb; cbn.
  - repeat case_match; unfold setFieldIndex; rewrite ?lookup_insert_eq, ?Hb; done.
  - rewrite lookup_empty. by rewrite Hb.
Qed.

Lemma RemoveFromIndex_bucket b key e (idx : Index) b' :
  is_Some (RemoveFromIndex b key e idx !! b') ↔ is_Some (idx !! b').
Proof.
  unfold RemoveFromIndex. destruct (idx !! b); [|done].
  generalize idx. generalize (GetFieldMatcher e). generalize e at 1.
  intros e0 m. induction e as [|f fs IH]; intros idx1; cbn; [done|].
  by rewrite IH, removeField_bucket.
Qed.

(** X7. The indexes of two buckets are separate: saving or deleting a record
    of bucket [b] changes neither the answer of [HasIndex] nor any answer of
    [GetIndexedKeys] for another bucket. *)
Theorem index_buckets_are_separate (idx : Index) (b key : string) (e : Entity)
    (b' : string) :
  b' ≠ b →
  HasIndex (UpdateIndex b key e idx) b' = HasIndex idx b' ∧
  HasIndex (RemoveFromIndex b key e idx) b' = HasIndex idx b' ∧
  (∀ n v, GetIndexedKeys (UpdateIndex b key e idx) b' n v = GetIndexedKeys idx b' n v) ∧
  (∀ n v, GetIndexedKeys (RemoveFromIndex b key e idx) b' n v
          = GetIndexedKeys idx b' n v).
Proof.
  intros H. unfold HasIndex, GetIndexedKeys.
  rewrite UpdateIndex_lookup_ne, RemoveFromIndex_lookup_ne by done. done.
Qed.

Lemma index_buckets_are_separate_witness :
  HasIndex (UpdateIndex "items" "A" recA ∅) "posts" = HasIndex ∅ "posts" ∧
  HasIndex (RemoveFromIndex "items" "A" recA ∅) "posts" = HasIndex ∅ "posts" ∧
  (∀ n v, GetIndexedKeys (UpdateIndex "items" "A" recA ∅) "posts" n v
          = GetIndexedKeys ∅ "posts" n v) ∧
  (∀ n v, GetIndexedKeys (RemoveFromIndex "items" "A" recA ∅) "posts" n v
          = GetIndexedKeys ∅ "posts" n v).
Proof. apply (index_buckets_are_separate ∅ "items" "A" recA "posts"). done. Defined.

(** A bucket that has an index keeps it: [HasIndex] is true for the bucket
    of a save from then on, and no delete makes it false again. *)
Lemma HasIndex_stays (idx : Index) (b key : string) (e : Entity) (b' : string) :
  HasIndex (UpdateIndex b key e idx) b = true ∧
  (HasIndex idx b' = true → HasIndex (UpdateIndex b key e idx) b' = true) ∧
  HasIndex (RemoveFromIndex b key e idx) b' = HasIndex idx b'.
Proof.
  unfold HasIndex. split_and!.
  - apply bool_decide_eq_true, UpdateIndex_bucket.
  - intros H. destruct (decide (b' = b)) as [->|Hne].
    + apply bool_decide_eq_true, UpdateIndex_bucket.
    + by rewrite UpdateIndex_lookup_ne.
  - apply bool_decide_ext, RemoveFromIndex_bucket.
Qed.

(** X8. [UpdateIndex] only appends: a key list found before a save is found
    after it, in the same order, with at most the saved key added at its
    end. *)
Theorem UpdateIndex_extends (idx : Index) (b key : string) (e : Entity)
    (b' n : string) (v : Value) (keys : list string) :
  keysOf idx b' n v = Some keys →
  ∃ suffix,
    keysOf (UpdateIndex b key e idx) b' n v = Some (keys ++ suffix) ∧
    (suffix = [] ∨ (suffix = [key] ∧ key ∉ keys)).
Proof.
  intros H. rewrite UpdateIndex_keysOf.
  destruct (decide (b' = b ∧ indexed e n v)) as [[-> _]|_].
  - rewrite H. cbn. unfold addKey. destruct (decide (key ∈ keys)).
    + exists []. rewrite app_nil_r. auto.
    + exists [key]. auto.
  - exists []. rewrite app_nil_r. auto.
Qed.

Lemma UpdateIndex_extends_witness :
  ∃ suffix,
    keysOf (UpdateIndex "items" "B" recB (UpdateIndex "items" "A" recA ∅))
      "items" "x" (intV 1) = Some (["A"%string] ++ suffix) ∧
    (suffix = [] ∨ (suffix = ["B"%string] ∧ "B"%string ∉ ["A"%string])).
Proof.
  apply (UpdateIndex_extends (UpdateIndex "items" "A" recA ∅) "items" "B" recB
           "items" "x" (intV 1) ["A"%string]).
  vm_compute. reflexivity.
Defined.

(** ** The index: entries that outlive the value they were filed under *)

(** X9. [UpdateIndex] never retracts an entry.  When a record is saved
    again under its key with other field values, the key stays listed under
    the value the first save filed it under, and a query on that value takes
    the index path and is answered with the key, whatever the record now
    holds. *)
Theorem UpdateIndex_keeps_stale_entry (idx : Index) (b key : string)
    (e1 e2 : Entity) (n : string) (v1 : Value) :
  indexed e1 n v1 →
  ∃ keys,
    planQuery (UpdateIndex b key e2 (UpdateIndex b key e1 idx)) b [(n, v1)]
      = Returns (ByKeys keys) ∧
    key ∈ keys.
Proof.
  intros Hind.
  assert (Hkey : canBeKey v1 = true) by apply isHashable_canBeKey, Hind.
  assert (Hfirst : keysOf (UpdateIndex b key e1 idx) b n v1
                   = Some (addKey key (default [] (keysOf idx b n v1)))).
  { rewrite UpdateIndex_keysOf. by rewrite decide_True. }
  assert (Hhas : HasIndex (UpdateIndex b key e2 (UpdateIndex b key e1 idx)) b = true).
  { apply bool_decide_eq_true, UpdateIndex_bucket. }
  exists (addKey key (default [] (keysOf idx b n v1))). split; [|apply addKey_elem].
  unfold planQuery. rewrite Hhas, GetIndexedKeys_keysOf by done.
  rewrite UpdateIndex_keysOf, Hfirst.
  destruct (decide (b = b ∧ indexed e2 n v1)); [|done].
  change (default [] (Some (addKey key (default [] (keysOf idx b n v1)))))
    with (addKey key (default [] (keysOf idx b n v1))).
  by rewrite addKey_idemp.
Qed.

Lemma UpdateIndex_keeps_stale_entry_witness :
  ∃ keys,
    planQuery (UpdateIndex "items" "A" recD (UpdateIndex "items" "A" recA ∅))
      "items" [("x"%string, intV 1)] = Returns (ByKeys keys) ∧
    "A"%string ∈ keys.
Proof.
  apply (UpdateIndex_keeps_stale_entry ∅ "items" "A" recA recD "x" (intV 1)).
  apply indexed_recA_x.
Defined.

(** ** The index: deleting what was just saved *)

Lemma pruned_not_empty key keys : pruned key keys ≠ Some [].
Proof.
  unfold pruned. destruct (decide (length (removeKey key keys) = 0%nat)) as [|Hne];
    [done|]. intros [= H]. by rewrite H in Hne.
Qed.

Lemma addKey_not_empty key keys : addKey key keys ≠ [].
Proof.
  unfold addKey. destruct (decide (key ∈ keys)) as [Hin|_].
  - intros ->. by apply elem_of_nil in Hin.
  - by destruct keys.
Qed.

Lemma reachable_noEmptyLists idx : reachable idx → noEmptyLists idx.
Proof.
  induction 1 as [|b key e idx Hr IH|b key e idx Hr IH]; intros b' n v.
  - done.
  - rewrite UpdateIndex_keysOf. destruct (decide _); [|apply IH].
    intros [= H]. by apply addKey_not_empty in H.
  - rewrite RemoveFromIndex_keysOf by by apply reachable_wf.
    destruct (decide _); [|apply IH].
    destruct (keysOf idx b n v); cbn; [apply pruned_not_empty|done].
Qed.

Lemma removeKey_app_last key keys :
  key ∉ keys → removeKey key (keys ++ [key]) = keys.
Proof.
  induction keys as [|k ks IH]; intros Hin; cbn.
  - by rewrite decide_True.
  - rewrite decide_False; [|intros ->; apply Hin, elem_of_cons; by left].
    rewrite IH; [done|]. intros H. apply Hin, elem_of_cons. by right.
Qed.

(** X10. Deleting a record that was just saved under a key the index did not
    list restores the index as far as lookups go: every key list is what it
    was before the save, those the save created are gone again, and
    [GetIndexedKeys] answers every query on a value that can be a map key as
    it did before. *)
Theorem RemoveFromIndex_undoes_UpdateIndex (idx : Index) (b key : string) (e : Entity) :
  reachable idx →
  freshKey idx b key →
  ∀ b' n v,
    keysOf (RemoveFromIndex b key e (UpdateIndex b key e idx)) b' n v
      = keysOf idx b' n v ∧
    (canBeKey v = true →
     GetIndexedKeys (RemoveFromIndex b key e (UpdateIndex b key e idx)) b' n v
       = GetIndexedKeys idx b' n v).
Proof.
  intros Hr Hfresh b' n v.
  assert (Hkeys : keysOf (RemoveFromIndex b key e (UpdateIndex b key e idx)) b' n v
                  = keysOf idx b' n v).
  { rewrite RemoveFromIndex_keysOf by by apply UpdateIndex_wf, reachable_wf.
    rewrite !UpdateIndex_keysOf.
    destruct (decide (b' = b ∧ indexed e n v)) as [[-> Hind]|Hno].
    - rewrite decide_True by done. cbn.
      pose proof (reachable_noEmptyLists idx Hr b n v) as Hne.
      specialize (Hfresh n v).
      destruct (keysOf idx b n v) as [keys|]; cbn.
      + specialize (Hfresh keys eq_refl). unfold addKey.
        rewrite (decide_False (P := key ∈ keys)) by done. unfold pruned.
        rewrite removeKey_app_last by done.
        rewrite decide_False; [done|]. destruct keys; [done|]. cbn. lia.
      + unfold addKey. rewrite (decide_False (P := key ∈ [])) by apply not_elem_of_nil.
        unfold pruned. rewrite (removeKey_app_last key []) by apply not_elem_of_nil.
        by rewrite decide_True.
    - done. }
  split; [done|]. intros Hkey. by rewrite !GetIndexedKeys_keysOf, Hkeys.
Qed.

(** ** The index built by a run of saves *)

Lemma indexAfter_cons b s saves (idx : Index) :
  indexAfter b (s :: saves) idx = indexAfter b saves (UpdateIndex b s.1 s.2 idx).
Proof. done. Qed.

Lemma indexAfter_elem b saves (idx : Index) n v k :
  k ∈ default [] (keysOf (indexAfter b saves idx) b n v) ↔
  k ∈ default [] (keysOf idx b n v) ∨ ∃ e, (k, e) ∈ saves ∧ indexed e n v.
Proof.
  revert idx. induction saves as [|[k0 e0] saves IH]; intros idx.
  - cbn. split; [auto|]. intros [H|(e & H & _)]; [done|]. by apply elem_of_nil in H.
  - rewrite indexAfter_cons, IH. cbn [fst snd]. rewrite UpdateIndex_keysOf.
    destruct (decide (b = b ∧ indexed e0 n v)) as [[_ Hind]|Hno]; cbn [default].
    + split.
      * intros [H|(e & H & He)].
        -- destruct (decide (k = k0)) as [->|Hne].
           ++ right. exists e0. split; [apply elem_of_cons; by left|done].
           ++ left. by apply addKey_other in H.
        -- right. exists e. split; [apply elem_of_cons; by right|done].
      * intros [H|(e & H & He)].
        -- left. destruct (decide (k = k0)) as [->|Hne]; [apply addKey_elem|].
           by apply addKey_other.
        -- apply elem_of_cons in H as [[= -> ->]|H].
           ++ left. apply addKey_elem.
           ++ right. by exists e.
    + split.
      * intros [H|(e & H & He)]; [by left|].
        right. exists e. split; [apply elem_of_cons; by right|done].
      * intros [H|(e & H & He)]; [by left|].
        apply elem_of_cons in H as [[= -> ->]|H]; [tauto|].
        right. by exists e.
Qed.

Lemma indexAfter_reachable b saves idx : reachable idx → reachable (indexAfter b saves idx).
Proof.
  revert idx. induction saves as [|s saves IH]; intros idx H; [done|].
  cbn. apply IH. by apply reach_update.
Qed.

(** X11. The index built by a run of saves into a bucket, starting from the
    empty index, lists a key under a field name and a value exactly when
    some save of that key had the record filed under that name and value;
    and no key list holds a key twice. *)
Theorem indexAfter_lists_saved_keys (b : string) (saves : list (string * Entity))
    (n : string) (v : Value) :
  (∀ k, k ∈ default [] (keysOf (indexAfter b saves ∅) b n v) ↔
        ∃ e, (k, e) ∈ saves ∧ indexed e n v) ∧
  NoDup (default [] (keysOf (indexAfter b saves ∅) b n v)).
Proof.
  split.
  - intros k. rewrite indexAfter_elem. cbn. split; [|auto].
    intros [H|H]; [by apply elem_of_nil in H|done].
  - destruct (keysOf (indexAfter b saves ∅) b n v) as [keys|] eqn:Hk; cbn;
      [|constructor].
    eapply (reachable_wf (indexAfter b saves ∅)); [|done].
    apply indexAfter_reachable, reach_empty.
Qed.

Lemma freshKey_indexAfter b saves key :
  key ∉ saves.*1 → freshKey (indexAfter b saves ∅) b key.
Proof.
  intros Hnot n v keys Hk Hin.
  pose proof (indexAfter_elem b saves ∅ n v key) as Helem.
  rewrite Hk in Helem. apply Helem in Hin as [Hin|(e & Hin & _)].
  - by apply elem_of_nil in Hin.
  - apply Hnot. apply list_elem_of_fmap. by exists (key, e).
Qed.

Lemma RemoveFromIndex_undoes_UpdateIndex_witness :
  keysOf (RemoveFromIndex "items" "D" recD (UpdateIndex "items" "D" recD idxAB))
    "items" "x" (intV 2) = keysOf idxAB "items" "x" (intV 2) ∧
  (canBeKey (intV 2) = true →
   GetIndexedKeys (RemoveFromIndex "items" "D" recD (UpdateIndex "items" "D" recD idxAB))
     "items" "x" (intV 2) = GetIndexedKeys idxAB "items" "x" (intV 2)).
Proof.
  apply (RemoveFromIndex_undoes_UpdateIndex idxAB "items" "D" recD).
  - unfold idxAB. apply reach_update, reach_update, reach_empty.
  - apply (freshKey_indexAfter "items" [("A"%string, recA); ("B"%string, recB)] "D").
    cbn. intros H. repeat (apply elem_of_cons in H as [H|H]; [discriminate H|]).
    by apply elem_of_nil in H.
Defined.

(** ** The index path of a query answers as the records were saved *)

Lemma GetIndexedKeys_found_listed (idx : Index) b c keys :
  GetIndexedKeys idx b c.1 c.2 = Returns (Some keys) → listedUnder idx b c = keys.
Proof.
  rewrite GetIndexedKeys_alt. unfold listedUnder, keysOf.
  destruct (fieldIndexOf idx b c.1) as [fi|]; [|done].
  destruct (canBeKey c.2); [|done]. cbn. by intros [= ->].
Qed.

Lemma probeAll_sound (idx : Index) b criteria cand r :
  probeAll idx b criteria (Some cand) false = Returns r →
  match r with
  | EarlyEmpty =>
      ∀ k, ¬ (k ∈ cand ∧ Forall (fun c => k ∈ listedUnder idx b c) criteria)
  | Candidates (Some ks) =>
      ∀ k, k ∈ ks ↔ k ∈ cand ∧ Forall (fun c => k ∈ listedUnder idx b c) criteria
  | Candidates None => True
  end.
Proof.
  revert cand r. induction criteria as [|[f v] criteria IH]; intros cand r.
  - cbn [probeAll]. intros [= <-]. intros k. split; [auto|tauto].
  - cbn [probeAll].
    destruct (GetIndexedKeys idx b f v) as [[keys|]|] eqn:Hget; [| |done].
    + apply (GetIndexedKeys_found_listed idx b (f, v)) in Hget.
      change (default [] (Some cand)) with cand.
      destruct (length (intersectStringSlices cand keys) =? 0)%nat eqn:Hlen; cbv iota.
      * intros [= <-]. intros k [Hc Hall]. apply Forall_cons in Hall as [Hk _].
        rewrite Hget in Hk. apply length_eqb_0 in Hlen.
        assert (Hin : k ∈ intersectStringSlices cand keys)
          by by apply intersectStringSlices_elem.
        rewrite Hlen in Hin. by apply elem_of_nil in Hin.
      * intros Hr. apply IH in Hr. destruct r as [|[ks|]]; [| |done].
        -- intros k [Hc Hall]. apply Forall_cons in Hall as [Hk Hall].
           rewrite Hget in Hk. apply (Hr k). split; [|done].
           by apply intersectStringSlices_elem.
        -- intros k. rewrite Hr, intersectStringSlices_elem, Forall_cons, Hget. tauto.
    + by intros [= <-].
Qed.

Lemma saved_once (saves : list (string * Entity)) k e1 e2 :
  NoDup saves.*1 → (k, e1) ∈ saves → (k, e2) ∈ saves → e1 = e2.
Proof.
  induction saves as [|[k0 e0] saves IH]; intros Hnd H1 H2.
  - by apply elem_of_nil in H1.
  - cbn in Hnd. apply NoDup_cons in Hnd as [Hk0 Hnd].
    apply elem_of_cons in H1 as [H1|H1]; apply elem_of_cons in H2 as [H2|H2].
    + congruence.
    + injection H1 as -> ->. exfalso. apply Hk0. apply list_elem_of_fmap.
      by exists (k0, e2).
    + injection H2 as -> ->. exfalso. apply Hk0. apply list_elem_of_fmap.
      by exists (k0, e1).
    + by apply IH.
Qed.

Lemma listed_by_all_criteria b saves criteria k :
  NoDup saves.*1 → criteria ≠ [] →
  Forall (fun c => k ∈ listedUnder (indexAfter b saves ∅) b c) criteria ↔
  ∃ e, (k, e) ∈ saves ∧ Forall (fun c : string * Value => indexed e c.1 c.2) criteria.
Proof.
  intros Hnd Hne.
  assert (Hone : ∀ c, k ∈ listedUnder (indexAfter b saves ∅) b c ↔
                      ∃ e, (k, e) ∈ saves ∧ indexed e c.1 c.2).
  { intros c. unfold listedUnder. rewrite indexAfter_elem. cbn. split; [|auto].
    intros [H|H]; [by apply elem_of_nil in H|done]. }
  split.
  - destruct criteria as [|c0 criteria]; [done|]. intros Hall.
    apply Forall_cons in Hall as [H0 Hall]. apply Hone in H0 as (e & Hin & H0).
    exists e. split; [done|]. apply Forall_cons. split; [done|].
    eapply Forall_impl; [apply Hall|]. intros c Hc. cbn in Hc.
    apply Hone in Hc as (e' & Hin' & Hc).
    by rewrite (saved_once saves k e e' Hnd Hin Hin').
  - intros (e & Hin & Hall). eapply Forall_impl; [apply Hall|].
    intros c Hc. apply Hone. by exists e.
Qed.

Lemma planQuery_ByKeys_listed (idx : Index) b criteria ks :
  planQuery idx b criteria = Returns (ByKeys ks) →
  criteria ≠ [] ∧
  ∀ k, k ∈ ks ↔ Forall (fun c => k ∈ listedUnder idx b c) criteria.
Proof.
  unfold planQuery. destruct (HasIndex idx b); [|done].
  destruct criteria as [|[f1 v1] [|c2 criteria]]; [done| |].
  - destruct (GetIndexedKeys idx b f1 v1) as [[keys|]|] eqn:Hget; [|done..].
    intros [= <-]. split; [done|].
    apply (GetIndexedKeys_found_listed idx b (f1, v1)) in Hget.
    intros k. rewrite Forall_cons, Hget. rewrite Forall_nil. tauto.
  - change (probeAll idx b ((f1, v1) :: c2 :: criteria) None true)
      with (match GetIndexedKeys idx b f1 v1 with
            | Panics => Panics
            | Returns (Some keys) => probeAll idx b (c2 :: criteria) (Some keys) false
            | Returns None => Returns (Candidates None)
            end).
    destruct (GetIndexedKeys idx b f1 v1) as [[keys|]|] eqn:Hget; [|done..].
    apply (GetIndexedKeys_found_listed idx b (f1, v1)) in Hget.
    destruct (probeAll idx b (c2 :: criteria) (Some keys) false) as [r|] eqn:Hr;
      [|done].
    apply probeAll_sound in Hr. intros Hplan. split; [done|]. intros k.
    rewrite (Forall_cons _ (f1, v1)), Hget.
    destruct r as [|[cs|]]; [| |done].
    + injection Hplan as <-. split; [intros H; by apply elem_of_nil in H|].
      intros H. by apply Hr in H.
    + injection Hplan as <-. apply Hr.
Qed.

(** X12. The index path answers as the records were saved.  On the index
    built by saving each key once, when the query planner answers a query
    with keys to fetch, they are exactly the keys of the saved records that
    are filed under every criterion of the query, and each of those records
    matches the criteria. *)
Theorem planQuery_index_path_exact (b : string) (saves : list (string * Entity))
    (criteria : Criteria) (ks : list string) :
  NoDup saves.*1 →
  planQuery (indexAfter b saves ∅) b criteria = Returns (ByKeys ks) →
  (∀ k, k ∈ ks ↔
        ∃ e, (k, e) ∈ saves ∧
             Forall (fun c : string * Value => indexed e c.1 c.2) criteria) ∧
  (∀ k e, k ∈ ks → (k, e) ∈ saves →
          MatchesCriteria e criteria (GetFieldMatcher e) = true).
Proof.
  intros Hnd Hplan. apply planQuery_ByKeys_listed in Hplan as [Hne Hks].
  assert (Hexact : ∀ k, k ∈ ks ↔
            ∃ e, (k, e) ∈ saves ∧
                 Forall (fun c : string * Value => indexed e c.1 c.2) criteria).
  { intros k. by rewrite Hks, listed_by_all_criteria. }
  split; [done|]. intros k e Hk Hin.
  apply Hexact in Hk as (e' & Hin' & Hall).
  rewrite (saved_once saves k e e' Hnd Hin Hin').
  apply MatchesCriteria_true. intros n v Hc.
  rewrite Forall_forall in Hall. by destruct (Hall (n, v) Hc) as (_ & ? & _).
Qed.

Lemma planQuery_index_path_exact_witness :
  (∀ k, k ∈ ["A"%string] ↔
        ∃ e, (k, e) ∈ [("A"%string, recA); ("B"%string, recB)] ∧
             Forall (fun c : string * Value => indexed e c.1 c.2)
               [("x"%string, intV 1); ("y"%string, intV 2)]) ∧
  (∀ k e, k ∈ ["A"%string] → (k, e) ∈ [("A"%string, recA); ("B"%string, recB)] →
          MatchesCriteria e [("x"%string, intV 1); ("y"%string, intV 2)]
            (GetFieldMatcher e) = true).
Proof.
  apply (planQuery_index_path_exact "items" [("A"%string, recA); ("B"%string, recB)]
           [("x"%string, intV 1); ("y"%string, intV 2)] ["A"%string]).
  - cbn. apply NoDup_cons. split.
    + intros H. apply elem_of_cons in H as [H|H]; [discriminate H|].
      by apply elem_of_nil in H.
    + apply NoDup_singleton.
  - vm_compute. reflexivity.
Defined.

(** ** [intersectStringSlices] *)

Lemma intersectLoop_NoDup a (bMap : gset string) : NoDup (intersectLoop a bMap).
Proof.
  revert bMap. induction a as [|item a IH]; intros bMap; cbn; [constructor|].
  destruct (decide (item ∈ bMap)); [|apply IH].
  apply NoDup_cons. split; [|apply IH].
  rewrite intersectLoop_elem. intros [_ H]. apply elem_of_difference in H as [_ H].
  apply H. by apply elem_of_singleton.
Qed.

(** X13. [intersectStringSlices] returns the strings that occur in both
    slices, each of them once even when a slice repeats it; exchanging the
    two slices changes at most the order of the result. *)
Theorem intersectStringSlices_spec (a b : list string) :
  (∀ x, x ∈ intersectStringSlices a b ↔ x ∈ a ∧ x ∈ b) ∧
  NoDup (intersectStringSlices a b) ∧
  intersectStringSlices a b ≡ₚ intersectStringSlices b a.
Proof.
  assert (Hnd : ∀ a b, NoDup (intersectStringSlices a b)).
  { intros a0 b0. unfold intersectStringSlices.
    destruct (_ || _); [constructor|].
    destruct (length b0 <? length a0)%nat; apply intersectLoop_NoDup. }
  split_and!; [apply intersectStringSlices_elem|apply Hnd|].
  apply NoDup_Permutation; [apply Hnd..|].
  intros x. rewrite !intersectStringSlices_elem. tauto.
Qed.

(** ** The two copies of the query planner *)

(** The copy of [FindWhereInDatabase] in [bucket/bucket_main.go] plans as
    the other copy for queries with at most one criterion, and sends every
    query with two criteria or more to the scan, without asking the
    index. *)
Lemma planQuery_bucket_main (idx : Index) (b : string) (criteria : Criteria) :
  ((length criteria ≤ 1)%nat →
     bucket_main.planQuery idx b criteria = planQuery idx b criteria) ∧
  ((2 ≤ length criteria)%nat →
     bucket_main.planQuery idx b criteria = Returns ByScan).
Proof.
  unfold bucket_main.planQuery, planQuery. split; intros Hlen.
  - destruct criteria as [|[f v] [|c criteria]]; [| |cbn in Hlen; lia].
    + by destruct (HasIndex idx b).
    + by destruct (HasIndex idx b).
  - destruct criteria as [|c1 [|c2 criteria]]; [cbn in Hlen; lia..|].
    cbn. by rewrite andb_false_r.
Qed.

(** ** The runs of the scan *)

Lemma worker_untagged lib jsonDecode criteria matcher data :
  untagged data = true →
  worker lib jsonDecode criteria matcher data =
  Returns (match jsonDecode data with
           | Some entity =>
               if MatchesCriteria entity criteria matcher then Some entity else None
           | None => None
           end).
Proof.
  destruct data as [|b0 rest]; [done|]. cbn [untagged]. intros H.
  apply andb_true_iff in H as [Hgt Hne].
  apply N.ltb_lt in Hgt. apply negb_true_iff, N.eqb_neq in Hne.
  unfold worker.
  assert (H0 : (Byte.to_N b0 =? 0) = false) by (apply N.eqb_neq; lia).
  assert (H1 : (Byte.to_N b0 =? 1) = false) by (apply N.eqb_neq; lia).
  rewrite H0, H1. cbn [orb].
  assert (Hd : compression.DecompressData lib (b0 :: rest) = Returns (b0 :: rest)).
  { assert (H4 : (Byte.to_N b0 <=? LZW) = false) by (apply N.leb_gt; unfold LZW; lia).
    unfold compression.DecompressData. rewrite H0, H1, H4. cbn [orb].
    by rewrite gzipMagic_not_magic. }
  rewrite Hd. destruct (jsonDecode (b0 :: rest)); [|done].
  by destruct (MatchesCriteria _ _ _).
Qed.

Section ScanRuns.
Context (lib : Codecs) (jsonDecode : list byte → option Entity).
Context (criteria : Criteria) (matcher : FieldMatcher).
Context (values : list (list byte)) (workers capacity : nat).
Context (Hvalues : Forall (fun v => untagged v = true) values).

Lemma scanInv_start :
  scanInv jsonDecode criteria matcher values workers (startScan values workers).
Proof.
  split; cbn.
  - exists []. cbn. split_and!; [|done..].
    unfold gathered. cbn.
    induction workers as [|n IH]; [done|]. cbn. done.
  - constructor.
  - done.
  - intros w Hw. apply lookup_replicate in Hw as [? ?]. done.
  - done.
  - apply length_replicate.
Qed.

Lemma concat_locals_insert (ls : list (option (list Entity))) w l l' :
  ls !! w = Some (Some l) →
  concat (default [] <$> <[w := Some (l ++ l')]> ls) ≡ₚ
  concat (default [] <$> ls) ++ l'.
Proof.
  revert w. induction ls as [|x ls IH]; intros [|w] H; try done; cbn in *.
  - injection H as ->. cbn. rewrite <- !app_assoc. apply Permutation_app_head.
    apply Permutation_app_comm.
  - rewrite (IH _ H). by rewrite app_assoc.
Qed.

Lemma concat_locals_done (ls : list (option (list Entity))) w l :
  ls !! w = Some (Some l) →
  concat (default [] <$> ls) ≡ₚ l ++ concat (default [] <$> <[w := None]> ls).
Proof.
  revert w. induction ls as [|x ls IH]; intros [|w] H; try done; cbn in *.
  - by injection H as ->.
  - rewrite (IH _ H). rewrite !app_assoc. apply Permutation_app_tail.
    apply Permutation_app_comm.
Qed.

Lemma produce_send_inv s :
  scanInv jsonDecode criteria matcher values workers s →
  scanInv jsonDecode criteria matcher values workers (produce capacity false s).
Proof.
  intros Hinv. unfold produce.
  destruct (pending s) as [|v rest] eqn:Hp; [done|].
  destruct (length (workChan s) <? capacity)%nat; [|done].
  destruct Hinv as [(handled & Hperm & Hpre & Hall) Hunt Hclosed Hdone Hres Hlen].
  rewrite Hp in *.
  assert (Hv : untagged v = true).
  { destruct Hpre as [tl Htl]. rewrite Forall_forall in Hvalues. apply Hvalues.
    rewrite Htl. rewrite !elem_of_app, elem_of_cons. tauto. }
  split; cbn.
  - exists (handled ++ [v]). rewrite <- !app_assoc. cbn. split_and!; [|done..].
    unfold gathered in *. cbn. rewrite !omap_app. cbn.
    rewrite <- Hperm. by rewrite <- !app_assoc.
  - apply Forall_app. split; [done|]. by constructor.
  - intros Hc. by specialize (Hclosed Hc).
  - intros w Hw. destruct (Hdone w Hw) as [Hc _]. by specialize (Hclosed Hc).
  - done.
  - done.
Qed.

Lemma produce_timeout_inv s :
  scanInv jsonDecode criteria matcher values workers s →
  scanInv jsonDecode criteria matcher values workers (produce capacity true s).
Proof.
  intros Hinv. unfold produce.
  destruct (pending s) as [|v rest] eqn:Hp; [done|].
  destruct (length (workChan s) <? capacity)%nat; [done|].
  destruct Hinv as [(handled & Hperm & Hpre & Hall) Hunt Hclosed Hdone Hres Hlen].
  rewrite Hp in *.
  split; cbn; try done.
  exists handled. split_and!; [done| |done].
  rewrite app_nil_r. etrans; [|exact Hpre]. by apply prefix_app_r.
Qed.

Lemma closeWork_inv s :
  scanInv jsonDecode criteria matcher values workers s →
  scanInv jsonDecode criteria matcher values workers (closeWork s).
Proof.
  intros Hinv. unfold closeWork.
  destruct (pending s) as [|v rest] eqn:Hp; [|done].
  destruct Hinv as [(handled & Hperm & Hpre & Hall) Hunt Hclosed Hdone Hres Hlen].
  rewrite Hp in *.
  split; cbn; try done.
  - by exists handled.
  - intros w Hw. by destruct (Hdone w Hw) as [_ ->].
Qed.

Lemma receive_inv w s :
  scanInv jsonDecode criteria matcher values workers s →
  ∃ s', receive lib jsonDecode criteria matcher w s = Returns s' ∧
        scanInv jsonDecode criteria matcher values workers s'.
Proof.
  intros Hinv. unfold receive.
  destruct (localResults s !! w) as [[l|]|] eqn:Hw; [|by eexists..].
  destruct (workChan s) as [|data rest] eqn:Hc; [by eexists|].
  destruct Hinv as [(handled & Hperm & Hpre & Hall) Hunt Hclosed Hdone Hres Hlen].
  rewrite Hc in *. apply Forall_cons in Hunt as [Hdata Hunt].
  rewrite worker_untagged by done. fold ((kept jsonDecode criteria matcher) data).
  eexists; split; [done|]. split; cbn; try done.
  - exists handled. split_and!; [|done..].
    rewrite <- Hperm. unfold gathered. cbn.
    rewrite concat_locals_insert by done.
    rewrite <- !app_assoc. do 3 apply Permutation_app_head.
    by destruct ((kept jsonDecode criteria matcher) data).
  - intros w' Hw'. destruct (decide (w' = w)) as [->|Hne].
    + apply lookup_lt_Some in Hw. by rewrite list_lookup_insert_eq in Hw'.
    + rewrite list_lookup_insert_ne in Hw' by done. by destruct (Hdone w' Hw').
  - intros Hr w' l' Hw'. destruct (decide (w' = w)) as [->|Hne].
    + by specialize (Hres Hr w _ Hw).
    + rewrite list_lookup_insert_ne in Hw' by done. by apply (Hres Hr w').
  - by rewrite length_insert.
Qed.

Lemma deliver_inv w s :
  scanInv jsonDecode criteria matcher values workers s →
  scanInv jsonDecode criteria matcher values workers (deliver w s).
Proof.
  intros Hinv. unfold deliver.
  destruct (localResults s !! w) as [[l|]|] eqn:Hw; [|done..].
  destruct (workChan s) as [|data rest] eqn:Hc; [|done].
  destruct (workChanClosed s) eqn:Hcl; [|done].
  destruct Hinv as [(handled & Hperm & Hpre & Hall) Hunt Hclosed Hdone Hres Hlen].
  rewrite Hc in *.
  split; cbn; try done.
  - exists handled. split_and!; [|done..].
    rewrite <- Hperm. unfold gathered. cbn. rewrite !app_nil_r.
    rewrite (concat_locals_done (localResults s) w l) by done.
    rewrite concat_app. cbn. rewrite app_nil_r. by rewrite <- !app_assoc.
  - intros _. by apply Hclosed.
  - intros Hr w' l' Hw'. destruct (decide (w' = w)) as [->|Hne].
    + by specialize (Hres Hr w _ Hw).
    + rewrite list_lookup_insert_ne in Hw' by done. by apply (Hres Hr w').
  - by rewrite length_insert.
Qed.

Lemma closeResults_inv s :
  scanInv jsonDecode criteria matcher values workers s →
  scanInv jsonDecode criteria matcher values workers (closeResults s).
Proof.
  intros Hinv. unfold closeResults.
  destruct (forallb _ _) eqn:Hall; [|done].
  destruct Hinv as [Hh Hunt Hclosed Hdone Hres Hlen].
  split; cbn; try done.
  intros _ w l Hw. rewrite forallb_forall in Hall.
  apply list_elem_of_lookup_2, list_elem_of_In in Hw. specialize (Hall _ Hw).
  by destruct l.
Qed.

Lemma collectBatch_inv s :
  scanInv jsonDecode criteria matcher values workers s →
  scanInv jsonDecode criteria matcher values workers (collectBatch s).
Proof.
  intros Hinv. unfold collectBatch.
  destruct (resultChan s) as [|batch rest] eqn:Hrc; [done|].
  destruct Hinv as [(handled & Hperm & Hpre & Hall) Hunt Hclosed Hdone Hres Hlen].
  split; cbn; try done.
  exists handled. split_and!; [|done..].
  rewrite <- Hperm. unfold gathered. rewrite Hrc. cbn. by rewrite <- !app_assoc.
Qed.

Lemma step_inv s ev :
  scanInv jsonDecode criteria matcher values workers s →
  ∃ s', step lib jsonDecode capacity criteria matcher s ev = Returns s' ∧
        scanInv jsonDecode criteria matcher values workers s'.
Proof.
  intros Hinv. destruct ev as [| | |w|w| |]; cbn [step];
    [| | |by apply receive_inv| | |]; (eexists; split; [done|]).
  - by apply produce_send_inv.
  - by apply produce_timeout_inv.
  - by apply closeWork_inv.
  - by apply deliver_inv.
  - by apply closeResults_inv.
  - by apply collectBatch_inv.
Qed.

Lemma runScan_inv schedule s :
  scanInv jsonDecode criteria matcher values workers s →
  ∃ s', runScan lib jsonDecode capacity criteria matcher schedule s = Returns s' ∧
        scanInv jsonDecode criteria matcher values workers s'.
Proof.
  revert s. induction schedule as [|ev schedule IH]; intros s Hinv; [by eexists|].
  cbn [runScan]. destruct (step_inv s ev Hinv) as (s' & -> & Hinv').
  by apply IH.
Qed.


End ScanRuns.

Lemma concat_locals_none (ls : list (option (list Entity))) :
  (∀ w l, ls !! w = Some l → l = None) → concat (default [] <$> ls) = [].
Proof.
  induction ls as [|x ls IH]; intros H; [done|]. cbn.
  rewrite (H 0%nat x) by done. cbn. apply IH. intros w l Hw. by apply (H (S w)).
Qed.

(** What a scan returns, whatever its run: the error of the collector's
    timer, or no error and the matches among the values handed over, which
    are the first values of the bucket, and all of them when no handoff has
    timed out. *)
Lemma scanBucket_handed_over lib jsonDecode (db : DB) b criteria matcher
    workers schedule :
  (0 < workers)%nat →
  Forall (fun v => untagged v = true) (dbForEach db b) →
  ∃ s, runScan lib jsonDecode (workers * 2) criteria matcher schedule
         (startScan (dbForEach db b) workers) = Returns s ∧
    (scanBucket lib jsonDecode db b criteria matcher workers schedule
       = Returns ([], Some "timeout waiting for results"%string) ∨
     ∃ handled,
       scanBucket lib jsonDecode db b criteria matcher workers schedule
         = Returns (results s, None) ∧
       results s ≡ₚ omap (kept jsonDecode criteria matcher) handled ∧
       handled `prefix_of` dbForEach db b ∧
       (forEachError s = None → handled = dbForEach db b)).
Proof.
  intros Hpos Hvalues.
  destruct (runScan_inv lib jsonDecode criteria matcher (dbForEach db b) workers
              (workers * 2) Hvalues schedule (startScan (dbForEach db b) workers)
              (scanInv_start _ _ _ _ _))
    as (s & Hrun & Hinv).
  exists s. split; [done|]. unfold scanBucket. rewrite Hrun.
  destruct (resultChanClosed s) eqn:Hrc; [|by left].
  destruct (resultChan s) as [|batch rest] eqn:Hch; [|by left].
  right.
  destruct Hinv as [(handled & Hperm & Hpre & Hall) Hunt Hclosed Hdone Hres Hlen].
  specialize (Hres Hrc).
  destruct (localResults s) as [|l0 ls] eqn:Hls; [cbn in Hlen; lia|].
  rewrite <- Hls in *.
  assert (H0 : localResults s !! 0%nat = Some None).
  { rewrite Hls. cbn. f_equal. apply (Hres 0%nat). by rewrite Hls. }
  destruct (Hdone _ H0) as [Hcl Hwc]. specialize (Hclosed Hcl).
  rewrite Hclosed, app_nil_r in *.
  exists handled. split_and!; [done| |done|done].
  rewrite <- Hperm. unfold gathered.
  rewrite Hch, Hwc, concat_locals_none by done. cbn. by rewrite !app_nil_r.
Qed.

Lemma produce_forEachError capacity s :
  forEachError (produce capacity false s) = forEachError s.
Proof.
  unfold produce. destruct (pending s); [done|].
  by destruct (_ <? _)%nat.
Qed.

(** In a run without the event, no handoff times out. *)
Lemma runScan_no_timeout lib jsonDecode capacity criteria matcher schedule s s' :
  SendTimeout ∉ schedule →
  runScan lib jsonDecode capacity criteria matcher schedule s = Returns s' →
  forEachError s' = forEachError s.
Proof.
  revert s. induction schedule as [|ev schedule IH]; intros s Hno; cbn [runScan].
  { by intros [= ->]. }
  apply not_elem_of_cons in Hno as [Hev Hno].
  destruct (step lib jsonDecode capacity criteria matcher s ev) as [s1|] eqn:Hstep; [|done].
  intros Hrun. rewrite (IH s1 Hno Hrun). clear Hrun IH.
  destruct ev as [| | |w|w| |]; cbn [step] in Hstep; try done.
  - injection Hstep as <-. apply produce_forEachError.
  - injection Hstep as <-. unfold closeWork. by destruct (pending s).
  - unfold receive in Hstep.
    destruct (localResults s !! w) as [[l|]|]; [|by injection Hstep as <-..].
    destruct (workChan s) as [|data rest]; [by injection Hstep as <-|].
    destruct (worker _ _ _ _ _) as [r|]; [|done]. by injection Hstep as <-.
  - injection Hstep as <-. unfold deliver.
    destruct (localResults s !! w) as [[l|]|]; [|done..].
    destruct (workChan s); [|done]. by destruct (workChanClosed s).
  - injection Hstep as <-. unfold closeResults. by destruct (forallb _ _).
  - injection Hstep as <-. unfold collectBatch. by destruct (resultChan s).
Qed.

Lemma omap_kept jsonDecode criteria matcher (values : list (list byte)) :
  omap (kept jsonDecode criteria matcher) values =
  filter (fun e => MatchesCriteria e criteria matcher = true) (omap jsonDecode values).
Proof.
  induction values as [|v values IH]; [done|]. cbn. unfold kept at 1.
  destruct (jsonDecode v) as [e|]; [|done].
  rewrite filter_cons. destruct (MatchesCriteria e criteria matcher).
  - rewrite decide_True by done. by rewrite IH.
  - by rewrite decide_False.
Qed.

Lemma runScan_cons lib jsonDecode capacity criteria matcher ev schedule s :
  runScan lib jsonDecode capacity criteria matcher (ev :: schedule) s =
  match step lib jsonDecode capacity criteria matcher s ev with
  | Panics => Panics
  | Returns s' => runScan lib jsonDecode capacity criteria matcher schedule s'
  end.
Proof. done. Qed.

Lemma run_sends lib jsonDecode capacity criteria matcher rest vs :
  (0 < capacity)%nat →
  Forall (fun v => untagged v = true) vs →
  ∀ fe closed ls rc rcc rs l,
    ls !! 0%nat = Some (Some l) →
    runScan lib jsonDecode capacity criteria matcher
      (concat (replicate (length vs) [Send; Receive 0]) ++ rest)
      (mkScan vs fe [] closed ls rc rcc rs) =
    runScan lib jsonDecode capacity criteria matcher rest
      (mkScan [] fe [] closed
         (<[0%nat := Some (l ++ omap (kept jsonDecode criteria matcher) vs)]> ls)
         rc rcc rs).
Proof.
  intros Hcap. induction 1 as [|v vs Hv _ IH]; intros fe closed ls rc rcc rs l Hl.
  { cbn. by rewrite app_nil_r, list_insert_id. }
  cbn [length replicate concat app runScan step]. unfold produce at 1.
  cbn [pending workChan length].
  destruct capacity as [|c]; [lia|]. cbn [Nat.ltb Nat.leb app].
  cbn [forEachError workChanClosed localResults resultChan resultChanClosed results].
  unfold receive at 1. cbn [localResults workChan]. rewrite Hl.
  rewrite worker_untagged by done. fold (kept jsonDecode criteria matcher v).
  cbn [pending forEachError workChanClosed resultChan resultChanClosed results].
  rewrite (IH fe closed _ rc rcc rs (l ++ option_list (kept jsonDecode criteria matcher v))).
  - rewrite list_insert_insert_eq. do 4 f_equal. cbn [omap list_omap].
    rewrite <- app_assoc. f_equal. by destruct (kept jsonDecode criteria matcher v).
  - apply list_lookup_insert_eq. by apply lookup_lt_Some in Hl.
Qed.

Lemma run_delivers lib jsonDecode capacity criteria matcher rest
    (batches : list (list Entity)) :
  ∀ k fe rc rcc rs,
    runScan lib jsonDecode capacity criteria matcher
      ((Deliver <$> seq k (length batches)) ++ rest)
      (mkScan [] fe [] true (replicate k None ++ (Some <$> batches)) rc rcc rs) =
    runScan lib jsonDecode capacity criteria matcher rest
      (mkScan [] fe [] true (replicate (k + length batches) None) (rc ++ batches)
         rcc rs).
Proof.
  induction batches as [|batch batches IH]; intros k fe rc rcc rs.
  { cbn. by rewrite !app_nil_r, Nat.add_0_r. }
  cbn [length seq fmap list_fmap app runScan step]. unfold deliver at 1.
  cbn [localResults workChan workChanClosed].
  rewrite lookup_app_r by (by rewrite length_replicate).
  rewrite length_replicate, Nat.sub_diag. cbn [fmap list_fmap lookup list_lookup].
  cbn [pending forEachError resultChan resultChanClosed results].
  rewrite insert_app_r_alt by (by rewrite length_replicate).
  rewrite length_replicate, Nat.sub_diag. cbn [insert list_insert].
  rewrite (cons_middle None), app_assoc.
  change (replicate k None ++ [None]) with (replicate k (@None (list Entity)) ++ replicate 1 None).
  rewrite <- replicate_add, Nat.add_1_r.
  rewrite IH. rewrite <- app_assoc. cbn [app]. by rewrite Nat.add_succ_r.
Qed.

Lemma run_collects lib jsonDecode capacity criteria matcher rest
    (rc : list (list Entity)) :
  ∀ pend fe wc closed ls rcc rs,
    runScan lib jsonDecode capacity criteria matcher
      (replicate (length rc) Collect ++ rest)
      (mkScan pend fe wc closed ls rc rcc rs) =
    runScan lib jsonDecode capacity criteria matcher rest
      (mkScan pend fe wc closed ls [] rcc (rs ++ concat rc)).
Proof.
  induction rc as [|batch rc IH]; intros pend fe wc closed ls rcc rs.
  { cbn. by rewrite app_nil_r. }
  cbn [length replicate app runScan step]. unfold collectBatch at 1.
  cbn [resultChan pending forEachError workChan workChanClosed localResults
       resultChanClosed results].
  rewrite IH. cbn [concat]. by rewrite app_assoc.
Qed.

Lemma forallb_replicate_None n :
  forallb (fun l : option (list Entity) =>
             match l with None => true | Some _ => false end) (replicate n None) = true.
Proof. induction n as [|n IH]; [done|]. cbn. exact IH. Qed.

Lemma concat_replicate_nil (n : nat) : concat (replicate n (@nil Entity)) = [].
Proof. induction n as [|n IH]; [done|]. cbn. exact IH. Qed.

(** The run in which the first worker takes every value as soon as it is
    sent returns the matches in iteration order. *)
Lemma scanBucket_inTurn lib jsonDecode (db : DB) b criteria matcher workers :
  (0 < workers)%nat →
  Forall (fun v => untagged v = true) (dbForEach db b) →
  scanBucket lib jsonDecode db b criteria matcher workers
    (inTurn (length (dbForEach db b)) workers) =
  Returns (omap (kept jsonDecode criteria matcher) (dbForEach db b), None).
Proof.
  intros Hpos Hvalues. destruct workers as [|n]; [lia|].
  unfold scanBucket, inTurn, startScan.
  rewrite (run_sends lib jsonDecode (S n * 2) criteria matcher _ _ ltac:(lia) Hvalues
             None false (replicate (S n) (Some [])) [] false [] [] eq_refl).
  set (m := omap (kept jsonDecode criteria matcher) (dbForEach db b)).
  change ([CloseWork] ++ ?l) with (CloseWork :: l).
  rewrite runScan_cons. cbn [step closeWork pending forEachError workChan
    localResults resultChan resultChanClosed results app].
  replace (<[0%nat:=Some m]> (replicate (S n) (Some [])))
    with (replicate 0 None ++ (Some <$> m :: replicate n []))
    by (cbn; by rewrite fmap_replicate).
  replace (seq 0 (S n)) with (seq 0 (length (m :: replicate n [])))
    by (cbn; by rewrite length_replicate).
  rewrite run_delivers.
  change ([CloseResults] ++ ?l) with (CloseResults :: l).
  rewrite runScan_cons. cbn [step]. unfold closeResults. cbn [localResults].
  rewrite forallb_replicate_None.
  cbn [pending forEachError workChan workChanClosed resultChan results app].
  rewrite <- (app_nil_r (replicate (S n) Collect)).
  pose proof (run_collects lib jsonDecode (S n * 2) criteria matcher []
                (m :: replicate n []) [] None [] true
                (replicate (0 + length (m :: replicate n [])) None) true []) as Hc.
  cbn [length] in Hc. rewrite length_replicate in Hc.
  cbn [length]. rewrite length_replicate. rewrite Hc.
  cbn [runScan resultChanClosed resultChan results app concat].
  by rewrite concat_replicate_nil, app_nil_r.
Qed.

(** X14. A scan over untagged values, as the JSON text [db.ForEach] hands
    over after decompression, in a run in which no handoff times out: either
    the timer of the collector fires, or the scan returns no error and the
    records that decode and match the criteria, each once, in an order that
    depends on the run.  The run in which the first worker takes every
    value as soon as it is sent returns them in iteration order, and with
    no criterion every record that decodes. *)
Theorem scanBucket_exact (lib : Codecs) (jsonDecode : list byte → option Entity)
    (db : DB) (b : string) (criteria : Criteria) (matcher : FieldMatcher)
    (workers : nat) (schedule : list Event) :
  (0 < workers)%nat →
  Forall (fun v => untagged v = true) (dbForEach db b) →
  SendTimeout ∉ schedule →
  (scanBucket lib jsonDecode db b criteria matcher workers schedule
     = Returns ([], Some "timeout waiting for results"%string) ∨
   ∃ rs, scanBucket lib jsonDecode db b criteria matcher workers schedule
           = Returns (rs, None) ∧
         rs ≡ₚ filter (fun e => MatchesCriteria e criteria matcher = true)
                 (omap jsonDecode (dbForEach db b))) ∧
  scanBucket lib jsonDecode db b criteria matcher workers
    (inTurn (length (dbForEach db b)) workers) =
    Returns (filter (fun e => MatchesCriteria e criteria matcher = true)
               (omap jsonDecode (dbForEach db b)), None) ∧
  scanBucket lib jsonDecode db b [] matcher workers
    (inTurn (length (dbForEach db b)) workers) =
    Returns (omap jsonDecode (dbForEach db b), None).
Proof.
  intros Hpos Hvalues Hno. split_and!.
  - destruct (scanBucket_handed_over lib jsonDecode db b criteria matcher workers
                schedule Hpos Hvalues) as (s & Hrun & [Htimeout|Hreturns]); [by left|].
    destruct Hreturns as (handled & Hscan & Hperm & _ & Hall). right.
    exists (results s). split; [done|].
    rewrite Hperm, Hall, omap_kept; [done|].
    by rewrite (runScan_no_timeout _ _ _ _ _ _ _ _ Hno Hrun).
  - rewrite scanBucket_inTurn by done. by rewrite omap_kept.
  - rewrite scanBucket_inTurn by done. rewrite omap_kept. do 2 f_equal.
    induction (omap jsonDecode (dbForEach db b)) as [|e l IH]; [done|].
    rewrite filter_cons, decide_True by done. by rewrite IH.
Qed.

Lemma scanBucket_exact_witness :
  (scanBucket lzw_only jsonAB dbScanAB "items" [("y"%string, intV 2)]
     (GetFieldMatcher recA) 2 secondFirst
     = Returns ([], Some "timeout waiting for results"%string) ∨
   ∃ rs, scanBucket lzw_only jsonAB dbScanAB "items" [("y"%string, intV 2)]
           (GetFieldMatcher recA) 2 secondFirst = Returns (rs, None) ∧
         rs ≡ₚ filter (fun e => MatchesCriteria e [("y"%string, intV 2)]
                                  (GetFieldMatcher recA) = true)
                 (omap jsonAB (dbForEach dbScanAB "items"))) ∧
  scanBucket lzw_only jsonAB dbScanAB "items" [("y"%string, intV 2)]
    (GetFieldMatcher recA) 2 (inTurn (length (dbForEach dbScanAB "items")) 2) =
    Returns (filter (fun e => MatchesCriteria e [("y"%string, intV 2)]
                                (GetFieldMatcher recA) = true)
               (omap jsonAB (dbForEach dbScanAB "items")), None) ∧
  scanBucket lzw_only jsonAB dbScanAB "items" [] (GetFieldMatcher recA) 2
    (inTurn (length (dbForEach dbScanAB "items")) 2) =
    Returns (omap jsonAB (dbForEach dbScanAB "items"), None).
Proof.
  apply (scanBucket_exact lzw_only jsonAB dbScanAB "items" [("y"%string, intV 2)]
           (GetFieldMatcher recA) 2 secondFirst).
  - lia.
  - repeat constructor.
  - by apply (bool_decide_unpack (SendTimeout ∉ secondFirst)).
Defined.

(** With two workers, the records can come back in the order opposite to
    that of the iteration. *)
Example scanBucket_order :
  scanBucket lzw_only jsonAB dbScanAB "items" [("x"%string, intV 1)]
    (GetFieldMatcher recA) 2 (inTurn 2 2) = Returns ([recA; recB], None) ∧
  scanBucket lzw_only jsonAB dbScanAB "items" [("x"%string, intV 1)]
    (GetFieldMatcher recA) 2 secondFirst = Returns ([recB; recA], None).
Proof. vm_compute. done. Qed.

(** ** The store: [Put], [Get] and [Delete] *)

Lemma frame_roundtrip lib b :
  codecsReadBack lib b →
  compression.DecompressData lib (compression.CompressData lib b) = Returns b.
Proof.
  intros (Hgz & Hfl & Hlz & Hzl). unfold compression.CompressData.
  destruct (decide (length b < threshold)%nat) as [Hsmall|Hlarge].
  { by rewrite compressWith_small. }
  destruct (compressWith_large (compression.compressors lib) b)
    as (i & tag & payload & Hi & -> & Hmin & _); [lia|].
  pose proof Hi as Hi'.
  apply candidates_inv in Hi' as [[-> ->]|(comp & Hin & Hcomp)]; [done|].
  apply compressors_tags in Hin as [[-> ->]|[[-> ->]|[[-> ->]|[-> ->]]]].
  - apply Hgz in Hcomp. cbn. by rewrite Hcomp.
  - by destruct (CompressData_never_zlib lib b i payload).
  - apply Hfl in Hcomp. cbn. by rewrite Hcomp.
  - apply Hlz in Hcomp. cbn. by rewrite Hcomp.
Qed.

Lemma codecsReadBack_lzw_only b :
  lzw.decode lzw.LSB 8 <$> lzw.encode lzw.LSB 8 b = Some (Some b) →
  codecsReadBack lzw_only b.
Proof.
  intros H. split_and!.
  - intros c Hc. discriminate Hc.
  - intros c Hc. discriminate Hc.
  - intros c Hc. change (lzw.encode lzw.LSB 8 b = Some c) in Hc.
    rewrite Hc in H. change (Some (lzw.decode lzw.LSB 8 c) = Some (Some b)) in H.
    change (lzw.decode lzw.LSB 8 c = Some b). by injection H.
  - intros z Hz. discriminate Hz.
Qed.

Lemma CompressData_not_empty lib b : compression.CompressData lib b ≠ [].
Proof.
  unfold compression.CompressData, compressWith.
  destruct (length b <? threshold)%nat; [done|].
  by destruct (fold_left _ _ _).
Qed.

Lemma bolt_Put_inl b key value b' :
  bolt.Put b key value = inl b' → key ≠ EmptyString ∧ b' = <[key := value]> b.
Proof.
  unfold bolt.Put. repeat case_match; try done. by intros [= <-].
Qed.

Lemma Put_inv lib Marshal db bucketName key value db' err :
  database.Put lib Marshal db bucketName key value = (db', err) →
  (err ≠ None ∧ db' = db) ∨
  (∃ e data b,
     err = None ∧ value = Some e ∧ Marshal e = Some data ∧ key ≠ EmptyString ∧
     db !! bucketName = Some b ∧
     db' = <[bucketName := <[key := compression.CompressData lib data]> b]> db).
Proof.
  unfold database.Put. destruct (decide (key = EmptyString)) as [|Hkey].
  { intros [= <- <-]. by left. }
  destruct value as [e|]; [|intros [= <- <-]; by left].
  destruct (Marshal e) as [data|] eqn:Hm; [|intros [= <- <-]; by left].
  unfold bolt.Update. destruct (db !! bucketName) as [b|] eqn:Hb;
    [|intros [= <- <-]; by left].
  destruct (bolt.Put b key (compression.CompressData lib data)) as [b'|e'] eqn:Hput;
    [|intros [= <- <-]; by left].
  intros [= <- <-]. right. apply bolt_Put_inl in Hput as [_ ->].
  by exists e, data, b.
Qed.

(** X15. What [Put] stores, [Get] returns.  When [Put] returns nil, [Get]
    with the same bucket and key decodes the JSON text [Put] made of the
    value into its target, provided the codecs read back what they write
    for that text; and it asks for the record to be stored again only if
    the text is longer than 50 bytes and was framed raw or with gzip. *)
Theorem Put_Get_roundtrip (lib : Codecs) (Marshal : Entity → option (list byte))
    (Unmarshal : list byte → Entity → option Entity)
    (db db' : bolt.Buckets) (bucketName key : string) (value target : Entity)
    (data : list byte) :
  Marshal value = Some data →
  codecsReadBack lib data →
  database.Put lib Marshal db bucketName key (Some value) = (db', None) →
  database.Get lib Unmarshal db' bucketName key (Some target) =
    Returns (match Unmarshal data target with
             | Some target' =>
                 database.Got target'
                   (database.legacyTag (compression.CompressData lib data)
                    && (50 <? length data)%nat)
             | None => database.Failed jsonError
             end).
Proof.
  intros Hm Hcodecs Hput.
  apply Put_inv in Hput as [[? _]|(e & data' & b & _ & [= <-] & Hm' & Hkey & Hb & ->)];
    [done|].
  rewrite Hm in Hm'. injection Hm' as <-.
  unfold database.Get. rewrite decide_False by done.
  rewrite lookup_insert_eq, lookup_insert_eq.
  rewrite decide_False.
  2:{ intros Hlen. apply (CompressData_not_empty lib data).
      by destruct (compression.CompressData lib data). }
  rewrite frame_roundtrip by done. by destruct (Unmarshal data target).
Qed.

Lemma Put_Get_roundtrip_witness :
  database.Get lzw_only unmarshalAB
    (<["items"%string := <["A"%string := compression.CompressData lzw_only rawA]> ∅]>
       emptyItems) "items" "A" (Some []) =
    Returns (match unmarshalAB rawA [] with
             | Some target' =>
                 database.Got target'
                   (database.legacyTag (compression.CompressData lzw_only rawA)
                    && (50 <? length rawA)%nat)
             | None => database.Failed jsonError
             end).
Proof.
  apply (Put_Get_roundtrip lzw_only marshalAB unmarshalAB emptyItems _ "items" "A"
           recA [] rawA).
  - reflexivity.
  - apply codecsReadBack_lzw_only. vm_compute. reflexivity.
  - vm_compute. reflexivity.
Defined.

Lemma stored_insert (db : bolt.Buckets) bucketName b name k :
  stored (<[bucketName := b]> db) name k =
  if decide (name = bucketName) then b !! k else stored db name k.
Proof.
  unfold stored. destruct (decide (name = bucketName)) as [->|Hne].
  - by rewrite lookup_insert_eq.
  - by rewrite lookup_insert_ne.
Qed.

(** X16. [Put] changes at most the value stored under its key in its
    bucket: every other key of every bucket keeps its value, no bucket is
    created or dropped, and when [Put] returns an error the database is as
    it was. *)
Theorem Put_changes_one_key (lib : Codecs) (Marshal : Entity → option (list byte))
    (db db' : bolt.Buckets) (bucketName key : string) (value : option Entity)
    (err : option error) :
  database.Put lib Marshal db bucketName key value = (db', err) →
  (err ≠ None → db' = db) ∧
  (∀ name, is_Some (db' !! name) ↔ is_Some (db !! name)) ∧
  (∀ name k, (name, k) ≠ (bucketName, key) → stored db' name k = stored db name k).
Proof.
  intros Hput.
  apply Put_inv in Hput as [[Herr ->]|(e & data & b & -> & _ & _ & _ & Hb & ->)];
    [done|].
  split_and!; [done| |].
  - intros name. destruct (decide (name = bucketName)) as [->|Hne].
    + rewrite lookup_insert_eq, Hb. split; eauto.
    + by rewrite lookup_insert_ne.
  - intros name k Hne. rewrite stored_insert.
    destruct (decide (name = bucketName)) as [->|]; [|done].
    unfold stored. rewrite Hb. cbn. rewrite lookup_insert_ne; [done|congruence].
Qed.

Lemma Put_changes_one_key_witness :
  ((None : option error) ≠ None →
   (database.Put lzw_only marshalAB storeAB "items" "A" (Some recB)).1 = storeAB) ∧
  (∀ name,
     is_Some ((database.Put lzw_only marshalAB storeAB "items" "A" (Some recB)).1 !! name)
     ↔ is_Some (storeAB !! name)) ∧
  (∀ name k, (name, k) ≠ ("items"%string, "A"%string) →
             stored (database.Put lzw_only marshalAB storeAB "items" "A" (Some recB)).1
               name k = stored storeAB name k).
Proof.
  apply (Put_changes_one_key lzw_only marshalAB storeAB
           (database.Put lzw_only marshalAB storeAB "items" "A" (Some recB)).1
           "items" "A" (Some recB) None).
  vm_compute. reflexivity.
Defined.

(** X17. The errors of [Get].  With a target that is not nil, [Get] reports
    an empty key before it looks at the database, then a bucket that does
    not exist, then a key that is not stored ([ErrNotFound]), then a stored
    value of length 0 ([ErrInvalidData]); and it panics exactly when the
    stored value starts with the zlib tag. *)
Theorem Get_errors (lib : Codecs) (Unmarshal : list byte → Entity → option Entity)
    (db : bolt.Buckets) (bucketName key : string) (target : Entity) :
  let result := database.Get lib Unmarshal db bucketName key (Some target) in
  (key = EmptyString → result = Returns (database.Failed (errorNew "key cannot be empty"))) ∧
  (result = Returns (database.Failed ErrBucketMissing) ↔
     key ≠ EmptyString ∧ db !! bucketName = None) ∧
  (result = Returns (database.Failed ErrNotFound) ↔
     key ≠ EmptyString ∧ is_Some (db !! bucketName) ∧ stored db bucketName key = None) ∧
  (result = Returns (database.Failed ErrInvalidData) ↔
     key ≠ EmptyString ∧ stored db bucketName key = Some []) ∧
  (result = Panics ↔
     key ≠ EmptyString ∧ ∃ rest, stored db bucketName key = Some (x02 :: rest)).
Proof.
  cbn zeta. unfold database.Get, stored.
  destruct (decide (key = EmptyString)) as [Hkey|Hkey].
  { split_and!; [done|split; [done|tauto]..]. }
  split; [done|].
  destruct (db !! bucketName) as [b|]; cbn [mbind option_bind].
  2:{ split_and!; (split; [try done|]); try tauto.
      - by intros (_ & [? ?] & _).
      - by intros (_ & [=]).
      - by intros (_ & ? & [=]). }
  destruct (b !! key) as [data|].
  2:{ split_and!; (split; [try done|]); try tauto.
      - by intros (_ & [=]).
      - by intros (_ & [=]).
      - by intros (_ & ? & [=]). }
  destruct (decide (length data = 0%nat)) as [Hlen|Hlen].
  { destruct data; [|done]. split_and!; (split; [try done|]); try tauto.
    - by intros (_ & [=]).
    - by intros (_ & _ & [=]).
    - by intros (_ & ? & [=]). }
  assert (Hne : data ≠ []) by (by destruct data).
  destruct (compression.DecompressData lib data) as [actualData|] eqn:Hd.
  - assert (Hno : ¬ ∃ rest, data = x02 :: rest).
    { intros [rest ->]. by rewrite DecompressData_zlib_panics in Hd. }
    destruct (Unmarshal actualData target);
      (split_and!; (split; [try done|]); try tauto;
       [by intros (_ & [=])
       |by intros (_ & _ & [=])
       |intros (_ & [= ->]); done
       |intros (_ & rest & [= ->]); exfalso; apply Hno; by exists rest]).
  - apply DecompressData_Panics_inv in Hd as [rest ->].
    split_and!; (split; [try done|]); try tauto.
    + by intros (_ & [=]).
    + by intros (_ & _ & [=]).
    + by intros (_ & [=]).
    + intros _. split; [done|]. by exists rest.
Qed.

Lemma Delete_inv db bucketName key db' err :
  database.Delete db bucketName key = (db', err) →
  (err ≠ None ∧ db' = db) ∨
  (∃ b, err = None ∧ key ≠ EmptyString ∧ db !! bucketName = Some b ∧
        db' = <[bucketName := delete key b]> db).
Proof.
  unfold database.Delete. destruct (decide (key = EmptyString)) as [|Hkey].
  { intros [= <- <-]. by left. }
  unfold bolt.Update. destruct (db !! bucketName) as [b|] eqn:Hb.
  - intros [= <- <-]. right. by exists b.
  - intros [= <- <-]. by left.
Qed.

(** ** The order of the entries of a bucket *)

Lemma entries_Permutation {A} (m : gmap string A) : bolt.entries m ≡ₚ map_to_list m.
Proof. apply merge_sort_Permutation. Qed.

Lemma elem_of_entries {A} (m : gmap string A) k v :
  (k, v) ∈ bolt.entries m ↔ m !! k = Some v.
Proof. by rewrite entries_Permutation, elem_of_map_to_list. Qed.

Lemma elem_of_entries_keys {A} (m : gmap string A) k :
  k ∈ (bolt.entries m).*1 ↔ is_Some (m !! k).
Proof.
  rewrite list_elem_of_fmap. split.
  - intros ([k' v] & -> & Hin). apply elem_of_entries in Hin. by exists v.
  - intros [v Hv]. exists (k, v). split; [done|]. by apply elem_of_entries.
Qed.

Lemma NoDup_entries_keys {A} (m : gmap string A) : NoDup (bolt.entries m).*1.
Proof. rewrite entries_Permutation. apply NoDup_fst_map_to_list. Qed.

Lemma length_entries {A} (m : gmap string A) : length (bolt.entries m) = size m.
Proof. rewrite entries_Permutation. apply length_map_to_list. Qed.

Lemma entryLE_total {A} : Total (@bolt.entryLE A).
Proof. intros x y. apply String.leb_total. Qed.

Lemma Sorted_entries_keys {A} (m : gmap string A) :
  Sorted bolt.keyLE (bolt.entries m).*1.
Proof.
  apply (Sorted_fmap _ bolt.entryLE); [done|]. apply Sorted_merge_sort, entryLE_total.
Qed.

(** X18. [Delete] removes the key and nothing else: after a [Delete] that
    returned nil, [Get] with that bucket and key reports [ErrNotFound],
    [List] no longer holds the key, and every other key of every bucket
    keeps its value.  A key that was not stored is deleted without error. *)
Theorem Delete_removes_one_key (lib : Codecs)
    (Unmarshal : list byte → Entity → option Entity)
    (db db' : bolt.Buckets) (bucketName key : string) (target : Entity) :
  database.Delete db bucketName key = (db', None) →
  database.Get lib Unmarshal db' bucketName key (Some target)
    = Returns (database.Failed ErrNotFound) ∧
  (key ∉ (database.List db' bucketName).1) ∧
  (∀ name k, (name, k) ≠ (bucketName, key) → stored db' name k = stored db name k) ∧
  (stored db bucketName key = None → db' = db).
Proof.
  intros Hdel. apply Delete_inv in Hdel as [[? _]|(b & _ & Hkey & Hb & ->)]; [done|].
  split_and!.
  - unfold database.Get. rewrite decide_False by done.
    by rewrite lookup_insert_eq, lookup_delete_eq.
  - unfold database.List. rewrite lookup_insert_eq. cbn [fst].
    rewrite elem_of_entries_keys, lookup_delete_eq. by intros [? ?].
  - intros name k Hne. rewrite stored_insert.
    destruct (decide (name = bucketName)) as [->|]; [|done].
    unfold stored. rewrite Hb. cbn. rewrite lookup_delete_ne; [done|congruence].
  - unfold stored. rewrite Hb. cbn. intros Hnone.
    rewrite delete_id by done. by apply insert_id.
Qed.

Lemma Delete_removes_one_key_witness :
  database.Get lzw_only unmarshalAB (database.Delete storeAB "items" "A").1
    "items" "A" (Some []) = Returns (database.Failed ErrNotFound) ∧
  ("A"%string ∉ (database.List (database.Delete storeAB "items" "A").1 "items").1) ∧
  (∀ name k, (name, k) ≠ ("items"%string, "A"%string) →
             stored (database.Delete storeAB "items" "A").1 name k
             = stored storeAB name k) ∧
  (stored storeAB "items" "A" = None →
   (database.Delete storeAB "items" "A").1 = storeAB).
Proof.
  apply (Delete_removes_one_key lzw_only unmarshalAB storeAB
           (database.Delete storeAB "items" "A").1 "items" "A" []).
  vm_compute. reflexivity.
Defined.

(** X19. [List] returns the keys of the bucket, each once and in byte order,
    and [Count] their number. *)
Theorem List_and_Count (db : bolt.Buckets) (bucketName : string) (b : bolt.Bucket) :
  db !! bucketName = Some b →
  ∃ keys,
    database.List db bucketName = (keys, None) ∧
    (∀ k, k ∈ keys ↔ is_Some (b !! k)) ∧
    NoDup keys ∧
    Sorted bolt.keyLE keys ∧
    database.Count db bucketName = (length keys, None).
Proof.
  intros Hb. exists (bolt.entries b).*1. unfold database.List, database.Count.
  rewrite Hb. split_and!.
  - done.
  - apply elem_of_entries_keys.
  - apply NoDup_entries_keys.
  - apply Sorted_entries_keys.
  - by rewrite length_fmap, length_entries.
Qed.

Lemma List_and_Count_witness :
  ∃ keys,
    database.List storeAB "items" = (keys, None) ∧
    (∀ k, k ∈ keys ↔
          is_Some (({["A"%string := x00 :: rawA; "B"%string := x00 :: rawB]}
                    : bolt.Bucket) !! k)) ∧
    NoDup keys ∧
    Sorted bolt.keyLE keys ∧
    database.Count storeAB "items" = (length keys, None).
Proof.
  apply (List_and_Count storeAB "items"
           {["A"%string := x00 :: rawA; "B"%string := x00 :: rawB]}).
  apply lookup_singleton_eq.
Defined.

Example List_sample : database.List storeAB "items" = (["A"; "B"]%string, None).
Proof. vm_compute. reflexivity. Qed.

(** ** [GetAll] and [Clear] *)

Lemma getAllLoop_spec lib Unmarshal fresh values items result :
  database.getAllLoop lib Unmarshal fresh values items = Returns result →
  ∃ decoded,
    Forall2 (fun v d => decodeValue lib Unmarshal fresh v = Returns d) values decoded ∧
    result = items ++ omap id decoded.
Proof.
  revert items. induction values as [|v values IH]; intros items; cbn.
  - intros [= <-]. exists []. split; [constructor|]. by rewrite app_nil_r.
  - destruct (compression.DecompressData lib v) as [actualData|] eqn:Hd; [|done].
    destruct (Unmarshal actualData fresh) as [item|] eqn:Hu; intros Hloop;
      apply IH in Hloop as (decoded & Hall & ->).
    + exists (Some item :: decoded). split.
      * constructor; [|done]. unfold decodeValue. by rewrite Hd, Hu.
      * by rewrite <- app_assoc.
    + exists (None :: decoded). split; [|done].
      constructor; [|done]. unfold decodeValue. by rewrite Hd, Hu.
Qed.

(** X20. [GetAll] lists every record [Get] can return: when [GetAll] returns
    for a bucket, it returns no error, at most as many records as the
    bucket has keys, and among them each record that [Get] decodes from a
    key of the bucket into a target as the constructor makes it. *)
Theorem GetAll_lists_what_Get_returns (lib : Codecs)
    (Unmarshal : list byte → Entity → option Entity)
    (db : bolt.Buckets) (bucketName : string) (fresh : Entity)
    (items : list Entity) (err : option error) :
  is_Some (db !! bucketName) →
  database.GetAll lib Unmarshal db bucketName fresh = Returns (items, err) →
  err = None ∧
  (length items ≤ (database.Count db bucketName).1)%nat ∧
  (∀ key e m,
     database.Get lib Unmarshal db bucketName key (Some fresh)
       = Returns (database.Got e m) →
     e ∈ items).
Proof.
  intros [b Hb]. unfold database.GetAll, database.Count. rewrite Hb.
  destruct (database.getAllLoop _ _ _ _ _) as [result|] eqn:Hloop; [|done].
  intros [= <- <-]. apply getAllLoop_spec in Hloop as (decoded & Hall & ->).
  cbn [app]. split_and!; [done| |].
  - cbn [fst]. rewrite <- length_entries.
    assert (Hlen : length decoded = length (bolt.entries b)).
    { apply Forall2_length in Hall. by rewrite length_fmap in Hall. }
    rewrite <- Hlen. clear. induction decoded as [|[d|] decoded IH]; cbn; lia.
  - intros key e m. unfold database.Get. rewrite Hb.
    destruct (decide (key = EmptyString)); [done|].
    destruct (b !! key) as [data|] eqn:Hdata; [|done].
    destruct (decide (length data = 0%nat)); [done|].
    destruct (compression.DecompressData lib data) as [actualData|] eqn:Hd; [|done].
    destruct (Unmarshal actualData fresh) as [target'|] eqn:Hu; [|done].
    intros [= <- _].
    assert (Hin : data ∈ (bolt.entries b).*2).
    { apply list_elem_of_fmap. exists (key, data). split; [done|].
      by apply elem_of_entries. }
    apply list_elem_of_lookup in Hin as [i Hi].
    destruct (Forall2_lookup_l _ _ _ _ _ Hall Hi) as (d & Hdi & Hdec).
    unfold decodeValue in Hdec. rewrite Hd, Hu in Hdec. injection Hdec as <-.
    apply list_elem_of_omap. exists (Some target'). split; [|done].
    by apply list_elem_of_lookup_2 in Hdi.
Qed.

Lemma GetAll_lists_what_Get_returns_witness :
  (None : option error) = None ∧
  (length [recA; recB] ≤ (database.Count storeAB "items").1)%nat ∧
  (∀ key e m,
     database.Get lzw_only unmarshalAB storeAB "items" key (Some [])
       = Returns (database.Got e m) →
     e ∈ [recA; recB]).
Proof.
  apply (GetAll_lists_what_Get_returns lzw_only unmarshalAB storeAB "items" []
           [recA; recB] None).
  - by eexists.
  - vm_compute. reflexivity.
Defined.

(** X21. [Clear] empties the bucket and touches no other: for a bucket that
    exists, it returns nil, the bucket is there and has no key, and every
    other bucket is as it was; for a bucket that does not exist it returns
    an error and changes nothing. *)
Theorem Clear_empties_the_bucket (db : bolt.Buckets) (bucketName : string) :
  (bucketName ≠ EmptyString → is_Some (db !! bucketName) →
   ∃ db',
     database.Clear db bucketName = (db', None) ∧
     db' !! bucketName = Some ∅ ∧
     database.List db' bucketName = ([], None) ∧
     database.Count db' bucketName = (0%nat, None) ∧
     (∀ name, name ≠ bucketName → db' !! name = db !! name)) ∧
  (db !! bucketName = None →
   database.Clear db bucketName
     = (db, Some (errorWrap "delete bucket" (boltError bolt.ErrBucketNotFound)))).
Proof.
  unfold database.Clear, bolt.Update, bolt.DeleteBucket, bolt.CreateBucket. split.
  - intros Hne [b Hb]. rewrite Hb, decide_False by done.
    rewrite lookup_delete_eq. eexists. split; [done|].
    unfold database.List, database.Count. rewrite lookup_insert_eq.
    split_and!; [done|done|done|].
    intros name Hname. by rewrite lookup_insert_ne, lookup_delete_ne.
  - by intros ->.
Qed.

(** ** [CompactBucket] *)

Lemma string_length_app (s t : string) :
  String.length (s +:+ t) = (String.length s + String.length t)%nat.
Proof.
  induction s as [|c s IH]; [done|].
  change (String.String c s +:+ t) with (String.String c (s +:+ t)).
  cbn [String.length]. by rewrite IH.
Qed.

Lemma string_app_ne_self (s t : string) : t ≠ EmptyString → s ≠ s +:+ t.
Proof.
  intros Ht Heq. apply (f_equal String.length) in Heq.
  rewrite string_length_app in Heq. destruct t; [done|]. cbn in Heq. lia.
Qed.

Lemma string_app_not_empty (s t : string) : t ≠ EmptyString → s +:+ t ≠ EmptyString.
Proof. intros Ht. destruct s; [done|]. done. Qed.

Lemma putAll_inl (tx : bolt.Buckets) target acc items :
  tx !! target = Some acc →
  NoDup items.*1 →
  Forall (fun kv : string * list byte =>
            kv.1 ≠ EmptyString ∧
            N.of_nat (String.length kv.1) ≤ bolt.MaxKeySize ∧
            N.of_nat (length kv.2) ≤ bolt.MaxValueSize) items →
  database.putAll tx target items = inl (<[target := list_to_map items ∪ acc]> tx).
Proof.
  revert tx acc. induction items as [|[k v] items IH]; intros tx acc Htx Hnd Hvalid.
  - cbn. rewrite (left_id_L ∅ (∪)). by rewrite insert_id.
  - cbn in Hnd. apply NoDup_cons in Hnd as [Hk Hnd].
    apply Forall_cons in Hvalid as [(Hk0 & Hklen & Hvlen) Hvalid].
    cbn [database.putAll fst snd] in *. rewrite Htx. cbn [default].
    unfold bolt.Put. rewrite decide_False by done.
    apply N.ltb_ge in Hklen, Hvlen. rewrite Hklen, Hvlen.
    rewrite (IH _ (<[k := v]> acc)); [|by rewrite lookup_insert_eq|done|done].
    rewrite insert_insert_eq. f_equal. f_equal. cbn [list_to_map foldr].
    rewrite <- insert_union_l. cbn [fst snd]. symmetry. apply insert_union_r.
    by apply not_elem_of_list_to_map_1.
Qed.

Lemma putAll_entries (tx : bolt.Buckets) target (b : bolt.Bucket) :
  tx !! target = Some ∅ →
  (∀ k v, b !! k = Some v →
     k ≠ EmptyString ∧
     N.of_nat (String.length k) ≤ bolt.MaxKeySize ∧
     N.of_nat (length v) ≤ bolt.MaxValueSize) →
  database.putAll tx target (bolt.entries b) = inl (<[target := b]> tx).
Proof.
  intros Htx Hvalid. rewrite (putAll_inl tx target ∅); [|done| |].
  - rewrite (right_id_L ∅ (∪)). f_equal. f_equal.
    rewrite <- (list_to_map_to_list b) at 2.
    apply list_to_map_proper; [apply NoDup_entries_keys|apply entries_Permutation].
  - apply NoDup_entries_keys.
  - apply Forall_forall. intros [k v] Hin. apply elem_of_entries in Hin.
    by apply Hvalid.
Qed.

(** X22. [CompactBucket] keeps the contents of the database.  On a database
    whose names, keys and values are as the store admits them, it returns
    nil and leaves every bucket with the keys and values it had, provided
    no bucket has the name of the bucket followed by [_temp]; when such a
    bucket exists it returns an error and changes nothing. *)
Theorem CompactBucket_keeps_contents (db : bolt.Buckets) (bucketName : string) :
  bolt.valid db →
  is_Some (db !! bucketName) →
  (db !! (bucketName +:+ "_temp") = None →
   database.CompactBucket db bucketName = (db, None)) ∧
  (is_Some (db !! (bucketName +:+ "_temp")) →
   database.CompactBucket db bucketName
     = (db, Some (errorWrap "failed to create temp bucket"
                    (boltError bolt.ErrBucketExists)))).
Proof.
  intros Hvalid [b Hb]. destruct (Hvalid bucketName b Hb) as [Hname Hentries].
  assert (Htemp : bucketName ≠ bucketName +:+ "_temp") by by apply string_app_ne_self.
  assert (Htemp' : bucketName +:+ "_temp" ≠ EmptyString) by by apply string_app_not_empty.
  unfold database.CompactBucket, bolt.Update. rewrite Hb.
  unfold bolt.CreateBucket at 1. rewrite decide_False by done. split.
  - intros Hnone. rewrite Hnone.
    rewrite (putAll_entries _ _ b); [|by rewrite lookup_insert_eq|done].
    rewrite insert_insert_eq. unfold bolt.DeleteBucket at 1.
    rewrite lookup_insert_ne, Hb by done.
    unfold bolt.CreateBucket. rewrite decide_False by done.
    rewrite lookup_delete_eq.
    rewrite lookup_insert_ne, lookup_delete_ne, lookup_insert_eq by done.
    cbn [default].
    rewrite (putAll_entries _ _ b); [|by rewrite lookup_insert_eq|done].
    rewrite insert_insert_eq. unfold bolt.DeleteBucket.
    rewrite lookup_insert_ne, lookup_delete_ne, lookup_insert_eq by done.
    f_equal. apply map_eq. intros name.
    destruct (decide (name = bucketName +:+ "_temp")) as [->|Hn1].
    { by rewrite lookup_delete_eq. }
    rewrite lookup_delete_ne by done.
    destruct (decide (name = bucketName)) as [->|Hn2].
    { by rewrite lookup_insert_eq. }
    by rewrite lookup_insert_ne, lookup_delete_ne, lookup_insert_ne by done.
  - intros [t Ht]. unfold bolt.CreateBucket at 1.
    rewrite decide_False by done. by rewrite Ht.
Qed.

Lemma valid_storeAB : bolt.valid storeAB.
Proof.
  intros name b Hb. unfold storeAB in Hb.
  apply lookup_singleton_Some in Hb as [<- <-]. split; [done|].
  intros k v Hk. apply lookup_insert_Some in Hk as [[<- <-]|[_ Hk]].
  - split_and!; [done|vm_compute; discriminate..].
  - apply lookup_singleton_Some in Hk as [<- <-].
    split_and!; [done|vm_compute; discriminate..].
Qed.

Lemma CompactBucket_keeps_contents_witness :
  (storeAB !! ("items" +:+ "_temp")%string = None →
   database.CompactBucket storeAB "items" = (storeAB, None)) ∧
  (is_Some (storeAB !! ("items" +:+ "_temp")%string) →
   database.CompactBucket storeAB "items"
     = (storeAB, Some (errorWrap "failed to create temp bucket"
                         (boltError bolt.ErrBucketExists)))).
Proof.
  apply (CompactBucket_keeps_contents storeAB "items").
  - apply valid_storeAB.
  - by eexists.
Defined.

Example CompactBucket_sample : database.CompactBucket storeAB "items" = (storeAB, None).
Proof. vm_compute. reflexivity. Qed.

Lemma valid_empty : bolt.valid ∅.
Proof. intros name b H. by rewrite lookup_empty in H. Qed.

Lemma Put_valid lib Marshal db bucketName key value db' err :
  bolt.valid db →
  database.Put lib Marshal db bucketName key value = (db', err) →
  bolt.valid db'.
Proof.
  intros Hvalid. unfold database.Put.
  destruct (decide (key = EmptyString)); [by intros [= <- _]|].
  destruct value as [e|]; [|by intros [= <- _]].
  destruct (Marshal e) as [data|]; [|by intros [= <- _]].
  unfold bolt.Update. destruct (db !! bucketName) as [b|] eqn:Hb; [|by intros [= <- _]].
  unfold bolt.Put. rewrite decide_False by done.
  destruct (bolt.MaxKeySize <? _) eqn:Hk; [by intros [= <- _]|].
  destruct (bolt.MaxValueSize <? _) eqn:Hv; [by intros [= <- _]|].
  intros [= <- _]. intros name b' Hb'.
  apply lookup_insert_Some in Hb' as [[<- <-]|[_ Hb']]; [|by apply Hvalid].
  destruct (Hvalid bucketName b Hb) as [Hname Hentries]. split; [done|].
  intros k v Hkv. apply lookup_insert_Some in Hkv as [[<- <-]|[_ Hkv]]; [|by apply Hentries].
  apply N.ltb_ge in Hk, Hv. done.
Qed.

Lemma Delete_valid db bucketName key db' err :
  bolt.valid db → database.Delete db bucketName key = (db', err) → bolt.valid db'.
Proof.
  intros Hvalid Hdel. apply Delete_inv in Hdel as [[_ ->]|(b & _ & _ & Hb & ->)]; [done|].
  intros name b' Hb'.
  apply lookup_insert_Some in Hb' as [[<- <-]|[_ Hb']]; [|by apply Hvalid].
  destruct (Hvalid bucketName b Hb) as [Hname Hentries]. split; [done|].
  intros k v Hkv. apply lookup_delete_Some in Hkv as [_ Hkv]. by apply Hentries.
Qed.

Lemma CreateBucket_valid db bucketName db' err :
  bolt.valid db → database.CreateBucket db bucketName = (db', err) → bolt.valid db'.
Proof.
  intros Hvalid. unfold database.CreateBucket, bolt.Update, bolt.CreateBucketIfNotExists,
    bolt.CreateBucket.
  destruct (decide (bucketName = EmptyString)); [by intros [= <- _]|].
  destruct (db !! bucketName); [by intros [= <- _]|].
  intros [= <- _]. intros name b' Hb'.
  apply lookup_insert_Some in Hb' as [[<- <-]|[_ Hb']]; [|by apply Hvalid].
  split; [done|]. intros k v Hkv. by rewrite lookup_empty in Hkv.
Qed.

(** ** The registry of databases *)

Lemma rangeFirst_Some visit (dbs : gmap string bolt.Buckets) :
  dbs ≠ ∅ → ∃ name, manager.rangeFirst visit dbs = Some name ∧ is_Some (dbs !! name).
Proof.
  intros Hne. unfold manager.rangeFirst.
  assert (Hsize : (size dbs ≠ 0)%nat) by (by intros H%map_size_empty_inv).
  assert (Hlt : (visit `mod` size dbs < length (map_to_list dbs).*1)%nat).
  { rewrite length_fmap, length_map_to_list. by apply Nat.mod_upper_bound. }
  apply lookup_lt_is_Some_2 in Hlt as [name Hname]. exists name. split; [done|].
  apply list_elem_of_lookup_2 in Hname.
  apply list_elem_of_fmap in Hname as ([k db] & -> & Hin).
  apply elem_of_map_to_list in Hin. by exists db.
Qed.

Lemma rangeFirst_empty visit : manager.rangeFirst visit ∅ = None.
Proof. unfold manager.rangeFirst. by rewrite map_to_list_empty. Qed.

Lemma reachable_registryInv openDatabase m :
  manager.reachable openDatabase m → registryInv m.
Proof.
  induction 1 as [|m name dbPath _ IH|m name _ IH|closed visit m name _ IH
                  |failures m _ IH|m name db _ IH Hreg];
    try destruct IH as (Hempty & Hnone & Hsome).
  - split_and!; [done|done|]. by intros [].
  - unfold manager.Connect.
    set (name' := if decide (name = EmptyString) then "main"%string else name).
    assert (Hname' : name' ≠ EmptyString).
    { unfold name'. by destruct (decide (name = EmptyString)). }
    destruct (manager.databases m !! name') eqn:Hreg; [done|].
    destruct (openDatabase name' _) as [db|err]; [|done].
    unfold registryInv; cbn [fst manager.databases manager.defaultDB].
    split_and!.
    + by rewrite lookup_insert_ne.
    + destruct (decide (manager.defaultDB m = EmptyString)); done.
    + intros _. destruct (decide (manager.defaultDB m = EmptyString)) as [|Hd].
      * by rewrite lookup_insert_eq.
      * destruct (decide (manager.defaultDB m = name')) as [->|];
          [by rewrite lookup_insert_eq|].
        rewrite lookup_insert_ne by done. by apply Hsome.
  - unfold manager.SetDefault. destruct (manager.databases m !! name) eqn:Hreg; [|done].
    unfold registryInv; cbn [fst manager.databases manager.defaultDB]. split_and!; [done| |by rewrite Hreg].
    intros ->. by rewrite Hempty in Hreg.
  - unfold manager.Close.
    destruct (decide (name = EmptyString ∧ manager.defaultDB m = EmptyString)); [done|].
    set (name' := if decide (name = EmptyString) then manager.defaultDB m else name).
    destruct (manager.databases m !! name') as [db|] eqn:Hreg; [|done].
    destruct closed; [done|].
    unfold registryInv; cbn [fst manager.databases manager.defaultDB].
    assert (Hname' : name' ≠ EmptyString) by (intros H; by rewrite H, Hempty in Hreg).
    split_and!.
    + by rewrite lookup_delete_ne.
    + destruct (decide (manager.defaultDB m = name')) as [Hd|Hd].
      * destruct (decide (delete name' (manager.databases m) = ∅)) as [|Hne]; [done|].
        destruct (rangeFirst_Some visit _ Hne) as (n' & -> & [db' Hn']). cbn.
        intros ->. rewrite lookup_delete_ne in Hn' by done. by rewrite Hempty in Hn'.
      * intros Hdef. rewrite (Hnone Hdef) in Hreg. by rewrite lookup_empty in Hreg.
    + destruct (decide (manager.defaultDB m = name')) as [Hd|Hd].
      * destruct (decide (delete name' (manager.databases m) = ∅)) as [->|Hne].
        { by rewrite rangeFirst_empty. }
        by destruct (rangeFirst_Some visit _ Hne) as (n' & -> & Hn').
      * intros Hdef. rewrite lookup_delete_ne by done. by apply Hsome.
  - unfold registryInv; cbn [fst manager.databases manager.defaultDB manager.CloseAll].
    split_and!; [done|done|]. by intros [].
  - unfold registryInv; cbn [fst manager.databases manager.defaultDB].
    destruct Hreg as [db0 Hreg].
    assert (Hname : name ≠ EmptyString) by (intros ->; by rewrite Hempty in Hreg).
    split_and!.
    + by rewrite lookup_insert_ne.
    + intros Hdef. rewrite (Hnone Hdef) in Hreg. by rewrite lookup_empty in Hreg.
    + intros Hdef. destruct (decide (manager.defaultDB m = name)) as [->|];
        [by rewrite lookup_insert_eq|].
      rewrite lookup_insert_ne by done. by apply Hsome.
Qed.

(** X23. The default database is always a registered one.  In every state
    the registry reaches through [Connect], [SetDefault], [Close],
    [CloseAll] and writes to its databases, the default name is empty
    exactly when no database is registered; so [Get] fails, with
    [ErrNoDefaultDatabase], exactly then, and otherwise returns the
    database registered under the default name. *)
Theorem Get_default_database (openDatabase : string → string → bolt.Buckets + error)
    (m : manager.DatabaseManager) :
  manager.reachable openDatabase m →
  (manager.defaultDB m = EmptyString ↔ manager.databases m = ∅) ∧
  (manager.Get m = inr ErrNoDefaultDatabase ↔ manager.databases m = ∅) ∧
  (manager.databases m ≠ ∅ →
   ∃ db, manager.databases m !! manager.defaultDB m = Some db ∧
         manager.Get m = inl (manager.defaultDB m, db)).
Proof.
  intros Hr. apply reachable_registryInv in Hr as (Hempty & Hnone & Hsome).
  assert (Hdef : manager.defaultDB m = EmptyString ↔ manager.databases m = ∅).
  { split; [done|]. intros Hdbs. destruct (decide (manager.defaultDB m = EmptyString))
      as [|Hd]; [done|]. apply Hsome in Hd as [db Hd]. by rewrite Hdbs in Hd. }
  unfold manager.Get, manager.GetNamed. split_and!; [done| |].
  - rewrite <- Hdef. destruct (decide (manager.defaultDB m = EmptyString)) as [Hd|Hd].
    + by rewrite decide_True.
    + rewrite decide_False by tauto. rewrite decide_True by done.
      destruct (Hsome Hd) as [db ->]. split; [done|]. intros H. done.
  - intros Hne. assert (Hd : manager.defaultDB m ≠ EmptyString) by tauto.
    rewrite decide_False by tauto. rewrite decide_True by done.
    destruct (Hsome Hd) as [db Hdb]. exists db. by rewrite Hdb.
Qed.

Lemma Get_default_database_witness :
  (manager.defaultDB (manager.Connect openEmpty manager.init "" "").1 = EmptyString ↔
   manager.databases (manager.Connect openEmpty manager.init "" "").1 = ∅) ∧
  (manager.Get (manager.Connect openEmpty manager.init "" "").1
     = inr ErrNoDefaultDatabase ↔
   manager.databases (manager.Connect openEmpty manager.init "" "").1 = ∅) ∧
  (manager.databases (manager.Connect openEmpty manager.init "" "").1 ≠ ∅ →
   ∃ db, manager.databases (manager.Connect openEmpty manager.init "" "").1
           !! manager.defaultDB (manager.Connect openEmpty manager.init "" "").1
         = Some db ∧
         manager.Get (manager.Connect openEmpty manager.init "" "").1
         = inl (manager.defaultDB (manager.Connect openEmpty manager.init "" "").1, db)).
Proof.
  apply (Get_default_database openEmpty (manager.Connect openEmpty manager.init "" "").1).
  apply manager.reach_Connect, manager.reach_init.
Defined.

Example Connect_sample :
  manager.Get (manager.Connect openEmpty manager.init "" "").1 = inl ("main"%string, ∅).
Proof. vm_compute. reflexivity. Qed.

(** X24. What [Connect] does to the registry.  The database is registered
    under the name given, or under [main] when the name is empty; a name
    that is taken gives [ErrDatabaseExists]; on any error the registry is as
    it was; the other databases stay registered as they were.  In every
    state the registry reaches, the first database connected becomes the
    default, and connecting another leaves the default alone. *)
Theorem Connect_registers (openDatabase : string → string → bolt.Buckets + error)
    (m : manager.DatabaseManager) (name dbPath : string) :
  manager.reachable openDatabase m →
  let registered := if decide (name = EmptyString) then "main"%string else name in
  let result := manager.Connect openDatabase m name dbPath in
  (result.2 = None →
   manager.databases m !! registered = None ∧
   is_Some (manager.databases result.1 !! registered) ∧
   ∀ other, other ≠ registered →
     manager.databases result.1 !! other = manager.databases m !! other) ∧
  (result.2 ≠ None → result.1 = m) ∧
  (is_Some (manager.databases m !! registered) → result.2 = Some ErrDatabaseExists) ∧
  (manager.databases m = ∅ → result.2 = None → manager.defaultDB result.1 = registered) ∧
  (manager.databases m ≠ ∅ → manager.defaultDB result.1 = manager.defaultDB m).
Proof.
  intros Hr. apply reachable_registryInv in Hr as (Hempty & Hnone & Hsome).
  cbn zeta. unfold manager.Connect.
  set (registered := if decide (name = EmptyString) then "main"%string else name).
  destruct (manager.databases m !! registered) as [db0|] eqn:Hreg.
  { cbn [fst snd]. split_and!; done. }
  destruct (openDatabase registered _) as [db|err]; cbn [fst snd manager.databases
    manager.defaultDB].
  - split_and!; try done.
    + intros _. split_and!; [done|by rewrite lookup_insert_eq|].
      intros other Hother. by rewrite lookup_insert_ne.
    + intros Hdbs _. rewrite decide_True; [done|].
      destruct (decide (manager.defaultDB m = EmptyString)) as [|Hd]; [done|].
      apply Hsome in Hd as [? Hd]. by rewrite Hdbs in Hd.
    + intros Hdbs. rewrite decide_False; [done|]. intros Hd. by apply Hdbs, Hnone.
  - split_and!; done.
Qed.

Lemma Connect_registers_witness :
  ((manager.Connect openEmpty manager.init "" "").2 = None →
   manager.databases manager.init !! "main"%string = None ∧
   is_Some (manager.databases (manager.Connect openEmpty manager.init "" "").1
              !! "main"%string) ∧
   ∀ other, other ≠ "main"%string →
     manager.databases (manager.Connect openEmpty manager.init "" "").1 !! other
     = manager.databases manager.init !! other) ∧
  ((manager.Connect openEmpty manager.init "" "").2 ≠ None →
   (manager.Connect openEmpty manager.init "" "").1 = manager.init) ∧
  (is_Some (manager.databases manager.init !! "main"%string) →
   (manager.Connect openEmpty manager.init "" "").2 = Some ErrDatabaseExists) ∧
  (manager.databases manager.init = ∅ →
   (manager.Connect openEmpty manager.init "" "").2 = None →
   manager.defaultDB (manager.Connect openEmpty manager.init "" "").1 = "main"%string) ∧
  (manager.databases manager.init ≠ ∅ →
   manager.defaultDB (manager.Connect openEmpty manager.init "" "").1
   = manager.defaultDB manager.init).
Proof.
  apply (Connect_registers openEmpty manager.init "" ""). apply manager.reach_init.
Defined.

(** ** Saving, finding and deleting a record *)

Lemma GetNamed_inl m dbName name db :
  manager.GetNamed m dbName = inl (name, db) →
  manager.databases m !! name = Some db ∧
  ∀ db' , manager.GetNamed
            {| manager.databases := <[name := db']> (manager.databases m);
               manager.defaultDB := manager.defaultDB m |} dbName = inl (name, db').
Proof.
  unfold manager.GetNamed. cbn [manager.databases manager.defaultDB].
  destruct (decide (dbName = EmptyString ∧ manager.defaultDB m = EmptyString)); [done|].
  set (name' := if decide (dbName = EmptyString) then manager.defaultDB m else dbName).
  destruct (manager.databases m !! name') as [db0|] eqn:Hreg; [|done].
  intros [= <- <-]. split; [done|]. intros db'. by rewrite lookup_insert_eq.
Qed.

Lemma planQuery_after_UpdateIndex (idx : Index) b key e n v :
  indexed e n v →
  ∃ keys, planQuery (UpdateIndex b key e idx) b [(n, v)] = Returns (ByKeys keys) ∧
          key ∈ keys.
Proof.
  intros Hind.
  assert (Hkey : canBeKey v = true) by apply isHashable_canBeKey, Hind.
  exists (addKey key (default [] (keysOf idx b n v))). split; [|apply addKey_elem].
  unfold planQuery.
  assert (Hhas : HasIndex (UpdateIndex b key e idx) b = true).
  { apply bool_decide_eq_true, UpdateIndex_bucket. }
  rewrite Hhas, GetIndexedKeys_keysOf by done.
  rewrite UpdateIndex_keysOf. by rewrite decide_True.
Qed.

(** X25. A record that was saved is found.  When [SaveToDatabase] returns
    nil, [FindInDatabase] with the bucket name of the record's type and its
    ID decodes the JSON text of the record into its target, provided the
    codecs read back what they write for that text; and a query on any
    field name and value the record is filed under takes the index path and
    is answered with keys that include the ID. *)
Theorem Save_then_Find (lib : Codecs) (Marshal : Entity → option (list byte))
    (Unmarshal : list byte → Entity → option Entity)
    (w w' : bucket.World) (ID dbName : string) (typ : StructType)
    (entity target : Entity) (data : list byte) :
  Marshal entity = Some data →
  codecsReadBack lib data →
  bucket.SaveToDatabase lib Marshal w ID dbName typ entity = (w', None) →
  bucket.FindInDatabase lib Unmarshal w' dbName (GetBucketName typ) ID (Some target) =
    Returns (match Unmarshal data target with
             | Some target' =>
                 database.Got target'
                   (database.legacyTag (compression.CompressData lib data)
                    && (50 <? length data)%nat)
             | None => database.Failed jsonError
             end) ∧
  (∀ n v, indexed entity n v →
     ∃ keys,
       planQuery (bucket.bucketIndexes w') (GetBucketName typ) [(n, v)]
         = Returns (ByKeys keys) ∧
       ID ∈ keys).
Proof.
  intros Hm Hcodecs. unfold bucket.SaveToDatabase.
  destruct (manager.GetNamed (bucket.registry w) dbName) as [[name db]|] eqn:Hnamed;
    [|done].
  destruct (decide (ID = EmptyString)) as [|HID]; [done|].
  destruct (database.Put lib Marshal db (GetBucketName typ) ID (Some entity))
    as [db' err] eqn:Hput.
  intros [= <- ->]. apply GetNamed_inl in Hnamed as [_ Hnamed']. split.
  - unfold bucket.FindInDatabase, bucket.written. cbn [bucket.registry].
    rewrite Hnamed'.
    pose proof (Put_inv _ _ _ _ _ _ _ _ Hput)
      as [[? _]|(e & data' & b & _ & [= <-] & Hm' & Hkey & Hb & ->)]; [done|].
    rewrite Hm in Hm'. injection Hm' as <-.
    unfold database.Get. rewrite decide_False by done.
    rewrite lookup_insert_eq, lookup_insert_eq.
    rewrite decide_False.
    2:{ intros Hlen. apply (CompressData_not_empty lib data).
        by destruct (compression.CompressData lib data). }
    rewrite frame_roundtrip by done. by destruct (Unmarshal data target).
  - intros n v Hind. cbn [bucket.written bucket.bucketIndexes].
    by apply planQuery_after_UpdateIndex.
Qed.

Lemma Save_then_Find_witness :
  bucket.FindInDatabase lzw_only unmarshalAB
    (bucket.SaveToDatabase lzw_only marshalAB worldItems "A" "main" itemType recA).1
    "main" (GetBucketName itemType) "A" (Some []) =
    Returns (match unmarshalAB rawA [] with
             | Some target' =>
                 database.Got target'
                   (database.legacyTag (compression.CompressData lzw_only rawA)
                    && (50 <? length rawA)%nat)
             | None => database.Failed jsonError
             end) ∧
  (∀ n v, indexed recA n v →
     ∃ keys,
       planQuery
         (bucket.bucketIndexes
            (bucket.SaveToDatabase lzw_only marshalAB worldItems "A" "main" itemType recA).1)
         (GetBucketName itemType) [(n, v)] = Returns (ByKeys keys) ∧
       "A"%string ∈ keys).
Proof.
  apply (Save_then_Find lzw_only marshalAB unmarshalAB worldItems _ "A" "main" itemType
           recA [] rawA).
  - reflexivity.
  - apply codecsReadBack_lzw_only. vm_compute. reflexivity.
  - vm_compute. reflexivity.
Defined.

(** X26. The index is updated before the store is written and is not
    rolled back.  When [SaveToDatabase] gets as far as [Put] and [Put]
    fails, as it does when the database has no bucket of that name, the
    error is returned and the database is as it was, but the index already
    lists the ID under every field name and value of the record: a query on
    one of them takes the index path and is answered with the ID of a
    record [FindInDatabase] does not find. *)
Theorem Save_failure_leaves_index_entry (lib : Codecs)
    (Marshal : Entity → option (list byte))
    (Unmarshal : list byte → Entity → option Entity)
    (w : bucket.World) (ID dbName name : string) (db : bolt.Buckets)
    (typ : StructType) (entity target : Entity) :
  manager.GetNamed (bucket.registry w) dbName = inl (name, db) →
  ID ≠ EmptyString →
  is_Some (Marshal entity) →
  db !! GetBucketName typ = None →
  ∃ w',
    bucket.SaveToDatabase lib Marshal w ID dbName typ entity
      = (w', Some ErrBucketMissing) ∧
    manager.GetNamed (bucket.registry w') dbName = inl (name, db) ∧
    bucket.FindInDatabase lib Unmarshal w' dbName (GetBucketName typ) ID (Some target)
      = Returns (database.Failed ErrBucketMissing) ∧
    (∀ n v, indexed entity n v →
       ∃ keys,
         planQuery (bucket.bucketIndexes w') (GetBucketName typ) [(n, v)]
           = Returns (ByKeys keys) ∧
         ID ∈ keys).
Proof.
  intros Hnamed HID [data Hm] Hb. unfold bucket.SaveToDatabase.
  rewrite Hnamed, decide_False by done.
  unfold database.Put. rewrite decide_False, Hm by done.
  unfold bolt.Update. rewrite Hb.
  eexists. split; [done|].
  apply GetNamed_inl in Hnamed as [_ Hnamed'].
  unfold bucket.FindInDatabase, bucket.written. cbn [bucket.registry bucket.bucketIndexes].
  rewrite Hnamed'. split_and!; [done| |].
  - unfold database.Get. by rewrite decide_False, Hb.
  - intros n v Hind. by apply planQuery_after_UpdateIndex.
Qed.

Lemma Save_failure_leaves_index_entry_witness :
  ∃ w',
    bucket.SaveToDatabase lzw_only marshalAB worldNoBucket "A" "main" itemType recA
      = (w', Some ErrBucketMissing) ∧
    manager.GetNamed (bucket.registry w') "main" = inl ("main"%string, ∅) ∧
    bucket.FindInDatabase lzw_only unmarshalAB w' "main" (GetBucketName itemType) "A"
      (Some []) = Returns (database.Failed ErrBucketMissing) ∧
    (∀ n v, indexed recA n v →
       ∃ keys,
         planQuery (bucket.bucketIndexes w') (GetBucketName itemType) [(n, v)]
           = Returns (ByKeys keys) ∧
         "A"%string ∈ keys).
Proof.
  apply (Save_failure_leaves_index_entry lzw_only marshalAB unmarshalAB worldNoBucket
           "A" "main" "main" ∅ itemType recA []).
  - vm_compute. reflexivity.
  - done.
  - by eexists.
  - vm_compute. reflexivity.
Defined.

(** X27. A record that was deleted is gone from the store and from the
    index.  When [DeleteFromDatabase] returns nil, [FindInDatabase] with the
    bucket name of the record's type and its ID reports [ErrNotFound], and,
    the index holding no key twice, no key list the index returns for a
    field name and value of the record holds the ID. *)
Theorem Delete_then_Find (lib : Codecs)
    (Unmarshal : list byte → Entity → option Entity)
    (w w' : bucket.World) (ID dbName : string) (typ : StructType)
    (entity target : Entity) :
  wf (bucket.bucketIndexes w) →
  bucket.DeleteFromDatabase w ID dbName typ entity = (w', None) →
  bucket.FindInDatabase lib Unmarshal w' dbName (GetBucketName typ) ID (Some target)
    = Returns (database.Failed ErrNotFound) ∧
  (∀ n v keys, indexed entity n v →
     GetIndexedKeys (bucket.bucketIndexes w') (GetBucketName typ) n v
       = Returns (Some keys) →
     ID ∉ keys).
Proof.
  intros Hwf. unfold bucket.DeleteFromDatabase.
  destruct (manager.GetNamed (bucket.registry w) dbName) as [[name db]|] eqn:Hnamed;
    [|done].
  destruct (decide (ID = EmptyString)) as [|HID]; [done|].
  destruct (database.Delete db (GetBucketName typ) ID) as [db' err] eqn:Hdel.
  intros [= <- ->]. apply GetNamed_inl in Hnamed as [_ Hnamed']. split.
  - unfold bucket.FindInDatabase, bucket.written. cbn [bucket.registry].
    rewrite Hnamed'.
    apply Delete_inv in Hdel as [[? _]|(b & _ & Hkey & Hb & ->)]; [done|].
    unfold database.Get. rewrite decide_False by done.
    by rewrite lookup_insert_eq, lookup_delete_eq.
  - intros n v keys Hind. cbn [bucket.written bucket.bucketIndexes].
    assert (Hkey : canBeKey v = true) by apply isHashable_canBeKey, Hind.
    rewrite GetIndexedKeys_keysOf by done.
    rewrite RemoveFromIndex_keysOf by done. rewrite decide_True by done.
    intros [= Hk].
    destruct (keysOf (bucket.bucketIndexes w) (GetBucketName typ) n v) as [old|] eqn:Hold;
      [|done].
    cbn in Hk. unfold pruned in Hk.
    destruct (decide (length (removeKey ID old) = 0%nat)); [done|].
    injection Hk as <-. apply removeKey_not_elem. by eapply Hwf.
Qed.

Lemma Delete_then_Find_witness :
  bucket.FindInDatabase lzw_only unmarshalAB
    (bucket.DeleteFromDatabase
       (bucket.SaveToDatabase lzw_only marshalAB worldItems "A" "main" itemType recA).1
       "A" "main" itemType recA).1
    "main" (GetBucketName itemType) "A" (Some [])
    = Returns (database.Failed ErrNotFound) ∧
  (∀ n v keys, indexed recA n v →
     GetIndexedKeys
       (bucket.bucketIndexes
          (bucket.DeleteFromDatabase
             (bucket.SaveToDatabase lzw_only marshalAB worldItems "A" "main" itemType recA).1
             "A" "main" itemType recA).1)
       (GetBucketName itemType) n v = Returns (Some keys) →
     "A"%string ∉ keys).
Proof.
  apply (Delete_then_Find lzw_only unmarshalAB
           (bucket.SaveToDatabase lzw_only marshalAB worldItems "A" "main" itemType recA).1
           _ "A" "main" itemType recA []).
  - change (wf (UpdateIndex (GetBucketName itemType) "A" recA ∅)).
    apply UpdateIndex_wf, wf_empty.
  - vm_compute. reflexivity.
Defined.

(** ** Bucket names *)

Lemma lookupFields_untagged key fields :
  Forall (fun f => Lookup (Tag f) key = None) fields → lookupFields key fields = None.
Proof.
  induction 1 as [|f fields Hf _ IH]; [done|]. cbn. rewrite Hf.
  by destruct (decide (TypeName f = "Bucket"%string)).
Qed.

Lemma lookupFields_first key pre f post name :
  Forall (fun g => Lookup (Tag g) key = None) pre →
  Lookup (Tag f) key = Some name →
  lookupFields key (pre ++ f :: post) = Some name.
Proof.
  induction 1 as [|g pre Hg _ IH]; intros Hf; cbn.
  - rewrite Hf. by destruct (decide (TypeName f = "Bucket"%string)).
  - rewrite Hg. destruct (decide (TypeName g = "Bucket"%string)); by apply IH.
Qed.

Lemma lookupFields_None key fields :
  lookupFields key fields = None →
  Forall (fun f => Lookup (Tag f) key = None) fields.
Proof.
  induction fields as [|f fields IH]; [constructor|]. cbn.
  destruct (Lookup (Tag f) key) as [v|] eqn:Hf.
  - by destruct (decide (TypeName f = "Bucket"%string)).
  - intros H. constructor; [done|]. apply IH.
    by destruct (decide (TypeName f = "Bucket"%string)).
Qed.

Lemma substring_app_l (s t : string) : String.substring 0 (String.length s) (s +:+ t) = s.
Proof.
  induction s as [|c s IH]; [by destruct t|].
  change (String.String c s +:+ t) with (String.String c (s +:+ t)).
  cbn [String.length String.substring]. by rewrite IH.
Qed.

Lemma substring_app_r (s t : string) :
  String.substring (String.length s) (String.length t) (s +:+ t) = t.
Proof.
  induction s as [|c s IH].
  - cbn [String.length]. change (EmptyString +:+ t) with t.
    rewrite <- (substring_app_l t EmptyString) at 3.
    f_equal. clear. induction t as [|c t IH]; [done|].
    change (String.String c t +:+ EmptyString) with (String.String c (t +:+ EmptyString)).
    by rewrite <- IH.
  - change (String.String c s +:+ t) with (String.String c (s +:+ t)).
    cbn [String.length String.substring]. by rewrite IH.
Qed.

(** X28. How a record's type names its bucket and its database.  The value
    of the first [bucket] tag among the fields is the bucket name, whatever
    the type of the field that carries it.  Without such a tag the name is
    the name of the struct, less a final [Entity] when something is left
    before it: [UserEntity] gives [User], and [Entity] gives [Entity].  The
    database is the value of the first [database] tag, and
    [GetBucketDatabase] fails exactly when no field has one. *)
Theorem GetBucketName_convention (typ : StructType) :
  (∀ pre f post name,
     structFields typ = pre ++ f :: post →
     Forall (fun g => Lookup (Tag g) "bucket" = None) pre →
     Lookup (Tag f) "bucket" = Some name →
     GetBucketName typ = name) ∧
  (Forall (fun g => Lookup (Tag g) "bucket" = None) (structFields typ) →
   (∀ s, s ≠ EmptyString → structName typ = s +:+ "Entity" → GetBucketName typ = s) ∧
   (structName typ = "Entity"%string → GetBucketName typ = "Entity"%string) ∧
   ((String.length (structName typ) ≤ 6)%nat → GetBucketName typ = structName typ)) ∧
  (∀ pre f post name,
     structFields typ = pre ++ f :: post →
     Forall (fun g => Lookup (Tag g) "database" = None) pre →
     Lookup (Tag f) "database" = Some name →
     GetBucketDatabase typ = inl name) ∧
  (GetBucketDatabase typ = inr (errorNew "no database tag found") ↔
   Forall (fun g => Lookup (Tag g) "database" = None) (structFields typ)).
Proof.
  unfold GetBucketName, GetBucketDatabase. split_and!.
  - intros pre f post name -> Hpre Hf. by rewrite (lookupFields_first _ _ _ _ name).
  - intros Hno. rewrite lookupFields_untagged by done. split_and!.
    + intros s Hs ->. rewrite string_length_app.
      change (String.length "Entity") with 6%nat.
      replace (String.length s + 6 - 6)%nat with (String.length s) by lia.
      assert (Hlt : (6 <? String.length s + 6)%nat = true).
      { apply Nat.ltb_lt. destruct s; [done|]. cbn. lia. }
      pose proof (substring_app_r s "Entity") as Hr.
      change (String.length "Entity") with 6%nat in Hr.
      rewrite Hlt, Hr, (substring_app_l s "Entity"). done.
    + by intros ->.
    + intros Hlen. apply Nat.ltb_ge in Hlen. by rewrite Hlen.
  - intros pre f post name -> Hpre Hf. by rewrite (lookupFields_first _ _ _ _ name).
  - split.
    + intros H. apply lookupFields_None.
      by destruct (lookupFields "database" (structFields typ)).
    + intros Hno. by rewrite lookupFields_untagged.
Qed.

Example GetBucketName_samples :
  GetBucketName itemType = "items"%string ∧
  GetBucketName {| structName := "UserEntity"; structFields := [] |} = "User"%string ∧
  GetBucketName {| structName := "Entity"; structFields := [] |} = "Entity"%string ∧
  GetBucketDatabase itemType = inl "main"%string.
Proof. vm_compute. done. Qed.

(** ** Moving a bucket to another database *)

Lemma migrateLoop_errors lib bucketName items targetDB errs count targetDB' errs' count' :
  migration.migrateLoop lib bucketName items targetDB errs count
    = Returns (targetDB', errs', count') →
  ∃ more, errs' = errs ++ more.
Proof.
  revert targetDB errs count. induction items as [|[k v] items IH];
    intros targetDB errs count; cbn [migration.migrateLoop].
  - intros [= _ <- _]. exists []. by rewrite app_nil_r.
  - destruct (compression.DecompressData lib v) as [actualData|]; [|done].
    destruct (bolt.Update targetDB _) as [targetDB1 [text|]]; intros Hloop;
      apply IH in Hloop as [more ->].
    + eexists. by rewrite <- app_assoc.
    + by eexists.
Qed.

Lemma migrateLoop_copies lib bucketName items targetDB count targetDB' count' :
  NoDup items.*1 →
  migration.migrateLoop lib bucketName items targetDB [] count
    = Returns (targetDB', [], count') →
  (∀ k v, (k, v) ∈ items →
     ∃ actualData,
       compression.DecompressData lib v = Returns actualData ∧
       stored targetDB' bucketName k = Some (compression.CompressData lib actualData)) ∧
  (∀ name k, ¬ (name = bucketName ∧ k ∈ items.*1) →
     stored targetDB' name k = stored targetDB name k).
Proof.
  revert targetDB count. induction items as [|[k v] items IH];
    intros targetDB count Hnd; cbn [migration.migrateLoop].
  - intros [= <- _]. split; [|done]. intros k v H. by apply elem_of_nil in H.
  - cbn in Hnd. apply NoDup_cons in Hnd as [Hk Hnd].
    destruct (compression.DecompressData lib v) as [actualData|] eqn:Hd; [|done].
    unfold bolt.Update.
    destruct (targetDB !! bucketName) as [targetBucket|] eqn:Hb.
    2:{ intros Hloop. apply migrateLoop_errors in Hloop as [more Hmore].
        by destruct more. }
    destruct (bolt.Put targetBucket k (compression.CompressData lib actualData))
      as [b'|e] eqn:Hput.
    2:{ intros Hloop. apply migrateLoop_errors in Hloop as [more Hmore].
        by destruct more. }
    apply bolt_Put_inl in Hput as [_ ->]. intros Hloop.
    apply IH in Hloop as [Hcopied Hrest]; [|done]. split.
    + intros k' v' Hin. apply elem_of_cons in Hin as [[= -> ->]|Hin]; [|by apply Hcopied].
      exists actualData. split; [done|]. rewrite Hrest by tauto.
      rewrite stored_insert, decide_True by done. apply lookup_insert_eq.
    + intros name k' Hno. rewrite Hrest.
      2:{ intros [-> Hin]. apply Hno. split; [done|]. cbn. apply elem_of_cons. by right. }
      rewrite stored_insert. destruct (decide (name = bucketName)) as [->|]; [|done].
      unfold stored. rewrite Hb. cbn. apply lookup_insert_ne. intros ->.
      apply Hno. split; [done|]. cbn. apply elem_of_cons. by left.
Qed.

(** X29. A migration that returns nil has copied every record.  For a
    source database registered under [self] that has the bucket, when
    [MigrateBucket] returns nil the target database holds, under every key
    of the source bucket, the frame [CompressData] builds of the
    decompressed source value, which decompresses to the same bytes when
    the codecs read back what they write for them; what the target held
    under other keys or in other buckets is as it was; and the source
    database is unchanged, or has lost just that bucket when the source was
    to be deleted. *)
Theorem MigrateBucket_copies_every_record (lib : Codecs)
    (m m' : manager.DatabaseManager) (self bucketName targetDBName : string)
    (deleteSource : bool) (src : bolt.Buckets) (b : bolt.Bucket) :
  manager.databases m !! self = Some src →
  src !! bucketName = Some b →
  migration.MigrateBucket lib m self bucketName targetDBName deleteSource
    = Returns (m', None) →
  (∃ tgt tgt',
     manager.databases m !! targetDBName = Some tgt ∧
     manager.databases m' !! targetDBName = Some tgt' ∧
     (∀ k v, b !! k = Some v →
        ∃ actualData,
          compression.DecompressData lib v = Returns actualData ∧
          stored tgt' bucketName k = Some (compression.CompressData lib actualData) ∧
          (codecsReadBack lib actualData →
           compression.DecompressData lib (compression.CompressData lib actualData)
             = Returns actualData)) ∧
     (∀ name k, ¬ (name = bucketName ∧ is_Some (b !! k)) →
        stored tgt' name k = stored tgt name k)) ∧
  manager.databases m' !! self
    = Some (if deleteSource then delete bucketName src else src).
Proof.
  intros Hself Hb. unfold migration.MigrateBucket.
  destruct (decide (bucketName = EmptyString)) as [|Hbucket]; [done|].
  destruct (decide (targetDBName = EmptyString)) as [|Htarget]; [done|].
  destruct (decide (targetDBName = self)) as [|Hne]; [done|].
  destruct (manager.GetNamed m targetDBName) as [[targetName tgt]|] eqn:Hnamed; [|done].
  assert (Htgt : targetName = targetDBName ∧ manager.databases m !! targetDBName = Some tgt).
  { unfold manager.GetNamed in Hnamed.
    rewrite decide_False in Hnamed by tauto. rewrite decide_False in Hnamed by done.
    destruct (manager.databases m !! targetDBName); [|done]. by injection Hnamed as <- <-. }
  destruct Htgt as [-> Htgt].
  destruct (database.CreateBucket tgt bucketName) as [tgt1 [err|]] eqn:Hcreate; [done|].
  assert (Htgt1 : is_Some (tgt1 !! bucketName) ∧
                  ∀ name k, stored tgt1 name k = stored tgt name k).
  { unfold database.CreateBucket, bolt.Update, bolt.CreateBucketIfNotExists,
      bolt.CreateBucket in Hcreate.
    rewrite decide_False in Hcreate by done.
    destruct (tgt !! bucketName) as [old|] eqn:Hold.
    - injection Hcreate as <-. by rewrite Hold.
    - injection Hcreate as <-. rewrite lookup_insert_eq. split; [by eexists|].
      intros name k. rewrite stored_insert.
      destruct (decide (name = bucketName)) as [->|]; [|done].
      unfold stored. by rewrite Hold, lookup_empty. }
  destruct Htgt1 as [_ Hsame1].
  rewrite Hself, Hb.
  destruct (migration.migrateLoop lib bucketName (bolt.entries b) tgt1 [] 0)
    as [[[tgt2 errs] count]|] eqn:Hloop; [|done].
  destruct (decide (0 < length errs)%nat) as [|Hnoerr]; [done|].
  assert (errs = []) as -> by (destruct errs; [done|cbn in Hnoerr; lia]).
  apply migrateLoop_copies in Hloop as [Hcopied Hrest]; [|apply NoDup_entries_keys].
  assert (Hresult : ∀ dbs : gmap string bolt.Buckets, dbs !! targetDBName = Some tgt2 →
    ∃ tgt0 tgt', manager.databases m !! targetDBName = Some tgt0 ∧
      dbs !! targetDBName = Some tgt' ∧
      (∀ k v, b !! k = Some v →
        ∃ actualData,
          compression.DecompressData lib v = Returns actualData ∧
          stored tgt' bucketName k = Some (compression.CompressData lib actualData) ∧
          (codecsReadBack lib actualData →
           compression.DecompressData lib (compression.CompressData lib actualData)
             = Returns actualData)) ∧
      (∀ name k, ¬ (name = bucketName ∧ is_Some (b !! k)) →
        stored tgt' name k = stored tgt0 name k)).
  { intros dbs Hdbs. exists tgt, tgt2. split_and!; [done|done| |].
    - intros k v Hkv. destruct (Hcopied k v) as (actualData & Hd & Hs).
      { by apply elem_of_entries. }
      exists actualData. split_and!; [done|done|apply frame_roundtrip].
    - intros name k Hno. rewrite Hrest, Hsame1; [done|].
      intros [-> Hin]. apply Hno. split; [done|]. by apply elem_of_entries_keys. }
  destruct deleteSource.
  - unfold database.DeleteBucket, bolt.Update, bolt.DeleteBucket. rewrite Hb.
    intros [= <-]. unfold migration.withDatabase. cbn [manager.databases]. split.
    + apply Hresult. by rewrite lookup_insert_ne, lookup_insert_eq.
    + by rewrite lookup_insert_eq.
  - intros [= <-]. unfold migration.withDatabase. cbn [manager.databases]. split.
    + apply Hresult. by rewrite lookup_insert_eq.
    + by rewrite lookup_insert_ne.
Qed.

Lemma MigrateBucket_copies_every_record_witness :
  (∃ tgt tgt',
     manager.databases registryAB !! "backup"%string = Some tgt ∧
     manager.databases (migration.withDatabase registryAB "backup" storeAB)
       !! "backup"%string = Some tgt' ∧
     (∀ k v, ({["A"%string := x00 :: rawA; "B"%string := x00 :: rawB]} : bolt.Bucket)
               !! k = Some v →
        ∃ actualData,
          compression.DecompressData lzw_only v = Returns actualData ∧
          stored tgt' "items" k = Some (compression.CompressData lzw_only actualData) ∧
          (codecsReadBack lzw_only actualData →
           compression.DecompressData lzw_only
             (compression.CompressData lzw_only actualData) = Returns actualData)) ∧
     (∀ name k,
        ¬ (name = "items"%string ∧
           is_Some (({["A"%string := x00 :: rawA; "B"%string := x00 :: rawB]}
                     : bolt.Bucket) !! k)) →
        stored tgt' name k = stored tgt name k)) ∧
  manager.databases (migration.withDatabase registryAB "backup" storeAB) !! "main"%string
    = Some (if false then delete "items"%string storeAB else storeAB).
Proof.
  apply (MigrateBucket_copies_every_record lzw_only registryAB
           (migration.withDatabase registryAB "backup" storeAB)
           "main" "items" "backup" false storeAB
           {["A"%string := x00 :: rawA; "B"%string := x00 :: rawB]}).
  - vm_compute. reflexivity.
  - vm_compute. reflexivity.
  - vm_compute. reflexivity.
Defined.

(** ** From [Put] to the workers of the scan *)

Lemma forEachLoop_collect lib items acc result err :
  database.forEachLoop lib collect items acc = Returns (result, err) →
  err = None ∧
  ∃ decoded,
    Forall2 (fun (kv kd : string * list byte) =>
               kd.1 = kv.1 ∧ compression.DecompressData lib kv.2 = Returns kd.2)
      items decoded ∧
    result = acc ++ decoded.
Proof.
  revert acc. induction items as [|[k v] items IH]; intros acc;
    cbn [database.forEachLoop].
  - intros [= <- <-]. split; [done|]. exists []. split; [constructor|].
    by rewrite app_nil_r.
  - destruct (compression.DecompressData lib v) as [actualData|] eqn:Hd; [|done].
    cbn [collect]. intros Hloop. apply IH in Hloop as (-> & decoded & Hall & ->).
    split; [done|]. exists ((k, actualData) :: decoded). split.
    + by constructor.
    + by rewrite <- app_assoc.
Qed.

(** X30. What [Put] stored reaches the workers of the scan as the JSON text.
    After a [Put] that returned nil, a [ForEach] over the bucket that
    returns has called its callback once for each key [List] returns, in
    that order, and for the key of the [Put] with the JSON text [Put] made
    of the value, provided the codecs read back what they write for it;
    and a worker of the scan that is handed that text, which carries no
    tag, decompresses it a second time without changing it and decodes
    it. *)
Theorem Put_then_ForEach (lib : Codecs) (Marshal : Entity → option (list byte))
    (jsonDecode : list byte → option Entity)
    (db db' : bolt.Buckets) (bucketName key : string) (value : Entity)
    (data : list byte) (items : list (string * list byte)) (err : option error)
    (criteria : Criteria) (matcher : FieldMatcher) :
  Marshal value = Some data →
  codecsReadBack lib data →
  untagged data = true →
  database.Put lib Marshal db bucketName key (Some value) = (db', None) →
  database.ForEach lib db' bucketName collect [] = Returns (items, err) →
  err = None ∧
  items.*1 = (database.List db' bucketName).1 ∧
  (key, data) ∈ items ∧
  worker lib jsonDecode criteria matcher data =
    Returns (match jsonDecode data with
             | Some entity =>
                 if MatchesCriteria entity criteria matcher then Some entity else None
             | None => None
             end).
Proof.
  intros Hm Hcodecs Hplain Hput.
  apply Put_inv in Hput as [[? _]|(e & data' & b & _ & [= <-] & Hm' & Hkey & Hb & ->)];
    [done|].
  rewrite Hm in Hm'. injection Hm' as <-.
  unfold database.ForEach, database.List. rewrite lookup_insert_eq. cbn [fst].
  intros Hloop. apply forEachLoop_collect in Hloop as (-> & decoded & Hall & ->).
  cbn [app]. split_and!; [done| | |by apply worker_untagged].
  - clear -Hall. induction Hall as [|kv kd items decoded [Hk _] _ IH]; [done|].
    cbn. by rewrite Hk, IH.
  - assert (Hin : (key, compression.CompressData lib data)
                  ∈ bolt.entries (<[key := compression.CompressData lib data]> b)).
    { apply elem_of_entries, lookup_insert_eq. }
    apply list_elem_of_lookup in Hin as [i Hi].
    destruct (Forall2_lookup_l _ _ _ _ _ Hall Hi) as ([k' d] & Hdi & Hk' & Hd).
    cbn in Hk', Hd. subst k'. rewrite frame_roundtrip in Hd by done.
    injection Hd as <-. by apply list_elem_of_lookup_2 in Hdi.
Qed.

Lemma Put_then_ForEach_witness :
  (None : option error) = None ∧
  [("A"%string, rawA)].*1
    = (database.List (database.Put lzw_only marshalAB emptyItems "items" "A"
                        (Some recA)).1 "items").1 ∧
  ("A"%string, rawA) ∈ [("A"%string, rawA)] ∧
  worker lzw_only jsonAB [("x"%string, intV 1)] (GetFieldMatcher recA) rawA =
    Returns (match jsonAB rawA with
             | Some entity =>
                 if MatchesCriteria entity [("x"%string, intV 1)] (GetFieldMatcher recA)
                 then Some entity else None
             | None => None
             end).
Proof.
  apply (Put_then_ForEach lzw_only marshalAB jsonAB emptyItems
           (database.Put lzw_only marshalAB emptyItems "items" "A" (Some recA)).1
           "items" "A" recA rawA [("A"%string, rawA)] None
           [("x"%string, intV 1)] (GetFieldMatcher recA)).
  - reflexivity.
  - apply codecsReadBack_lzw_only. vm_compute. reflexivity.
  - reflexivity.
  - vm_compute. reflexivity.
  - vm_compute. reflexivity.
Defined.
